(** * graphqllib: the type graph of [graphql/core/type/definition.py]
      and the asyncio bridge of [graphql/core/execution/middlewares/asyncio.py]

    A shallow embedding.  Python objects that the code only reads are
    Rocq values; objects that the code mutates or aliases live in an
    explicit store indexed by object identity.  Failing [assert]s are the
    [Raise] outcome of a small state-and-exception monad. *)

From Stdlib Require Import Ascii String.
From stdpp Require Import gmap strings list fin_maps.

(** ** Python preliminaries *)

(** Object identity ([id(obj)]). *)
Definition oid := nat.

(** Outcome of a Python call: a value, or a raised exception carrying its
    message. *)
Inductive result (A : Type) : Type :=
| Ok (a : A)
| Raise (msg : string).
Arguments Ok {A} a.
Arguments Raise {A} msg.

Definition succeeded {A} (r : result A) : bool :=
  match r with Ok _ => true | Raise _ => false end.

(** A constructor argument that is meant to be a function.  The code asks
    two separate questions of it, [callable(c)] and its truth value
    ([if c:]), so the four kinds of object that answer them differently are
    kept apart: [None]; a function (callable, and truthy like every
    function); a callable object whose class makes it falsy (it defines
    [__call__] and a [__bool__] or [__len__] that answers false); and an
    object that is not callable, with its truth value. *)
Inductive capability (F : Type) : Type :=
| PyNone
| PyCallable (f : F)
| PyFalsyCallable (f : F)
| PyOther (truthy : bool).
Arguments PyNone {F}.
Arguments PyCallable {F} f.
Arguments PyFalsyCallable {F} f.
Arguments PyOther {F} truthy.

(** [callable(c)] *)
Definition callable {F} (c : capability F) : bool :=
  match c with PyCallable _ | PyFalsyCallable _ => true | _ => false end.

(** [bool(c)] *)
Definition truthy {F} (c : capability F) : bool :=
  match c with
  | PyNone => false
  | PyCallable _ => true
  | PyFalsyCallable _ => false
  | PyOther b => b
  end.

(** [c(x)]: calling an object that is not callable raises [TypeError]. *)
Definition call_capability {A B} (c : capability (A -> B)) (x : A) : result B :=
  match c with
  | PyCallable f | PyFalsyCallable f => Ok (f x)
  | _ => Raise "TypeError: object is not callable"
  end.

(** ** Names *)

Definition is_name_start (c : ascii) : bool :=
  let n := nat_of_ascii c in
  (n =? 95) || ((97 <=? n) && (n <=? 122)) || ((65 <=? n) && (n <=? 90)).

Definition is_name_continue (c : ascii) : bool :=
  is_name_start c || ((48 <=? nat_of_ascii c) && (nat_of_ascii c <=? 57)).

(** The tail of [NAME_PATTERN]: [[_a-zA-Z0-9]*$].  Python's [$] matches
    at the end of the string and also just before a final newline. *)
Fixpoint name_tail_matches (s : string) : bool :=
  match s with
  | EmptyString => true
  | String c rest =>
      (is_name_continue c && name_tail_matches rest)
      || ((nat_of_ascii c =? 10) && match rest with EmptyString => true | _ => false end)
  end.

(** [NAME_PATTERN.match(name)] for [^[_a-zA-Z][_a-zA-Z0-9]*$]. *)
Definition NAME_PATTERN_match (name : string) : bool :=
  match name with
  | EmptyString => false
  | String c rest => is_name_start c && name_tail_matches rest
  end.

Definition dquote : string := String (ascii_of_nat 34) EmptyString.

Definition invalid_name_message (name : string) : string :=
  "Names must match /^[_a-zA-Z][_a-zA-Z0-9]*$/ but " +:+ dquote +:+ name
    +:+ dquote +:+ " does not.".

(** [assert_valid_name(name)] *)
Definition assert_valid_name (name : string) : result unit :=
  if NAME_PATTERN_match name then Ok tt else Raise (invalid_name_message name).

(** [assert name, 'Type must be named.'] followed by
    [assert_valid_name(name)], the opening of the named constructors. *)
Definition assert_named (name : string) : result unit :=
  match name with
  | EmptyString => Raise "Type must be named."
  | _ => assert_valid_name name
  end.

(** ** The type graph *)

(** The classes of the closed set of type kinds ([obj.__class__]). *)
Inductive pyclass :=
| C_Scalar | C_Object | C_Interface | C_Union | C_Enum | C_InputObject
| C_List | C_NonNull.

#[global] Instance pyclass_eq_dec : EqDecision pyclass.
Proof. solve_decision. Defined.

(** A type value.  Named types carry their object identity and their
    [name] attribute; the modifiers carry [of_type]. *)
Inductive GraphQLType :=
| GraphQLScalarType (id : oid) (name : string)
| GraphQLObjectType (id : oid) (name : string)
| GraphQLInterfaceType (id : oid) (name : string)
| GraphQLUnionType (id : oid) (name : string)
| GraphQLEnumType (id : oid) (name : string)
| GraphQLInputObjectType (id : oid) (name : string)
| GraphQLList (of_type : GraphQLType)
| GraphQLNonNull (of_type : GraphQLType).

#[global] Instance GraphQLType_eq_dec : EqDecision GraphQLType.
Proof. solve_decision. Defined.

Definition class_of (t : GraphQLType) : pyclass :=
  match t with
  | GraphQLScalarType _ _ => C_Scalar
  | GraphQLObjectType _ _ => C_Object
  | GraphQLInterfaceType _ _ => C_Interface
  | GraphQLUnionType _ _ => C_Union
  | GraphQLEnumType _ _ => C_Enum
  | GraphQLInputObjectType _ _ => C_InputObject
  | GraphQLList _ => C_List
  | GraphQLNonNull _ => C_NonNull
  end.

(** [isinstance(t, (c1, ..., cn))] *)
Definition isinstance (t : GraphQLType) (classes : list pyclass) : bool :=
  bool_decide (class_of t ∈ classes).

(** The [name] attribute; the modifiers have none. *)
Definition type_name (t : GraphQLType) : option string :=
  match t with
  | GraphQLScalarType _ n | GraphQLObjectType _ n | GraphQLInterfaceType _ n
  | GraphQLUnionType _ n | GraphQLEnumType _ n | GraphQLInputObjectType _ n => Some n
  | GraphQLList _ | GraphQLNonNull _ => None
  end.

Definition type_id (t : GraphQLType) : option oid :=
  match t with
  | GraphQLScalarType i _ | GraphQLObjectType i _ | GraphQLInterfaceType i _
  | GraphQLUnionType i _ | GraphQLEnumType i _ | GraphQLInputObjectType i _ => Some i
  | GraphQLList _ | GraphQLNonNull _ => None
  end.

Definition is_named (t : GraphQLType) : bool :=
  negb (isinstance t [C_List; C_NonNull]).

(** [__str__]: the name, [[T]] for a list, [T!] for a non-null. *)
Fixpoint type_str (t : GraphQLType) : string :=
  match t with
  | GraphQLList of_type => "[" +:+ type_str of_type +:+ "]"
  | GraphQLNonNull of_type => type_str of_type +:+ "!"
  | GraphQLScalarType _ n | GraphQLObjectType _ n | GraphQLInterfaceType _ n
  | GraphQLUnionType _ n | GraphQLEnumType _ n | GraphQLInputObjectType _ n => n
  end.

(** [get_named_type]: the [while] loop peels one modifier per iteration. *)
Fixpoint get_named_type (type : GraphQLType) : GraphQLType :=
  match type with
  | GraphQLList of_type => get_named_type of_type
  | GraphQLNonNull of_type => get_named_type of_type
  | unmodified_type => unmodified_type
  end.

Definition get_nullable_type (type : GraphQLType) : GraphQLType :=
  match type with
  | GraphQLNonNull of_type => of_type
  | _ => type
  end.

Definition is_input_type (type : GraphQLType) : bool :=
  let named_type := get_named_type type in
  isinstance named_type [C_Scalar; C_Enum; C_InputObject].

Definition is_output_type (type : GraphQLType) : bool :=
  let named_type := get_named_type type in
  isinstance named_type [C_Scalar; C_Object; C_Interface; C_Union; C_Enum].

Definition is_composite_type (type : GraphQLType) : bool :=
  let named_type := get_named_type type in
  isinstance named_type [C_Object; C_Interface; C_Union].

Definition is_leaf_type (type : GraphQLType) : bool :=
  let named_type := get_named_type type in
  isinstance named_type [C_Scalar; C_Enum].

(** [GraphQLType.is_same_type], the method the named classes inherit:
    [self.__class__ is other.__class__ and self.name == other.name]. *)
Definition base_is_same_type (self other : GraphQLType) : bool :=
  bool_decide (class_of self = class_of other)
  && bool_decide (type_name self = type_name other).

(** [is_same_type] with the overrides of [GraphQLList] and
    [GraphQLNonNull] dispatched on [self]. *)
Fixpoint is_same_type (self other : GraphQLType) : bool :=
  match self with
  | GraphQLList of_type =>
      match other with
      | GraphQLList other_of_type => is_same_type of_type other_of_type
      | _ => false
      end
  | GraphQLNonNull of_type =>
      match other with
      | GraphQLNonNull other_of_type => is_same_type of_type other_of_type
      | _ => false
      end
  | _ => base_is_same_type self other
  end.

(** The modifier constructors with their assertions. *)
Definition new_GraphQLList (type : GraphQLType) : result GraphQLType :=
  Ok (GraphQLList type).

Definition new_GraphQLNonNull (type : GraphQLType) : result GraphQLType :=
  if negb (isinstance type [C_NonNull]) then Ok (GraphQLNonNull type)
  else Raise ("Can only create NonNull of a Nullable GraphQLType but got: "
              +:+ type_str type +:+ ".").

(** A stack of modifiers applied around a type, outermost first. *)
Inductive modifier := ListOf | NonNullOf.

Definition apply_modifier (m : modifier) (t : GraphQLType) : GraphQLType :=
  match m with ListOf => GraphQLList t | NonNullOf => GraphQLNonNull t end.

Definition wrap (ms : list modifier) (t : GraphQLType) : GraphQLType :=
  foldr apply_modifier t ms.

(** The spec's reading of "the result of stripping every List/NonNull
    modifier": [unwraps_to t n] when [n] is named and [t] is [n] under
    some stack of modifiers. *)
Inductive unwraps_to : GraphQLType -> GraphQLType -> Prop :=
| unwraps_named n : is_named n = true -> unwraps_to n n
| unwraps_list t n : unwraps_to t n -> unwraps_to (GraphQLList t) n
| unwraps_non_null t n : unwraps_to t n -> unwraps_to (GraphQLNonNull t) n.

(** ** State and exceptions *)

(** A computation over a mutable state [S] that returns a value or raises.
    The state reached is kept in both cases: an exception does not undo the
    writes made before it. *)
Definition M (S A : Type) : Type := S -> result A * S.

Definition ret {S A} (a : A) : M S A := fun s => (Ok a, s).

Definition bind {S A B} (m : M S A) (k : A -> M S B) : M S B :=
  fun s =>
    match m s with
    | (Ok a, s') => k a s'
    | (Raise msg, s') => (Raise msg, s')
    end.

Definition raise {S A} (msg : string) : M S A := fun s => (Raise msg, s).

Definition lift_result {S A} (r : result A) : M S A := fun s => (r, s).

Definition py_assert {S} (cond : bool) (msg : string) : M S unit :=
  if cond then ret tt else raise msg.

Declare Scope py_scope.
Delimit Scope py_scope with py.
Notation "x <- m ;; k" := (bind m (fun x => k))
  (at level 100, m at next level, right associativity) : py_scope.
Notation "m ;;; k" := (bind m (fun _ => k))
  (at level 100, right associativity) : py_scope.
Open Scope py_scope.

(** ** Heap objects *)

(** Plain Python values: [None], booleans, integers, strings, lists and
    tuples.  The code stores and returns them; the enum lookups also hash and
    compare them. *)
#[warnings="-register-all"]
Inductive pyvalue :=
| VNone
| VBool (b : bool)
| VInt (n : Z)
| VStr (s : string)
| VList (items : list pyvalue)
| VTuple (items : list pyvalue).

#[global] Instance pyvalue_eq_dec : EqDecision pyvalue.
Proof.
  refine (fix go (x y : pyvalue) {struct x} : Decision (x = y) :=
            let _ : EqDecision pyvalue := @go in
            match x, y with
            | VNone, VNone => left _
            | VBool a, VBool b => cast_if (decide (a = b))
            | VInt a, VInt b => cast_if (decide (a = b))
            | VStr a, VStr b => cast_if (decide (a = b))
            | VList a, VList b => cast_if (decide (a = b))
            | VTuple a, VTuple b => cast_if (decide (a = b))
            | _, _ => right _
            end); abstract congruence.
Defined.

(** [isinstance(v, collections.Hashable)]: the class of [v] has a
    [__hash__]; [list] sets it to [None]. *)
Definition is_hashable (v : pyvalue) : bool :=
  match v with
  | VList _ => false
  | VNone | VBool _ | VInt _ | VStr _ | VTuple _ => true
  end.

(** Whether [hash(v)] returns.  It raises [TypeError] for a list and for a
    tuple that holds one at any depth, although the tuple is an instance of
    [Hashable]. *)
Fixpoint hash_ok (v : pyvalue) : bool :=
  match v with
  | VList _ => false
  | VTuple items => forallb hash_ok items
  | VNone | VBool _ | VInt _ | VStr _ => true
  end.

(** [GraphQLEnumValue]; the [name] attribute does not exist until
    [define_enum_values] assigns it. *)
Record GraphQLEnumValue := mkEnumValue {
  ev_name : option string;
  ev_value : pyvalue;
  ev_deprecation_reason : option string;
  ev_description : option string;
}.

(** [GraphQLArgument]; [arg_type] is [None] for an object that is not a
    [GraphQLType]. *)
Record GraphQLArgument := mkArgument {
  arg_name : option string;
  arg_type : option GraphQLType;
  arg_default_value : pyvalue;
  arg_description : option string;
}.

(** The [args] attribute of a field: what the caller passed ([None], a
    dict from names to argument objects, or something else), and after
    resolution the list built by [define_field_map]. *)
Inductive args_attr :=
| ArgsNone
| ArgsMapping (items : list (string * oid))
| ArgsList (args : list oid)
| ArgsOther (truthy : bool).

Record GraphQLField := mkField {
  field_name : option string;
  field_type : option GraphQLType;
  field_args : args_attr;
  field_resolver : option nat;
  field_deprecation_reason : option string;
  field_description : option string;
}.

Record GraphQLInputObjectField := mkInputField {
  input_name : option string;
  input_type : option GraphQLType;
  input_default_value : pyvalue;
  input_description : option string;
}.

(** The objects that the definitions copy or mutate. *)
Inductive pyobj :=
| EnumValueObj (v : GraphQLEnumValue)
| FieldObj (f : GraphQLField)
| ArgumentObj (a : GraphQLArgument)
| InputFieldObj (f : GraphQLInputObjectField)
| OtherObj (rendered : string).

(** The heap: objects by identity, and the next identity to hand out. *)
Record heap := mkHeap {
  objs : gmap oid pyobj;
  next_id : oid;
}.

Definition empty_heap : heap := mkHeap ∅ 0.

(** Every live object was handed out by the allocator. *)
Definition heap_wf (h : heap) : Prop :=
  forall l, is_Some (objs h !! l) -> l < next_id h.

(** Creating an object. *)
Definition alloc (o : pyobj) : M heap oid :=
  fun h => (Ok (next_id h), mkHeap (<[next_id h := o]> (objs h)) (S (next_id h))).

(** Following a reference. *)
Definition deref (l : oid) : M heap pyobj :=
  fun h =>
    match objs h !! l with
    | Some o => (Ok o, h)
    | None => (Raise "dangling reference", h)
    end.

(** Writing the attributes of an existing object. *)
Definition store (l : oid) (o : pyobj) : M heap unit :=
  fun h => (Ok tt, mkHeap (<[l := o]> (objs h)) (next_id h)).

(** [copy.copy(obj)]: a new object with the same attribute values. *)
Definition copy_copy (l : oid) : M heap oid :=
  o <- deref l ;; alloc o.

(** [str(obj)] for a heap object; the classes here do not define
    [__str__], so instances render by the default [repr]. *)
Definition obj_str (o : pyobj) : string :=
  match o with
  | EnumValueObj _ => "<GraphQLEnumValue object>"
  | FieldObj _ => "<GraphQLField object>"
  | ArgumentObj _ => "<GraphQLArgument object>"
  | InputFieldObj _ => "<GraphQLInputObjectField object>"
  | OtherObj rendered => rendered
  end.

(** [str(t)] where [t] is a type or some other object (rendered [None]). *)
Definition opt_type_str (t : option GraphQLType) : string :=
  match t with Some t => type_str t | None => "None" end.

(** A value expected to be a mapping from names to objects. *)
Inductive pymapping :=
| PyDict (items : list (string * oid))
| PyNotMapping.

(** ** Enum types *)

(** [GraphQLEnumValue(value, deprecation_reason, description)] *)
Definition GraphQLEnumValue_init (value : pyvalue) (deprecation_reason : option string)
    (description : option string) : M heap oid :=
  alloc (EnumValueObj (mkEnumValue None value deprecation_reason description)).

Definition set_ev_name (value_name : string) (v : GraphQLEnumValue) : GraphQLEnumValue :=
  mkEnumValue (Some value_name) (ev_value v) (ev_deprecation_reason v) (ev_description v).

Definition enum_values_message (type : string) : string :=
  type +:+ " values must be an mapping (dict) with value names as keys.".

(** The [for] loop of [define_enum_values]; [values] is the list built so
    far. *)
Fixpoint define_enum_values_loop (type : string) (items : list (string * oid))
    (values : list oid) : M heap (list oid) :=
  match items with
  | [] => ret values
  | (value_name, value) :: rest =>
      lift_result (assert_valid_name value_name) ;;;
      o <- deref value ;;
      match o with
      | EnumValueObj v =>
          store value (EnumValueObj (set_ev_name value_name v)) ;;;
          define_enum_values_loop type rest (values ++ [value])
      | _ =>
          raise (type +:+ "." +:+ value_name
                 +:+ " must refer to an object of GraphQLEnumValue type but got: "
                 +:+ obj_str o)
      end
  end.

Definition define_enum_values (type : string) (value_map : pymapping) : M heap (list oid) :=
  match value_map with
  | PyNotMapping => raise (enum_values_message type)
  | PyDict items =>
      py_assert (0 <? length items) (enum_values_message type) ;;;
      define_enum_values_loop type items []
  end.

(** A [GraphQLEnumType] instance: [name], [description], [_values] and
    [_name_lookup]. *)
Record EnumTypeObj := mkEnumType {
  e_name : string;
  e_description : option string;
  e_values : list oid;
  e_name_lookup : option (gmap string oid);
}.

Definition GraphQLEnumType_init (name : string) (values : pymapping)
    (description : option string) : M heap EnumTypeObj :=
  lift_result (assert_valid_name name) ;;;
  vs <- define_enum_values name values ;;
  ret (mkEnumType name description vs None).

Definition get_values (self : EnumTypeObj) : list oid := e_values self.

(** The loop of [_get_name_lookup]: [lookup[value.name] = value]. *)
Fixpoint name_lookup_loop (values : list oid) (lookup : gmap string oid)
    : M heap (gmap string oid) :=
  match values with
  | [] => ret lookup
  | value :: rest =>
      o <- deref value ;;
      match o with
      | EnumValueObj v =>
          match ev_name v with
          | Some n => name_lookup_loop rest (<[n := value]> lookup)
          | None => raise "AttributeError: name"
          end
      | _ => raise "AttributeError: name"
      end
  end.

Definition _get_name_lookup (self : EnumTypeObj) : M heap (gmap string oid * EnumTypeObj) :=
  match e_name_lookup self with
  | Some lookup => ret (lookup, self)
  | None =>
      lookup <- name_lookup_loop (get_values self) ∅ ;;
      ret (lookup, mkEnumType (e_name self) (e_description self)
                     (e_values self) (Some lookup))
  end.

(** A literal of the query language, as far as [parse_literal] looks. *)
Inductive ast_node :=
| AstEnumValue (value : string)
| AstOther.

(** [GraphQLEnumType.parse_literal]; falling off the end returns [None]. *)
Definition parse_literal (self : EnumTypeObj) (value_ast : ast_node)
    : M heap (pyvalue * EnumTypeObj) :=
  match value_ast with
  | AstEnumValue value =>
      r <- _get_name_lookup self ;;
      let '(lookup, self) := r in
      match lookup !! value with
      | Some enum_value =>
          o <- deref enum_value ;;
          match o with
          | EnumValueObj v => ret (ev_value v, self)
          | _ => raise "AttributeError: value"
          end
      | None => ret (VNone, self)
      end
  | AstOther => ret (VNone, self)
  end.

(** The key under which the object [l] occurs last in [items], i.e. the
    last name that the loop of [define_enum_values] assigns to it. *)
Fixpoint last_key (l : oid) (items : list (string * oid)) : option string :=
  match items with
  | [] => None
  | (k, l') :: rest =>
      match last_key l rest with
      | Some k' => Some k'
      | None => if decide (l' = l) then Some k else None
      end
  end.

(** The enum of the class docstring, with a value entry that is given no
    internal value: [GraphQLEnumType('RGB', {'RED': GraphQLEnumValue()})]. *)
Definition rgb_enum : M heap EnumTypeObj :=
  red <- GraphQLEnumValue_init VNone None None ;;
  GraphQLEnumType_init "RGB" (PyDict [("RED", red)]) None.

(** One [GraphQLEnumValue] object reused under two keys:
    [v = GraphQLEnumValue(1); GraphQLEnumType('E', {'A': v, 'B': v})]. *)
Definition shared_enum : M heap EnumTypeObj :=
  v <- GraphQLEnumValue_init (VInt 1) None None ;;
  GraphQLEnumType_init "E" (PyDict [("A", v); ("B", v)]) None.

(** ** Scalar types *)

(** A [GraphQLScalarType] instance: [name], [description], [_serialize],
    [_parse_value], [_parse_literal]. *)
Record ScalarTypeObj := mkScalarType {
  s_name : string;
  s_description : option string;
  s_serialize : capability (pyvalue -> pyvalue);
  s_parse_value : capability (pyvalue -> pyvalue);
  s_parse_literal : capability (ast_node -> pyvalue);
}.

Definition scalar_serialize_message (name : string) : string :=
  name +:+ " must provide " +:+ dquote +:+ "serialize" +:+ dquote
  +:+ " function. If this custom Scalar is also used as an input type, ensure "
  +:+ dquote +:+ "parse_value" +:+ dquote +:+ " and " +:+ dquote +:+ "parse_literal"
  +:+ dquote +:+ " functions are also provided.".

Definition scalar_parse_pair_message (name : string) : string :=
  name +:+ " must provide both " +:+ dquote +:+ "parse_value" +:+ dquote
  +:+ " and " +:+ dquote +:+ "parse_literal" +:+ dquote +:+ " functions.".

(** [GraphQLScalarType.__init__] *)
Definition GraphQLScalarType_init (name : string) (description : option string)
    (serialize parse_value : capability (pyvalue -> pyvalue))
    (parse_literal : capability (ast_node -> pyvalue)) : result ScalarTypeObj :=
  match assert_named name with
  | Raise msg => Raise msg
  | Ok _ =>
      if negb (callable serialize) then Raise (scalar_serialize_message name)
      else if (truthy parse_value || truthy parse_literal)
              && negb (callable parse_value && callable parse_literal)
      then Raise (scalar_parse_pair_message name)
      else Ok (mkScalarType name description serialize parse_value parse_literal)
  end.

(** ** Lazily defined fields and interfaces *)

(** A zero-argument function supplied in place of a value.  Its body may
    create objects; [producer_id] identifies the function object in the
    log of calls. *)
Record producer (A : Type) := mkProducer {
  producer_id : nat;
  producer_body : M heap A;
}.
Arguments mkProducer {A} producer_id producer_body.
Arguments producer_id {A} p.
Arguments producer_body {A} p.

(** The [fields] argument: a value (a mapping or not) or a function. *)
Inductive fields_arg :=
| FieldsValue (fields : pymapping)
| FieldsProducer (p : producer pymapping).

(** An entry of an interface list: an interface object, or an object of
    another class with its rendering. *)
Inductive iface_ref :=
| IfaceRef (l : oid)
| NotIface (rendered : string).

(** A value expected to be a list or tuple of interfaces. *)
Inductive interfaces_value :=
| InterfacesNone
| InterfacesList (interfaces : list iface_ref)
| InterfacesOther.

Inductive interfaces_arg :=
| InterfacesValue (interfaces : interfaces_value)
| InterfacesProducer (p : producer interfaces_value).

(** ** Object, interface and union instances *)

(** A [GraphQLObjectType] instance: [name], [description], [is_type_of],
    [_fields], [_provided_interfaces], [_field_map], [_interfaces]. *)
Record ObjectTypeObj := mkObjectType {
  o_name : string;
  o_description : option string;
  o_is_type_of : capability (pyvalue -> bool);
  o_fields : fields_arg;
  o_provided_interfaces : interfaces_arg;
  o_field_map : option (gmap string oid);
  o_interfaces : option (list iface_ref);
}.

(** A [GraphQLInterfaceType] instance: [name], [description],
    [type_resolver], [_fields], [_impls], [_field_map],
    [_possible_type_names]. *)
Record InterfaceTypeObj := mkInterfaceType {
  i_name : string;
  i_description : option string;
  i_type_resolver : capability (pyvalue -> option ObjectTypeObj);
  i_fields : fields_arg;
  i_impls : list ObjectTypeObj;
  i_field_map : option (gmap string oid);
  i_possible_type_names : option (gset string);
}.

(** A [GraphQLUnionType] instance: [name], [description], [_resolve_type],
    [_types], [_possible_type_names]. *)
Record UnionTypeObj := mkUnionType {
  u_name : string;
  u_description : option string;
  u_resolve_type : capability (pyvalue -> option ObjectTypeObj);
  u_types : list ObjectTypeObj;
  u_possible_type_names : option (gset string);
}.

(** A [GraphQLInputObjectType] instance: [name], [description], [_fields],
    [_field_map]. *)
Record InputObjectTypeObj := mkInputObjectType {
  io_name : string;
  io_description : option string;
  io_fields : fields_arg;
  io_field_map : option (gmap string oid);
}.

(** The mutable world of schema definition: the heap of value objects,
    the log of producer calls (latest first), and the interface instances,
    which object construction updates in place. *)
Record world := mkWorld {
  w_heap : heap;
  w_calls : list nat;
  w_interfaces : gmap oid InterfaceTypeObj;
}.

(** Running a heap computation in the world. *)
Definition on_heap {A} (m : M heap A) : M world A :=
  fun w =>
    let '(r, h) := m (w_heap w) in
    (r, mkWorld h (w_calls w) (w_interfaces w)).

(** Calling a producer: the call is logged, then the body runs. *)
Definition call {A} (p : producer A) : M world A :=
  fun w =>
    on_heap (producer_body p)
      (mkWorld (w_heap w) (producer_id p :: w_calls w) (w_interfaces w)).

(** How many times the function [id] has been called. *)
Definition calls_of (id : nat) (w : world) : nat :=
  length (filter (fun c => c = id) (w_calls w)).

(** ** Abstract types and their possible types *)

Definition must_be_function_message (name attr : string) : string :=
  name +:+ " must provide " +:+ dquote +:+ attr +:+ dquote +:+ " as a function.".

Definition interface_unresolvable_message (iface type : string) : string :=
  "Interface Type " +:+ iface +:+ " does not provide a " +:+ dquote +:+ "resolve_type"
  +:+ dquote +:+ " function and implementing Type " +:+ type
  +:+ " does not provide a " +:+ dquote +:+ "is_type_of" +:+ dquote
  +:+ " function. There is no way to resolve this implementing type during execution.".

Definition union_unresolvable_message (union type : string) : string :=
  "Union Type " +:+ union +:+ " does not provide a " +:+ dquote +:+ "resolve_type"
  +:+ dquote +:+ " function and possible Type " +:+ type
  +:+ " does not provide a " +:+ dquote +:+ "is_type_of" +:+ dquote
  +:+ " function. There is no way to resolve this possible type during execution.".

Definition interfaces_shape_message (type : string) : string :=
  type +:+ " interfaces must be an list/tuple or a function which returns an list/tuple.".

Definition not_an_interface_message (type iface : string) : string :=
  type +:+ " may only implement Interface types, it cannot implement: " +:+ iface +:+ ".".

(** Reading an interface object. *)
Definition get_interface (l : oid) : M world InterfaceTypeObj :=
  fun w =>
    match w_interfaces w !! l with
    | Some iface => (Ok iface, w)
    | None => (Raise "dangling reference", w)
    end.

(** The [for] loop of [define_interfaces]. *)
Fixpoint define_interfaces_loop (type : ObjectTypeObj) (interfaces : list iface_ref)
    : M world unit :=
  match interfaces with
  | [] => ret tt
  | NotIface rendered :: _ => raise (not_an_interface_message (o_name type) rendered)
  | IfaceRef l :: rest =>
      iface <- get_interface l ;;
      (if negb (callable (i_type_resolver iface))
       then py_assert (callable (o_is_type_of type))
              (interface_unresolvable_message (i_name iface) (o_name type))
       else ret tt) ;;;
      define_interfaces_loop type rest
  end.

(** [interfaces = interfaces()] when [interfaces] is callable. *)
Definition force_interfaces (interfaces : interfaces_arg) : M world interfaces_value :=
  match interfaces with
  | InterfacesProducer p => call p
  | InterfacesValue v => ret v
  end.

Definition define_interfaces (type : ObjectTypeObj) (interfaces : interfaces_arg)
    : M world (list iface_ref) :=
  interfaces <- force_interfaces interfaces ;;
  match interfaces with
  | InterfacesNone => ret []
  | InterfacesOther => raise (interfaces_shape_message (o_name type))
  | InterfacesList l => define_interfaces_loop type l ;;; ret l
  end.

Definition set_o_interfaces (self : ObjectTypeObj) (interfaces : list iface_ref)
    : ObjectTypeObj :=
  mkObjectType (o_name self) (o_description self) (o_is_type_of self) (o_fields self)
    (o_provided_interfaces self) (o_field_map self) (Some interfaces).

(** [GraphQLObjectType.get_interfaces]: the list and the updated [self]. *)
Definition get_interfaces (self : ObjectTypeObj) : M world (list iface_ref * ObjectTypeObj) :=
  match o_interfaces self with
  | Some interfaces => ret (interfaces, self)
  | None =>
      interfaces <- define_interfaces self (o_provided_interfaces self) ;;
      ret (interfaces, set_o_interfaces self interfaces)
  end.

Definition append_impl (impl : ObjectTypeObj) (iface : InterfaceTypeObj) : InterfaceTypeObj :=
  mkInterfaceType (i_name iface) (i_description iface) (i_type_resolver iface)
    (i_fields iface) (i_impls iface ++ [impl]) (i_field_map iface)
    (i_possible_type_names iface).

(** [type._impls.append(impl)] on the interface object [l]. *)
Definition register_impl (l : oid) (impl : ObjectTypeObj) : M world unit :=
  iface <- get_interface l ;;
  fun w => (Ok tt, mkWorld (w_heap w) (w_calls w)
                     (<[l := append_impl impl iface]> (w_interfaces w))).

Fixpoint add_impl_loop (impl : ObjectTypeObj) (interfaces : list iface_ref) : M world unit :=
  match interfaces with
  | [] => ret tt
  | IfaceRef l :: rest => register_impl l impl ;;; add_impl_loop impl rest
  | NotIface _ :: _ => raise "AttributeError: _impls"
  end.

(** [add_impl_to_interfaces]; returns [impl] as [get_interfaces] left it. *)
Definition add_impl_to_interfaces (impl : ObjectTypeObj) : M world ObjectTypeObj :=
  r <- get_interfaces impl ;;
  let '(interfaces, impl) := r in
  add_impl_loop impl interfaces ;;;
  ret impl.

(** [GraphQLObjectType.__init__] *)
Definition GraphQLObjectType_init (name : string) (fields : fields_arg)
    (interfaces : interfaces_arg) (is_type_of : capability (pyvalue -> bool))
    (description : option string) : M world ObjectTypeObj :=
  lift_result (assert_named name) ;;;
  (if truthy is_type_of
   then py_assert (callable is_type_of) (must_be_function_message name "is_type_of")
   else ret tt) ;;;
  add_impl_to_interfaces
    (mkObjectType name description is_type_of fields interfaces None None).

(** [GraphQLInterfaceType.__init__] *)
Definition GraphQLInterfaceType_init (name : string) (fields : fields_arg)
    (resolve_type : capability (pyvalue -> option ObjectTypeObj))
    (description : option string) : result InterfaceTypeObj :=
  match assert_named name with
  | Raise msg => Raise msg
  | Ok _ =>
      if truthy resolve_type && negb (callable resolve_type)
      then Raise (must_be_function_message name "resolve_type")
      else Ok (mkInterfaceType name description resolve_type fields [] None None)
  end.

(** An entry of a union's [types]: an object type, or an object of another
    class with its rendering. *)
Inductive member :=
| MemberObject (type : ObjectTypeObj)
| MemberOther (rendered : string).

(** The [for] loop of [GraphQLUnionType.__init__]; it returns the members,
    all of them object types when no assertion fails. *)
Fixpoint union_types_loop (name : string)
    (resolve_type : capability (pyvalue -> option ObjectTypeObj))
    (types : list member) : result (list ObjectTypeObj) :=
  match types with
  | [] => Ok []
  | MemberOther rendered :: _ =>
      Raise (name +:+ " may only contain Object types, it cannot contain: " +:+ rendered)
  | MemberObject type :: rest =>
      if negb (callable resolve_type) && negb (callable (o_is_type_of type))
      then Raise (union_unresolvable_message name (o_name type))
      else match union_types_loop name resolve_type rest with
           | Ok checked => Ok (type :: checked)
           | Raise msg => Raise msg
           end
  end.

(** [GraphQLUnionType.__init__]; an absent ([None]) and an empty [types]
    are both the empty list here, both fail [assert types]. *)
Definition GraphQLUnionType_init (name : string) (types : list member)
    (resolve_type : capability (pyvalue -> option ObjectTypeObj))
    (description : option string) : result UnionTypeObj :=
  match assert_named name with
  | Raise msg => Raise msg
  | Ok _ =>
      if truthy resolve_type && negb (callable resolve_type)
      then Raise (must_be_function_message name "resolve_type")
      else match types with
           | [] => Raise ("Must provide types for Union " +:+ name +:+ ".")
           | _ =>
               match union_types_loop name resolve_type types with
               | Ok checked => Ok (mkUnionType name description resolve_type checked None)
               | Raise msg => Raise msg
               end
           end
  end.

(** An interface or a union. *)
Inductive abstract_type :=
| AbstractInterface (iface : InterfaceTypeObj)
| AbstractUnion (union : UnionTypeObj).

Definition get_possible_types (abstract : abstract_type) : list ObjectTypeObj :=
  match abstract with
  | AbstractInterface iface => i_impls iface
  | AbstractUnion union => u_types union
  end.

(** [callable(type.is_type_of) and type.is_type_of(value)] *)
Definition accepts (type : ObjectTypeObj) (value : pyvalue) : bool :=
  match o_is_type_of type with
  | PyCallable is_type_of | PyFalsyCallable is_type_of => is_type_of value
  | PyNone | PyOther _ => false
  end.

(** The [for] loop of [get_type_of]; running off the end returns [None]. *)
Fixpoint get_type_of_loop (value : pyvalue) (possible_types : list ObjectTypeObj)
    : option ObjectTypeObj :=
  match possible_types with
  | [] => None
  | type :: rest =>
      if accepts type value then Some type else get_type_of_loop value rest
  end.

Definition get_type_of (value : pyvalue) (abstract : abstract_type) : option ObjectTypeObj :=
  let possible_types := get_possible_types abstract in
  get_type_of_loop value possible_types.


(** [GraphQLInterfaceType.resolve_type]: the resolver is called when it is
    truthy, whatever it is. *)
Definition interface_resolve_type (self : InterfaceTypeObj) (value : pyvalue)
    : result (option ObjectTypeObj) :=
  if truthy (i_type_resolver self)
  then call_capability (i_type_resolver self) value
  else Ok (get_type_of value (AbstractInterface self)).

(** [GraphQLUnionType.resolve_type] *)
Definition union_resolve_type (self : UnionTypeObj) (value : pyvalue)
    : result (option ObjectTypeObj) :=
  if truthy (u_resolve_type self)
  then call_capability (u_resolve_type self) value
  else Ok (get_type_of value (AbstractUnion self)).

Definition resolve_type (abstract : abstract_type) (value : pyvalue)
    : result (option ObjectTypeObj) :=
  match abstract with
  | AbstractInterface iface => interface_resolve_type iface value
  | AbstractUnion union => union_resolve_type union value
  end.

(** The union of the class docstring: [Pet] with members [Dog] and [Cat],
    each with a membership test, and no resolver. *)
Definition DogType : ObjectTypeObj :=
  mkObjectType "Dog" None (PyCallable (fun v => bool_decide (v = VStr "dog")))
    (FieldsValue (PyDict [])) (InterfacesValue InterfacesNone) None None.

Definition CatType : ObjectTypeObj :=
  mkObjectType "Cat" None (PyCallable (fun v => bool_decide (v = VStr "cat")))
    (FieldsValue (PyDict [])) (InterfacesValue InterfacesNone) None None.

Definition PetType : UnionTypeObj :=
  mkUnionType "Pet" None PyNone [DogType; CatType] None.


(** An object type without a membership test, and an interface without a
    resolver. *)
Definition SomeObjectType : ObjectTypeObj :=
  mkObjectType "SomeObject" None PyNone (FieldsValue (PyDict []))
    (InterfacesValue InterfacesNone) None None.

Definition SomeInterfaceType : InterfaceTypeObj :=
  mkInterfaceType "SomeInterface" None PyNone (FieldsValue (PyDict [])) [] None None.

Definition world_with_interface : world :=
  mkWorld empty_heap [] {[ 7 := SomeInterfaceType ]}.

(** ** Field maps *)

(** [obj.name = name] on a copy of [o]; an object of another class gets the
    attribute without changing how it renders. *)
Definition set_obj_name (name : string) (o : pyobj) : pyobj :=
  match o with
  | EnumValueObj v => EnumValueObj (set_ev_name name v)
  | FieldObj f =>
      FieldObj (mkField (Some name) (field_type f) (field_args f) (field_resolver f)
                  (field_deprecation_reason f) (field_description f))
  | ArgumentObj a =>
      ArgumentObj (mkArgument (Some name) (arg_type a) (arg_default_value a)
                     (arg_description a))
  | InputFieldObj f =>
      InputFieldObj (mkInputField (Some name) (input_type f) (input_default_value f)
                       (input_description f))
  | OtherObj rendered => OtherObj rendered
  end.

(** [obj.name] *)
Definition obj_name (o : pyobj) : option string :=
  match o with
  | EnumValueObj v => ev_name v
  | FieldObj f => field_name f
  | ArgumentObj a => arg_name a
  | InputFieldObj f => input_name f
  | OtherObj _ => None
  end.

(** [obj.type]: the outer [None] stands for [AttributeError]. *)
Definition obj_type (o : pyobj) : option (option GraphQLType) :=
  match o with
  | FieldObj f => Some (field_type f)
  | ArgumentObj a => Some (arg_type a)
  | InputFieldObj f => Some (input_type f)
  | EnumValueObj _ | OtherObj _ => None
  end.

(** The classification predicates on an attribute that may hold an object
    other than a type. *)
Definition is_output_type_of (t : option GraphQLType) : bool :=
  match t with Some t => is_output_type t | None => false end.

Definition is_input_type_of (t : option GraphQLType) : bool :=
  match t with Some t => is_input_type t | None => false end.

Definition fields_message (type : string) : string :=
  type +:+ " fields must be an mapping (dict) with field names as keys or a "
  +:+ "function which returns such an mapping.".

(** The body of the inner [for] loop of [define_field_map]: one argument
    is checked, copied and named; the copy is returned. *)
Definition define_arg (type field_name arg_name : string) (arg : oid) : M heap oid :=
  lift_result (assert_valid_name arg_name) ;;;
  o <- deref arg ;;
  match obj_type o with
  | None => raise "AttributeError: type"
  | Some arg_type =>
      py_assert (is_input_type_of arg_type)
        (type +:+ "." +:+ field_name +:+ "(" +:+ arg_name
         +:+ ":) argument type must be Input Type but got: "
         +:+ opt_type_str arg_type +:+ ".") ;;;
      arg <- copy_copy arg ;;
      o <- deref arg ;;
      store arg (set_obj_name arg_name o) ;;;
      ret arg
  end.

(** The inner [for] loop; [args] is the list built so far. *)
Fixpoint define_args_loop (type field_name : string) (items : list (string * oid))
    (args : list oid) : M heap (list oid) :=
  match items with
  | [] => ret args
  | (arg_name, arg) :: rest =>
      arg <- define_arg type field_name arg_name arg ;;
      define_args_loop type field_name rest (args ++ [arg])
  end.

Definition set_field_args (args : args_attr) (f : GraphQLField) : GraphQLField :=
  mkField (field_name f) (field_type f) args (field_resolver f)
    (field_deprecation_reason f) (field_description f).

(** [bool(field.args)] *)
Definition args_truthy (args : args_attr) : bool :=
  match args with
  | ArgsNone => false
  | ArgsMapping items => negb (bool_decide (items = []))
  | ArgsList args => negb (bool_decide (args = []))
  | ArgsOther truthy => truthy
  end.

(** The body of the outer [for] loop of [define_field_map]: one field is
    copied, named, checked and given its argument list; the copy is
    returned. *)
Definition define_field (type field_name : string) (field : oid) : M heap oid :=
  lift_result (assert_valid_name field_name) ;;;
  field <- copy_copy field ;;
  o <- deref field ;;
  store field (set_obj_name field_name o) ;;;
  o <- deref field ;;
  match obj_type o with
  | None => raise "AttributeError: type"
  | Some field_type =>
      py_assert (is_output_type_of field_type)
        (type +:+ "." +:+ field_name +:+ " field type must be Output Type but got: "
         +:+ opt_type_str field_type) ;;;
      match o with
      | FieldObj f =>
          (if negb (args_truthy (field_args f))
           then store field (FieldObj (set_field_args (ArgsList []) f))
           else
             match field_args f with
             | ArgsMapping items =>
                 args <- define_args_loop type field_name items [] ;;
                 store field (FieldObj (set_field_args (ArgsList args) f))
             | _ =>
                 raise (type +:+ "." +:+ field_name
                        +:+ " args must be an mapping (dict) with argument names as keys.")
             end) ;;;
          ret field
      | _ => raise "AttributeError: args"
      end
  end.

(** The outer [for] loop; [field_map] is the dict built so far. *)
Fixpoint define_field_map_loop (type : string) (items : list (string * oid))
    (field_map : gmap string oid) : M heap (gmap string oid) :=
  match items with
  | [] => ret field_map
  | (field_name, field) :: rest =>
      field <- define_field type field_name field ;;
      define_field_map_loop type rest (<[field_name := field]> field_map)
  end.

(** [fields = fields()] when [fields] is callable. *)
Definition force_fields (fields : fields_arg) : M world pymapping :=
  match fields with
  | FieldsProducer p => call p
  | FieldsValue fields => ret fields
  end.

Definition define_field_map (type : string) (fields : fields_arg)
    : M world (gmap string oid) :=
  fields <- force_fields fields ;;
  match fields with
  | PyNotMapping => raise (fields_message type)
  | PyDict items =>
      py_assert (0 <? length items) (fields_message type) ;;;
      on_heap (define_field_map_loop type items ∅)
  end.

(** The body of the loop of [GraphQLInputObjectType._define_field_map].
    Its message formats the builtin [type], not the input object. *)
Definition define_input_field (field_name : string) (field : oid) : M heap oid :=
  lift_result (assert_valid_name field_name) ;;;
  field <- copy_copy field ;;
  o <- deref field ;;
  store field (set_obj_name field_name o) ;;;
  o <- deref field ;;
  match obj_type o with
  | None => raise "AttributeError: type"
  | Some field_type =>
      py_assert (is_input_type_of field_type)
        ("<class 'type'>." +:+ field_name +:+ " field type must be Input Type but got: "
         +:+ opt_type_str field_type) ;;;
      ret field
  end.

Fixpoint define_input_field_map_loop (items : list (string * oid))
    (field_map : gmap string oid) : M heap (gmap string oid) :=
  match items with
  | [] => ret field_map
  | (field_name, field) :: rest =>
      field <- define_input_field field_name field ;;
      define_input_field_map_loop rest (<[field_name := field]> field_map)
  end.

(** [GraphQLInputObjectType._define_field_map] *)
Definition _define_field_map (self : InputObjectTypeObj) (fields : fields_arg)
    : M world (gmap string oid) :=
  fields <- force_fields fields ;;
  match fields with
  | PyNotMapping => raise (fields_message (io_name self))
  | PyDict items =>
      py_assert (0 <? length items) (fields_message (io_name self)) ;;;
      on_heap (define_input_field_map_loop items ∅)
  end.



Definition set_io_field_map (self : InputObjectTypeObj) (field_map : gmap string oid)
    : InputObjectTypeObj :=
  mkInputObjectType (io_name self) (io_description self) (io_fields self)
    (Some field_map).



(** [GraphQLInputObjectType.get_fields] *)
Definition GraphQLInputObjectType_get_fields (self : InputObjectTypeObj)
    : M world (gmap string oid * InputObjectTypeObj) :=
  match io_field_map self with
  | Some field_map => ret (field_map, self)
  | None =>
      field_map <- _define_field_map self (io_fields self) ;;
      ret (field_map, set_io_field_map self field_map)
  end.

(** A caller that invokes a method [n] times on one instance, catching
    what it raises: the outcomes in order, the instance and the world at the
    end.  A call that raises leaves the instance as it was. *)
Fixpoint call_times {T A} (method : T -> M world (A * T)) (n : nat) (self : T) (w : world)
    : list (result A) * T * world :=
  match n with
  | 0 => ([], self, w)
  | S n =>
      match method self w with
      | (Ok (a, self'), w') =>
          let '(outcomes, self'', w'') := call_times method n self' w' in
          (Ok a :: outcomes, self'', w'')
      | (Raise msg, w') =>
          let '(outcomes, self'', w'') := call_times method n self w' in
          (Raise msg :: outcomes, self'', w'')
      end
  end.

(** *** Vocabulary for the statements about field-map resolution *)

(** The references an object holds to other heap objects. *)
Definition obj_refs (o : pyobj) : list oid :=
  match o with
  | FieldObj f =>
      match field_args f with
      | ArgsMapping items => items.*2
      | ArgsList args => args
      | _ => []
      end
  | _ => []
  end.

(** The objects below [b] only refer to objects below [b]. *)
Definition closed_below (b : oid) (h : heap) : Prop :=
  forall l o r, l < b -> objs h !! l = Some o -> r ∈ obj_refs o -> r < b.

(** No dangling reference: every object and every reference it holds was
    handed out by the allocator. *)
Definition heap_closed (h : heap) : Prop :=
  heap_wf h /\ closed_below (next_id h) h.

(** The argument entries that the inner loop visits. *)
Definition arg_items (f : GraphQLField) : list (string * oid) :=
  match field_args f with
  | ArgsMapping items => items
  | _ => []
  end.

(** [o'] is what a copy of [o] is once it has been given the name [k]: an
    object of the same class whose [name] is [k] and whose other attributes
    are those of [o].  Only the classes that have a [type] attribute get as
    far as being named in field-map resolution. *)
Definition named_copy (k : string) (o o' : pyobj) : Prop :=
  match o, o' with
  | FieldObj f, FieldObj f' =>
      f' = mkField (Some k) (field_type f) (field_args f) (field_resolver f)
             (field_deprecation_reason f) (field_description f)
  | ArgumentObj a, ArgumentObj a' =>
      a' = mkArgument (Some k) (arg_type a) (arg_default_value a) (arg_description a)
  | InputFieldObj f, InputFieldObj f' =>
      f' = mkInputField (Some k) (input_type f) (input_default_value f)
             (input_description f)
  | _, _ => False
  end.

(** [l'] is the resolved copy of the caller's field [f] under the key [k]:
    it bears the name [k], keeps the other attributes of [f], and its
    argument list is made of the objects right after it, the [i]-th being a
    copy, named by its key, of the [i]-th argument of [f]. *)
Definition resolved_field (h h' : heap) (k : string) (f : GraphQLField) (l' : oid) : Prop :=
  objs h' !! l'
  = Some (FieldObj (mkField (Some k) (field_type f)
                      (ArgsList (seq (S l') (length (arg_items f))))
                      (field_resolver f) (field_deprecation_reason f)
                      (field_description f)))
  /\ forall i ak al,
       arg_items f !! i = Some (ak, al) ->
       exists a a', objs h !! al = Some a
                    /\ objs h' !! (S l' + i) = Some a'
                    /\ named_copy ak a a'.

(** [GraphQLField(type, args, resolver, deprecation_reason, description)] *)
Definition GraphQLField_init (type : option GraphQLType) (args : args_attr)
    (resolver : option nat) (deprecation_reason description : option string)
    : M heap oid :=
  alloc (FieldObj (mkField None type args resolver deprecation_reason description)).

(** [GraphQLArgument(type, default_value, description)] *)
Definition GraphQLArgument_init (type : option GraphQLType) (default_value : pyvalue)
    (description : option string) : M heap oid :=
  alloc (ArgumentObj (mkArgument None type default_value description)).

(** [GraphQLInputObjectField(type, default_value, description)] *)
Definition GraphQLInputObjectField_init (type : option GraphQLType)
    (default_value : pyvalue) (description : option string) : M heap oid :=
  alloc (InputFieldObj (mkInputField None type default_value description)).

Definition GraphQLString : GraphQLType := GraphQLScalarType 100 "String".

(** One argument object [A] (object 0) used under the keys [a] and [b] of
    one field object [F] (object 1), itself used under the keys [x] and [y]:
    [A = GraphQLArgument(GraphQLString)],
    [F = GraphQLField(GraphQLString, args={'a': A, 'b': A})],
    [fields = {'x': F, 'y': F}]. *)
Definition shared_field_heap : heap :=
  mkHeap
    (<[1 := FieldObj (mkField None (Some GraphQLString)
                        (ArgsMapping [("a", 0); ("b", 0)]) None None None)]>
       (<[0 := ArgumentObj (mkArgument None (Some GraphQLString) VNone None)]> ∅))
    2.

Definition shared_field_world : world := mkWorld shared_field_heap [] ∅.

Definition shared_field_items : list (string * oid) := [("x", 1); ("y", 1)].

(** The same fields supplied lazily:
    [lambda: {'x': F, 'y': F}] with [A] and [F] created by the function. *)
Definition shared_field_producer : producer pymapping :=
  mkProducer 3
    (A <- GraphQLArgument_init (Some GraphQLString) VNone None ;;
     F <- GraphQLField_init (Some GraphQLString) (ArgsMapping [("a", A); ("b", A)])
            None None None ;;
     ret (PyDict [("x", F); ("y", F)])).




Definition empty_world : world := mkWorld empty_heap [] ∅.




(** ** The asyncio bridge *)

(** An exception object.  An instance of a class that defines neither
    [__bool__] nor [__len__] is truthy, as the builtin exceptions are; an
    exception class of the application may define one of them, and its
    instances may then be falsy. *)
Inductive pyexn :=
| Exn (name : string)
| FalsyExn (name : string).

(** [bool(e)] *)
Definition exn_truthy (e : pyexn) : bool :=
  match e with Exn _ => true | FalsyExn _ => false end.

Definition exn_name (e : pyexn) : string :=
  match e with Exn name | FalsyExn name => name end.

(** How an [asyncio.Future] is done. *)
Inductive outcome :=
| Returned (v : pyvalue)
| Raised (e : pyexn)
| Cancelled.

(** A done-callback.  The only closures this module registers are the
    [handle_future_result] functions made by [process_future_result], which
    capture a deferred. *)
Inductive done_callback :=
| HandleFutureResult (deferred : oid).

#[global] Instance done_callback_eq_dec : EqDecision done_callback.
Proof. solve_decision. Defined.

(** An [asyncio.Future]: pending ([f_outcome = None]) or done, with the
    callbacks waiting for it; a [Task] also has the coroutine it drives. *)
Record future_state := mkFuture {
  f_outcome : option outcome;
  f_callbacks : list done_callback;
  f_coroutine : option oid;
}.

(** Modelled from the spec: the [Deferred] class of [graphql.core.defer],
    which is not among the sources.  Section 4.5: a pending value is
    [Pending], then [Settled(Success(value))] or [Settled(Failure(error))],
    terminal once settled and settled at most once. *)
Inductive settlement :=
| Success (value : pyvalue)
| Failure (error : pyexn).

(** Modelled from the spec: the state of a [Deferred] (section 4.5). *)
Inductive deferred_state :=
| Pending
| Settled (s : settlement).

(** The event loop and the objects it serves: futures, deferreds, the
    queue of [call_soon] (callback and the future it is called with), and the
    next object identity. *)
Record bridge := mkBridge {
  futures : gmap oid future_state;
  deferreds : gmap oid deferred_state;
  ready : list (done_callback * oid);
  next_obj : oid;
}.

(** Modelled from the spec: [Deferred()], a fresh pending value. *)
Definition Deferred_init : M bridge oid :=
  fun s => (Ok (next_obj s),
            mkBridge (futures s) (<[next_obj s := Pending]> (deferreds s)) (ready s)
              (S (next_obj s))).

(** Modelled from the spec: settling a deferred; settling one that is
    already settled is a contract violation. *)
Definition settle (d : oid) (st : settlement) : M bridge unit :=
  fun s =>
    match deferreds s !! d with
    | Some Pending =>
        (Ok tt, mkBridge (futures s) (<[d := Settled st]> (deferreds s)) (ready s)
                  (next_obj s))
    | Some (Settled _) => (Raise "AlreadyCalledDeferred", s)
    | None => (Raise "dangling reference", s)
    end.

(** Modelled from the spec: [Deferred.callback(value)] and
    [Deferred.errback(error)]. *)
Definition Deferred_callback (d : oid) (value : pyvalue) : M bridge unit :=
  settle d (Success value).

Definition Deferred_errback (d : oid) (error : pyexn) : M bridge unit :=
  settle d (Failure error).

Definition get_future (f : oid) : M bridge future_state :=
  fun s =>
    match futures s !! f with
    | Some fs => (Ok fs, s)
    | None => (Raise "dangling reference", s)
    end.

Definition put_future (f : oid) (fs : future_state) : M bridge unit :=
  fun s => (Ok tt, mkBridge (<[f := fs]> (futures s)) (deferreds s) (ready s) (next_obj s)).

(** [loop.call_soon(callback, future)] *)
Definition call_soon (cbs : list (done_callback * oid)) : M bridge unit :=
  fun s => (Ok tt, mkBridge (futures s) (deferreds s) (ready s ++ cbs) (next_obj s)).

(** [Future.exception()]: [None] for a future done with a result, the
    exception for one done with an exception. *)
Definition Future_exception (f : oid) : M bridge (option pyexn) :=
  fs <- get_future f ;;
  match f_outcome fs with
  | Some (Returned _) => ret None
  | Some (Raised e) => ret (Some e)
  | Some Cancelled => raise "CancelledError"
  | None => raise "InvalidStateError"
  end.

(** [Future.result()] *)
Definition Future_result (f : oid) : M bridge pyvalue :=
  fs <- get_future f ;;
  match f_outcome fs with
  | Some (Returned v) => ret v
  | Some (Raised e) => raise (exn_name e)
  | Some Cancelled => raise "CancelledError"
  | None => raise "InvalidStateError"
  end.

(** [Future.add_done_callback(fn)]: queued on a pending future, scheduled
    at once on a done one. *)
Definition add_done_callback (f : oid) (fn : done_callback) : M bridge unit :=
  fs <- get_future f ;;
  match f_outcome fs with
  | None => put_future f (mkFuture None (f_callbacks fs ++ [fn]) (f_coroutine fs))
  | Some _ => call_soon [(fn, f)]
  end.

(** Completion of a pending future: the outcome is recorded and the
    waiting callbacks are scheduled. *)
Definition finish (f : oid) (o : outcome) : M bridge unit :=
  fs <- get_future f ;;
  match f_outcome fs with
  | None =>
      put_future f (mkFuture (Some o) [] (f_coroutine fs)) ;;;
      call_soon ((fun fn => (fn, f)) <$> f_callbacks fs)
  | Some _ => raise "InvalidStateError"
  end.

(** [Future.set_result(value)] and [Future.set_exception(exception)]; for
    a [Task] the loop does this when the coroutine returns or raises. *)
Definition Future_set_result (f : oid) (value : pyvalue) : M bridge unit :=
  finish f (Returned value).


(** [handle_future_result], the closure of [process_future_result] over
    [deferred].  [if exception:] asks for the truth value of what
    [future.exception()] returned: [None] and a falsy exception both take the
    [else] branch, where [future.result()] raises the exception of a future
    that has one. *)
Definition handle_future_result (deferred : oid) (future : oid) : M bridge unit :=
  exception <- Future_exception future ;;
  let otherwise :=
    (result <- Future_result future ;;
     Deferred_callback deferred result) in
  match exception with
  | Some exception =>
      if exn_truthy exception then Deferred_errback deferred exception else otherwise
  | None => otherwise
  end.

Definition process_future_result (deferred : oid) : done_callback :=
  HandleFutureResult deferred.

(** Calling a done-callback. *)
Definition run_callback (fn : done_callback) (future : oid) : M bridge unit :=
  match fn with
  | HandleFutureResult deferred => handle_future_result deferred future
  end.

(** The loop runs scheduled callbacks in order; what a callback raises is
    reported and dropped. *)
Fixpoint run_callbacks (cbs : list (done_callback * oid)) (s : bridge) : bridge :=
  match cbs with
  | [] => s
  | (fn, future) :: rest => run_callbacks rest (snd (run_callback fn future s))
  end.

(** One turn of the loop: everything scheduled so far is run. *)
Definition run_ready (s : bridge) : bridge :=
  run_callbacks (ready s) (mkBridge (futures s) (deferreds s) [] (next_obj s)).

(** What a resolver may return. *)
Inductive resolver_result :=
| PlainValue (v : pyvalue)
| DeferredRef (d : oid)
| FutureRef (f : oid)
| CoroutineRef (c : oid).

(** [isinstance(result, Future) or iscoroutine(result)] *)
Definition is_pending_host (result : resolver_result) : bool :=
  match result with
  | FutureRef _ | CoroutineRef _ => true
  | PlainValue _ | DeferredRef _ => false
  end.

(** [ensure_future]: a future is returned as it is, a coroutine is wrapped
    in a new pending [Task]. *)
Definition ensure_future (result : resolver_result) : M bridge oid :=
  match result with
  | FutureRef f => ret f
  | CoroutineRef c =>
      fun s => (Ok (next_obj s),
                mkBridge (<[next_obj s := mkFuture None [] (Some c)]> (futures s))
                  (deferreds s) (ready s) (S (next_obj s)))
  | _ => raise "TypeError: An asyncio.Future, a coroutine or an awaitable is required"
  end.

(** [AsyncioExecutionMiddleware.run_resolve_fn] *)
Definition run_resolve_fn (resolver : M bridge resolver_result) : M bridge resolver_result :=
  result <- resolver ;;
  if is_pending_host result then
    future <- ensure_future result ;;
    d <- Deferred_init ;;
    add_done_callback future (process_future_result d) ;;;
    ret (DeferredRef d)
  else ret result.

(** The settlement that [handle_future_result] forwards for a future done
    with a result or with a truthy exception; a future done with a falsy
    exception and a cancelled future forward none. *)
Definition settlement_of (o : outcome) : option settlement :=
  match o with
  | Returned v => Some (Success v)
  | Raised e => if exn_truthy e then Some (Failure e) else None
  | Cancelled => None
  end.

(** Identities come from the allocator: no future, deferred or registered
    callback refers to an object not yet created. *)
Definition bridge_wf (s : bridge) : Prop :=
  (forall d, is_Some (deferreds s !! d) -> d < next_obj s)
  /\ (forall f, is_Some (futures s !! f) -> f < next_obj s)
  /\ (forall f fs d, futures s !! f = Some fs ->
                     HandleFutureResult d ∈ f_callbacks fs -> d < next_obj s)
  /\ (forall d f, (HandleFutureResult d, f) ∈ ready s -> d < next_obj s).

(** The deferred [d] waits for the future [f]: [d] is pending, its
    forwarding callback is registered, on [f] only, either among the
    callbacks of the pending [f] or, [f] being done, in the queue of the
    loop. *)
Definition linked (f d : oid) (s : bridge) : Prop :=
  deferreds s !! d = Some Pending
  /\ (forall f' fs, futures s !! f' = Some fs ->
                    HandleFutureResult d ∈ f_callbacks fs -> f' = f)
  /\ (forall f', (HandleFutureResult d, f') ∈ ready s -> f' = f)
  /\ ((exists fs, futures s !! f = Some fs /\ f_outcome fs = None
                  /\ HandleFutureResult d ∈ f_callbacks fs)
      \/ (exists fs o, futures s !! f = Some fs /\ f_outcome fs = Some o
                       /\ (HandleFutureResult d, f) ∈ ready s)).


Definition future_resolver : M bridge resolver_result := ret (FutureRef 1).


(** * Further operations of the type module *)

(** ** Vocabulary: the names the pattern describes *)

(** Strings over [[_a-zA-Z0-9]]. *)
Fixpoint all_name_continue (s : string) : bool :=
  match s with
  | EmptyString => true
  | String c rest => is_name_continue c && all_name_continue rest
  end.

Definition newline : string := String (ascii_of_nat 10) EmptyString.

(** ** Scalar methods *)

(** [GraphQLScalarType.serialize] *)
Definition scalar_serialize (self : ScalarTypeObj) (value : pyvalue) : result pyvalue :=
  call_capability (s_serialize self) value.

(** [GraphQLScalarType.parse_value] *)
Definition scalar_parse_value (self : ScalarTypeObj) (value : pyvalue) : result pyvalue :=
  if truthy (s_parse_value self) then call_capability (s_parse_value self) value
  else Ok VNone.

(** [GraphQLScalarType.parse_literal] *)
Definition scalar_parse_literal (self : ScalarTypeObj) (value_ast : ast_node)
    : result pyvalue :=
  if truthy (s_parse_literal self) then call_capability (s_parse_literal self) value_ast
  else Ok VNone.

(** ** Possible types by name *)

(** [set(t.name for t in self.get_possible_types())] *)
Definition possible_type_names (possible_types : list ObjectTypeObj) : gset string :=
  list_to_set (o_name <$> possible_types).

Definition set_u_possible_type_names (self : UnionTypeObj) (names : gset string)
    : UnionTypeObj :=
  mkUnionType (u_name self) (u_description self) (u_resolve_type self) (u_types self)
    (Some names).

(** [GraphQLUnionType.is_possible_type]: the answer and the updated
    [self]. *)
Definition union_is_possible_type (self : UnionTypeObj) (type : ObjectTypeObj)
    : bool * UnionTypeObj :=
  let self :=
    match u_possible_type_names self with
    | Some _ => self
    | None =>
        set_u_possible_type_names self
          (possible_type_names (get_possible_types (AbstractUnion self)))
    end in
  match u_possible_type_names self with
  | Some names => (bool_decide (o_name type ∈ names), self)
  | None => (false, self)
  end.

Definition set_i_possible_type_names (self : InterfaceTypeObj) (names : gset string)
    : InterfaceTypeObj :=
  mkInterfaceType (i_name self) (i_description self) (i_type_resolver self)
    (i_fields self) (i_impls self) (i_field_map self) (Some names).

(** [GraphQLInterfaceType.is_possible_type] on the interface object [l],
    which lives in the world because object construction appends to its
    [_impls]. *)
Definition interface_is_possible_type (l : oid) (type : ObjectTypeObj) : M world bool :=
  self <- get_interface l ;;
  match i_possible_type_names self with
  | Some names => ret (bool_decide (o_name type ∈ names))
  | None =>
      let names := possible_type_names (get_possible_types (AbstractInterface self)) in
      fun w =>
        (Ok (bool_decide (o_name type ∈ names)),
         mkWorld (w_heap w) (w_calls w)
           (<[l := set_i_possible_type_names self names]> (w_interfaces w)))
  end.

(** ** Enum lookups by value *)

(** Two sequences compared item by item. *)
Definition all2 {A B} (f : A -> B -> bool) : list A -> list B -> bool :=
  fix go xs ys :=
    match xs, ys with
    | [], [] => true
    | x :: xs, y :: ys => f x y && go xs ys
    | _, _ => false
    end.

(** [a == b] on the plain values: [True == 1] and [False == 0]; two lists,
    and two tuples, are equal when they have equal items in the same order;
    otherwise equality is within one kind. *)
Fixpoint py_eqb (a b : pyvalue) {struct a} : bool :=
  match a, b with
  | VNone, VNone => true
  | VBool x, VBool y => Bool.eqb x y
  | VInt x, VInt y => (x =? y)%Z
  | VStr x, VStr y => bool_decide (x = y)
  | VList x, VList y => all2 py_eqb x y
  | VTuple x, VTuple y => all2 py_eqb x y
  | VBool x, VInt y | VInt y, VBool x => (y =? (if x then 1 else 0))%Z
  | _, _ => false
  end.

(** A dict keyed by plain values, in insertion order.  Its keys can be
    hashed: [dict_setitem] admits no other. *)
Definition pydict := list (pyvalue * oid).

(** Where [d[k] = v] puts the entry: an equal key keeps its place and gets
    the new value. *)
Fixpoint dict_set (k : pyvalue) (v : oid) (d : pydict) : pydict :=
  match d with
  | [] => [(k, v)]
  | (k0, v0) :: rest =>
      if py_eqb k0 k then (k0, v) :: rest else (k0, v0) :: dict_set k v rest
  end.

(** The entry that [d.get(k)] finds. *)
Fixpoint dict_get (k : pyvalue) (d : pydict) : option oid :=
  match d with
  | [] => None
  | (k0, v0) :: rest => if py_eqb k0 k then Some v0 else dict_get k rest
  end.

Definition unhashable_message : string := "TypeError: unhashable type: 'list'".

(** [d[k] = v]: the key is hashed first, and a key whose hash cannot be
    taken raises [TypeError]. *)
Definition dict_setitem (k : pyvalue) (v : oid) (d : pydict) : result pydict :=
  if hash_ok k then Ok (dict_set k v d) else Raise unhashable_message.

(** [d.get(k)]: the key is hashed first here too. *)
Definition dict_get_method (k : pyvalue) (d : pydict) : result (option oid) :=
  if hash_ok k then Ok (dict_get k d) else Raise unhashable_message.

(** The loop of [_get_value_lookup]: [lookup[value.value] = value]. *)
Fixpoint value_lookup_loop (values : list oid) (lookup : pydict) : M heap pydict :=
  match values with
  | [] => ret lookup
  | value :: rest =>
      o <- deref value ;;
      match o with
      | EnumValueObj v =>
          lookup <- lift_result (dict_setitem (ev_value v) value lookup) ;;
          value_lookup_loop rest lookup
      | _ => raise "AttributeError: value"
      end
  end.

(** The state in which the lookups by value run: the heap, and the
    [_value_lookup] attribute of the enum, [None] until the lookup has been
    built. *)
Definition enum_state : Type := heap * option pydict.

(** Running a heap computation beside the attribute. *)
Definition with_heap {A} (m : M heap A) : M enum_state A :=
  fun s => let '(r, h) := m s.1 in (r, (h, s.2)).

Definition get_value_lookup_attr : M enum_state (option pydict) :=
  fun s => (Ok s.2, s).

Definition set_value_lookup_attr (lookup : pydict) : M enum_state unit :=
  fun s => (Ok tt, (s.1, Some lookup)).

(** [GraphQLEnumType._get_value_lookup]: the attribute is assigned after
    the loop, so a loop that raises leaves it [None]. *)
Definition _get_value_lookup (self : EnumTypeObj) : M enum_state pydict :=
  _value_lookup <- get_value_lookup_attr ;;
  match _value_lookup with
  | Some lookup => ret lookup
  | None =>
      lookup <- with_heap (value_lookup_loop (get_values self) []) ;;
      set_value_lookup_attr lookup ;;;
      ret lookup
  end.

(** [GraphQLEnumType.serialize]: the lookup is consulted for a value that
    is an instance of [Hashable] only; the result is the name of the entry
    found, or [None]. *)
Definition enum_serialize (self : EnumTypeObj) (value : pyvalue) : M enum_state pyvalue :=
  if is_hashable value then
    lookup <- _get_value_lookup self ;;
    enum_value <- lift_result (dict_get_method value lookup) ;;
    match enum_value with
    | Some enum_value =>
        o <- with_heap (deref enum_value) ;;
        match obj_name o with
        | Some name => ret (VStr name)
        | None => raise "AttributeError: name"
        end
    | None => ret VNone
    end
  else ret VNone.

(** [GraphQLEnumType.parse_value], the same code as [serialize]. *)
Definition enum_parse_value (self : EnumTypeObj) (value : pyvalue) : M enum_state pyvalue :=
  enum_serialize self value.

(** ** Cancelling a future *)


(** The internal value of the enum value object [l], [None] when [l] is
    not one. *)
Definition enum_value_at (h : heap) (l : oid) : pyvalue :=
  match objs h !! l with
  | Some (EnumValueObj v) => ev_value v
  | _ => VNone
  end.

(** The lookup that the loop of [_get_value_lookup] builds when it meets
    no key it cannot hash: the entries [ls] in order, each under its
    internal value as found in the heap [h]. *)
Definition value_lookup_of (h : heap) (ls : list oid) : pydict :=
  foldl (fun d l => dict_set (enum_value_at h l) l d) [] ls.

(** The enum of the class docstring with its internal values:
    [GraphQLEnumType('RGB', {'RED': GraphQLEnumValue(0),
    'GREEN': GraphQLEnumValue(1), 'BLUE': GraphQLEnumValue(2)})]. *)
Definition rgb_values_heap : heap :=
  snd ((GraphQLEnumValue_init (VInt 0) None None ;;;
        GraphQLEnumValue_init (VInt 1) None None ;;;
        GraphQLEnumValue_init (VInt 2) None None) empty_heap).

Definition rgb_items : list (string * oid) := [("RED", 0); ("GREEN", 1); ("BLUE", 2)].

(** [iface._impls] extended with [n] further references to [impl]. *)
Definition append_impls (impl : ObjectTypeObj) (n : nat) (iface : InterfaceTypeObj)
    : InterfaceTypeObj :=
  mkInterfaceType (i_name iface) (i_description iface) (i_type_resolver iface)
    (i_fields iface) (i_impls iface ++ replicate n impl) (i_field_map iface)
    (i_possible_type_names iface).

(** How many times [l] occurs in a list of references. *)
Definition occurrences (l : oid) (ls : list oid) : nat :=
  length (filter (fun x => x = l) ls).

(** A producer of the interface list, [lambda: [SomeInterfaceType]] with
    the interface being object 7. *)
Definition interfaces_producer : producer interfaces_value :=
  mkProducer 5 (ret (InterfacesList [IfaceRef 7])).

(** *** Vocabulary: what field-map resolution checks *)

(** The entry [arg_name: arg] of an [args] dict passes the checks of the
    inner loop: the key is a valid name and the object has a [type] that is
    an input type. *)
Definition valid_arg (h : heap) (arg_name : string) (arg : oid) : Prop :=
  NAME_PATTERN_match arg_name = true
  /\ exists o t, objs h !! arg = Some o /\ obj_type o = Some t
                 /\ is_input_type_of t = true.

(** The entry [field_name: field] of a [fields] dict passes the checks of
    the outer loop: the key is a valid name, the object is a field whose type
    is an output type, and its [args] is falsy or a dict whose entries all
    pass. *)
Definition valid_field (h : heap) (field_name : string) (field : oid) : Prop :=
  NAME_PATTERN_match field_name = true
  /\ exists f, objs h !! field = Some (FieldObj f)
               /\ is_output_type_of (field_type f) = true
               /\ (args_truthy (field_args f) = false
                   \/ exists items, field_args f = ArgsMapping items)
               /\ forall i ak al, arg_items f !! i = Some (ak, al) -> valid_arg h ak al.

(** A dict with one input field, [{'val': GraphQLInputObjectField(GraphQLString)}],
    the field being object 0, and an input object type over it. *)
Definition input_field_heap : heap :=
  snd (GraphQLInputObjectField_init (Some GraphQLString) (VStr "hello") None empty_heap).

Definition SomeInputObjectType : InputObjectTypeObj :=
  mkInputObjectType "SomeInputObject" None (FieldsValue (PyDict [("val", 0)])) None.

(** A loop with two pending futures, [1] and [2]. *)
Definition loop_with_two_futures : bridge :=
  mkBridge (<[2 := mkFuture None [] None]> {[ 1 := mkFuture None [] None ]}) ∅ [] 3.

(** Two entries given no internal value:
    [{'A': GraphQLEnumValue(), 'B': GraphQLEnumValue()}]. *)
Definition two_unvalued_heap : heap :=
  snd ((GraphQLEnumValue_init VNone None None ;;;
        GraphQLEnumValue_init VNone None None) empty_heap).

Definition two_unvalued_items : list (string * oid) := [("A", 0); ("B", 1)].

(** An entry whose internal value is a list:
    [{'A': GraphQLEnumValue([1])}]. *)
Definition list_valued_heap : heap :=
  snd (GraphQLEnumValue_init (VList [VInt 1]) None None empty_heap).

(** * Theorems *)

(** ** Structural equality and classification *)

Lemma get_named_type_is_named t : is_named (get_named_type t) = true.
Proof. induction t; simpl; auto. Qed.

Lemma get_named_type_named t : is_named t = true -> get_named_type t = t.
Proof. destruct t; simpl; auto; discriminate. Qed.

Lemma get_named_type_wrap ms n : get_named_type (wrap ms n) = get_named_type n.
Proof. induction ms as [|[] ms IH]; simpl; auto. Qed.

Lemma unwraps_to_get_named_type t n : unwraps_to t n <-> n = get_named_type t.
Proof.
  split.
  - induction 1 as [n Hn| |]; simpl; auto.
    symmetry. by apply get_named_type_named.
  - intros ->. induction t; simpl; try (by constructor).
Qed.

Lemma is_same_type_named a b :
  is_named a = true ->
  is_same_type a b = true <-> class_of a = class_of b /\ type_name a = type_name b.
Proof.
  intros Ha.
  assert (is_same_type a b = base_is_same_type a b) as ->
    by (destruct a; try reflexivity; discriminate).
  unfold base_is_same_type.
  rewrite andb_true_iff, !bool_decide_eq_true. tauto.
Qed.

Lemma is_same_type_list a b :
  is_same_type (GraphQLList a) b = true
  <-> exists b', b = GraphQLList b' /\ is_same_type a b' = true.
Proof.
  split.
  - destruct b; simpl; try discriminate. eauto.
  - intros (b' & -> & H). exact H.
Qed.

Lemma is_same_type_non_null a b :
  is_same_type (GraphQLNonNull a) b = true
  <-> exists b', b = GraphQLNonNull b' /\ is_same_type a b' = true.
Proof.
  split.
  - destruct b; simpl; try discriminate. eauto.
  - intros (b' & -> & H). exact H.
Qed.

Lemma is_same_type_wrapping t :
  is_same_type t (GraphQLNonNull t) = false
  /\ is_same_type (GraphQLNonNull t) t = false
  /\ is_same_type t (GraphQLList t) = false
  /\ is_same_type (GraphQLList t) t = false.
Proof.
  induction t as [| | | | | |t IH|t IH]; simpl; try (repeat split; reflexivity);
    destruct IH as (H1 & H2 & H3 & H4); auto.
Qed.

(** C1: [is_same_type] is structural equality.  A named [a] is the same
    type as [b] exactly when [b] has the same class and the same name,
    whatever the identities of the two objects; a [List] (resp. [NonNull])
    is the same type as [b] exactly when [b] is a [List] (resp. [NonNull])
    whose wrapped type is recursively the same; no type is the same as a
    [NonNull] or [List] wrapping of itself, in either direction, so a named
    type differs from its wrappings and [List(t)] from [NonNull(List(t))]. *)
Theorem is_same_type_structural_equality :
  (forall a b, is_named a = true -> class_of a = class_of b ->
               type_name a = type_name b -> is_same_type a b = true)
  /\ (forall a b, is_named a = true -> is_same_type a b = true ->
                  class_of a = class_of b /\ type_name a = type_name b)
  /\ (forall a b, is_same_type (GraphQLList a) b = true
                  <-> exists b', b = GraphQLList b' /\ is_same_type a b' = true)
  /\ (forall a b, is_same_type (GraphQLNonNull a) b = true
                  <-> exists b', b = GraphQLNonNull b' /\ is_same_type a b' = true)
  /\ (forall t, is_same_type t (GraphQLNonNull t) = false
                /\ is_same_type (GraphQLNonNull t) t = false
                /\ is_same_type t (GraphQLList t) = false
                /\ is_same_type (GraphQLList t) t = false)
  /\ (forall t, is_same_type (GraphQLList t) (GraphQLNonNull (GraphQLList t)) = false
                /\ is_same_type (GraphQLNonNull (GraphQLList t)) (GraphQLList t) = false).
Proof.
  split; [|split; [|split; [|split; [|split]]]].
  - intros a b Ha Hc Hn. apply is_same_type_named; auto.
  - intros a b Ha H. by apply is_same_type_named.
  - apply is_same_type_list.
  - apply is_same_type_non_null.
  - apply is_same_type_wrapping.
  - intros t. destruct (is_same_type_wrapping (GraphQLList t)) as (H1 & H2 & _).
    auto.
Qed.

Lemma is_same_type_structural_equality_witness :
  is_same_type (GraphQLScalarType 1 "String") (GraphQLScalarType 2 "String") = true
  /\ is_same_type (GraphQLScalarType 1 "String")
       (GraphQLNonNull (GraphQLScalarType 1 "String")) = false.
Proof.
  destruct is_same_type_structural_equality as (Hnamed & _ & _ & _ & Hwrap & _).
  split.
  - apply Hnamed; reflexivity.
  - apply Hwrap.
Defined.

Lemma isinstance_elem t cs : isinstance t cs = true <-> class_of t ∈ cs.
Proof. unfold isinstance. apply bool_decide_eq_true. Qed.

Lemma is_output_type_unwraps t :
  is_output_type t = true
  <-> exists n, unwraps_to t n
                /\ class_of n ∈ [C_Scalar; C_Object; C_Interface; C_Union; C_Enum].
Proof.
  unfold is_output_type. rewrite isinstance_elem. split.
  - intros H. exists (get_named_type t). split; auto.
    by apply unwraps_to_get_named_type.
  - intros (n & Hn & H). apply unwraps_to_get_named_type in Hn. by subst.
Qed.

Lemma is_input_type_unwraps t :
  is_input_type t = true
  <-> exists n, unwraps_to t n /\ class_of n ∈ [C_Scalar; C_Enum; C_InputObject].
Proof.
  unfold is_input_type. rewrite isinstance_elem. split.
  - intros H. exists (get_named_type t). split; auto.
    by apply unwraps_to_get_named_type.
  - intros (n & Hn & H). apply unwraps_to_get_named_type in Hn. by subst.
Qed.

(** C2: [is_output_type t] holds exactly when [t] stripped of every
    List/NonNull modifier is a Scalar, Object, Interface, Union or Enum, and
    [is_input_type t] exactly when the stripped form is a Scalar, Enum or
    InputObject.  Hence under any stack of modifiers an Object, Interface or
    Union is not an input type, an InputObject is not an output type, and a
    Scalar or Enum is both. *)
Theorem input_output_classification :
  (forall t, is_output_type t = true
             <-> exists n, unwraps_to t n
                 /\ class_of n ∈ [C_Scalar; C_Object; C_Interface; C_Union; C_Enum])
  /\ (forall t, is_input_type t = true
                <-> exists n, unwraps_to t n
                    /\ class_of n ∈ [C_Scalar; C_Enum; C_InputObject])
  /\ (forall ms n, class_of n ∈ [C_Object; C_Interface; C_Union] ->
                   is_input_type (wrap ms n) = false)
  /\ (forall ms n, class_of n = C_InputObject -> is_output_type (wrap ms n) = false)
  /\ (forall ms n, class_of n ∈ [C_Scalar; C_Enum] ->
                   is_output_type (wrap ms n) = true /\ is_input_type (wrap ms n) = true).
Proof.
  split; [apply is_output_type_unwraps|].
  split; [apply is_input_type_unwraps|].
  unfold is_input_type, is_output_type.
  split; [|split]; intros ms n Hn; rewrite !get_named_type_wrap;
    try apply isinstance_elem in Hn;
    destruct n; try discriminate Hn; try reflexivity; split; reflexivity.
Qed.

Lemma input_output_classification_witness :
  is_input_type (wrap [NonNullOf; ListOf] (GraphQLObjectType 3 "Person")) = false
  /\ is_output_type (wrap [ListOf] (GraphQLInputObjectType 4 "GeoPoint")) = false
  /\ is_output_type (wrap [NonNullOf] (GraphQLEnumType 5 "RGB")) = true.
Proof.
  destruct input_output_classification as (_ & _ & Hin & Hout & Hboth).
  split; [|split].
  - apply Hin. apply isinstance_elem. reflexivity.
  - apply Hout. reflexivity.
  - apply Hboth. apply isinstance_elem. reflexivity.
Defined.

(** ** The monad *)

Lemma bind_Ok_inv {S A B} (m : M S A) (k : A -> M S B) s b s' :
  bind m k s = (Ok b, s') ->
  exists a s1, m s = (Ok a, s1) /\ k a s1 = (Ok b, s').
Proof.
  unfold bind. destruct (m s) as [[a|msg] s1]; [eauto | discriminate].
Qed.

Lemma bind_Ok {S A B} (m : M S A) (k : A -> M S B) s a s1 :
  m s = (Ok a, s1) -> bind m k s = k a s1.
Proof. unfold bind. by intros ->. Qed.

Lemma bind_Raise {S A B} (m : M S A) (k : A -> M S B) s msg s1 :
  m s = (Raise msg, s1) -> bind m k s = (Raise msg, s1).
Proof. unfold bind. by intros ->. Qed.

Lemma lift_result_Ok_inv {S A} (r : result A) (s : S) a s' :
  lift_result r s = (Ok a, s') -> r = Ok a /\ s' = s.
Proof. unfold lift_result. by intros [= -> ->]. Qed.

Lemma deref_Ok_inv l h o h' :
  deref l h = (Ok o, h') -> objs h !! l = Some o /\ h' = h.
Proof.
  unfold deref. destruct (objs h !! l); [|discriminate]. by intros [= -> ->].
Qed.

(** ** Enum values *)

Lemma last_key_None l items : last_key l items = None <-> l ∉ items.*2.
Proof.
  induction items as [|[k l'] rest IH]; simpl.
  - split; [intros _; apply not_elem_of_nil | done].
  - rewrite not_elem_of_cons. destruct (last_key l rest) eqn:E.
    + split; [done|]. intros [_ H]. apply IH in H. done.
    + destruct (decide (l' = l)) as [->|Hne].
      * split; [done | intros [H _]; done].
      * split; [intros _|done]. split; [congruence | by apply IH].
Qed.

Lemma set_ev_name_twice k k' v : set_ev_name k' (set_ev_name k v) = set_ev_name k' v.
Proof. reflexivity. Qed.

Lemma define_enum_values_loop_spec type items :
  forall values h vs h',
    define_enum_values_loop type items values h = (Ok vs, h') ->
    vs = values ++ items.*2
    /\ next_id h' = next_id h
    /\ (forall l, l ∉ items.*2 -> objs h' !! l = objs h !! l)
    /\ (forall l, l ∈ items.*2 ->
          exists v k, objs h !! l = Some (EnumValueObj v)
                      /\ last_key l items = Some k
                      /\ objs h' !! l = Some (EnumValueObj (set_ev_name k v))).
Proof.
  induction items as [|[k l0] rest IH]; intros values h vs h' Hrun; simpl in Hrun.
  - injection Hrun as <- <-. rewrite app_nil_r.
    repeat split; auto. intros l Hl. by apply elem_of_nil in Hl.
  - apply bind_Ok_inv in Hrun as ([] & h0 & Hname & Hrun).
    apply lift_result_Ok_inv in Hname as [_ ->].
    apply bind_Ok_inv in Hrun as (o & h0 & Hderef & Hrun).
    apply deref_Ok_inv in Hderef as [Hl0 ->].
    destruct o as [v0| | | |]; try discriminate.
    apply bind_Ok_inv in Hrun as ([] & h1 & Hstore & Hrun).
    injection Hstore as <-.
    apply IH in Hrun as (-> & Hnext & Hframe & Hnames). simpl in *.
    split; [by rewrite <- app_assoc|]. split; [done|]. split.
    + intros l [Hne Hl]%not_elem_of_cons.
      rewrite Hframe by done. by rewrite lookup_insert_ne.
    + intros l Hl. destruct (decide (l ∈ rest.*2)) as [Hin|Hnotin].
      * destruct (Hnames l Hin) as (v1 & k1 & Hv1 & Hk1 & Hv').
        rewrite Hk1. destruct (decide (l0 = l)) as [->|Hne].
        -- rewrite lookup_insert_eq in Hv1. injection Hv1 as <-.
           exists v0, k1. by rewrite Hv'.
        -- rewrite lookup_insert_ne in Hv1 by done. eauto.
      * apply elem_of_cons in Hl as [->|]; [|done].
        pose proof Hnotin as ->%last_key_None.
        rewrite decide_True by done. exists v0, k.
        rewrite Hframe by done. by rewrite lookup_insert_eq.
Qed.

Lemma define_enum_values_spec type items h vs h' :
  define_enum_values type (PyDict items) h = (Ok vs, h') ->
  vs = items.*2
  /\ next_id h' = next_id h
  /\ (forall l, l ∉ items.*2 -> objs h' !! l = objs h !! l)
  /\ (forall l, l ∈ items.*2 ->
        exists v k, objs h !! l = Some (EnumValueObj v)
                    /\ last_key l items = Some k
                    /\ objs h' !! l = Some (EnumValueObj (set_ev_name k v))).
Proof.
  unfold define_enum_values. intros Hrun.
  apply bind_Ok_inv in Hrun as ([] & h0 & Hlen & Hrun).
  unfold py_assert in Hlen. destruct (0 <? length items); [|discriminate].
  injection Hlen as <-.
  by apply define_enum_values_loop_spec in Hrun.
Qed.

Lemma last_key_Some l items k :
  last_key l items = Some k ->
  exists n, items !! n = Some (k, l)
            /\ forall m k', n < m -> items !! m ≠ Some (k', l).
Proof.
  revert k. induction items as [|[k0 l0] rest IH]; intros k; simpl; [done|].
  destruct (last_key l rest) as [k'|] eqn:E.
  - intros [= <-]. destruct (IH k' eq_refl) as (n & Hn & Hlast).
    exists (S n). split; [done|].
    intros [|m] k'' Hlt; [lia|]. simpl. apply Hlast. lia.
  - destruct (decide (l0 = l)) as [->|]; [|done]. intros [= <-].
    exists 0. split; [done|].
    intros [|m] k'' Hlt; [lia|]. simpl. intros Hm.
    apply last_key_None in E. apply E.
    apply list_elem_of_fmap. exists (k'', l). split; [done|].
    by eapply list_elem_of_lookup_2.
Qed.

(** C3 (the code departs from it): the enum of the class docstring, built
    with a value entry that was given no internal value.  After
    construction the entry is named [RED] but its internal value is still
    [None], not the name, and [parse_literal] of the literal [RED] returns
    [None]. *)
Theorem enum_value_default_is_not_its_name :
  exists self h self',
    rgb_enum empty_heap = (Ok self, h)
    /\ get_values self = [0]
    /\ objs h !! 0 = Some (EnumValueObj (mkEnumValue (Some "RED") VNone None None))
    /\ parse_literal self (AstEnumValue "RED") h = (Ok (VNone, self'), h).
Proof.
  do 3 eexists. split; [vm_compute; reflexivity|].
  split; [reflexivity|]. split; [reflexivity|].
  vm_compute. reflexivity.
Qed.

(** [define_enum_values] never assigns the [value] attribute. *)
Lemma define_enum_values_keeps_value type items h vs h' l v' :
  define_enum_values type (PyDict items) h = (Ok vs, h') ->
  objs h' !! l = Some (EnumValueObj v') ->
  exists v, objs h !! l = Some (EnumValueObj v) /\ ev_value v' = ev_value v.
Proof.
  intros (_ & _ & Hframe & Hnames)%define_enum_values_spec Hl.
  destruct (decide (l ∈ items.*2)) as [Hin|Hnotin].
  - destruct (Hnames l Hin) as (v & k & Hv & _ & Hv').
    rewrite Hv' in Hl. injection Hl as <-. eauto.
  - rewrite Hframe in Hl by done. eauto.
Qed.

Lemma GraphQLEnumType_init_Ok_inv name items description h self h' :
  GraphQLEnumType_init name (PyDict items) description h = (Ok self, h') ->
  define_enum_values name (PyDict items) h = (Ok (get_values self), h').
Proof.
  unfold GraphQLEnumType_init. intros Hrun.
  apply bind_Ok_inv in Hrun as ([] & h0 & Hname & Hrun).
  apply lift_result_Ok_inv in Hname as [_ ->].
  apply bind_Ok_inv in Hrun as (vs & h1 & Hdef & Hret).
  by injection Hret as <- <-.
Qed.

(** C10: enum values are named in place, not copied.  When construction of
    an enum type succeeds and one [GraphQLEnumValue] object [l] sits under
    two different keys of the value map, no object is created, both
    resulting entries of the enum are [l] itself, and the [name] of [l] is
    the key of its last occurrence in the map (the last one assigned), its
    other attributes being what the caller gave. *)
Theorem enum_values_named_in_place name items description h self h' i j k1 k2 l :
  GraphQLEnumType_init name (PyDict items) description h = (Ok self, h') ->
  items !! i = Some (k1, l) ->
  items !! j = Some (k2, l) ->
  k1 ≠ k2 ->
  get_values self !! i = Some l
  /\ get_values self !! j = Some l
  /\ next_id h' = next_id h
  /\ exists v n k,
       objs h !! l = Some (EnumValueObj v)
       /\ items !! n = Some (k, l)
       /\ (forall m k', n < m -> items !! m ≠ Some (k', l))
       /\ objs h' !! l
          = Some (EnumValueObj (mkEnumValue (Some k) (ev_value v)
                                  (ev_deprecation_reason v) (ev_description v))).
Proof.
  intros Hinit%GraphQLEnumType_init_Ok_inv Hi Hj _.
  apply define_enum_values_spec in Hinit as (-> & Hnext & _ & Hnames).
  rewrite !list_lookup_fmap, Hi, Hj. do 3 (split; [done|]).
  destruct (Hnames l) as (v & k & Hv & Hk & Hv').
  { apply list_elem_of_fmap. exists (k1, l). split; [done|].
    by eapply list_elem_of_lookup_2. }
  apply last_key_Some in Hk as (n & Hn & Hlast).
  exists v, n, k. by rewrite Hv'.
Qed.

Lemma enum_values_named_in_place_witness :
  exists h self h',
    GraphQLEnumValue_init (VInt 1) None None empty_heap = (Ok 0, h)
    /\ GraphQLEnumType_init "E" (PyDict [("A", 0); ("B", 0)]) None h = (Ok self, h')
    /\ get_values self !! 0 = Some 0 /\ get_values self !! 1 = Some 0
    /\ next_id h' = next_id h
    /\ objs h' !! 0 = Some (EnumValueObj (mkEnumValue (Some "B") (VInt 1) None None)).
Proof.
  assert (exists self h',
            GraphQLEnumType_init "E" (PyDict [("A", 0); ("B", 0)]) None
              (snd (GraphQLEnumValue_init (VInt 1) None None empty_heap))
            = (Ok self, h')) as (self & h' & Hrun)
    by (do 2 eexists; vm_compute; reflexivity).
  exists (snd (GraphQLEnumValue_init (VInt 1) None None empty_heap)), self, h'.
  split; [reflexivity|]. split; [exact Hrun|].
  destruct (enum_values_named_in_place "E" [("A", 0); ("B", 0)] None _ _ _ 0 1 "A" "B" 0
              Hrun eq_refl eq_refl) as (H0 & H1 & Hnext & v & n & k & Hv & Hn & Hlast & Hl).
  - discriminate.
  - do 3 (split; [done|]). refine (eq_trans Hl _).
    vm_compute in Hv. injection Hv as <-.
    destruct n as [|[|n]]; simpl in Hn; [|by injection Hn as <-|done].
    by destruct (Hlast 1 "B" ltac:(lia)).
Defined.

(** One shared enum value under the keys [A] then [B]: a single object,
    listed twice, named [B]. *)
Example shared_enum_value_bears_last_key :
  exists self h,
    shared_enum empty_heap = (Ok self, h)
    /\ get_values self = [0; 0]
    /\ next_id h = 1
    /\ objs h !! 0 = Some (EnumValueObj (mkEnumValue (Some "B") (VInt 1) None None)).
Proof. do 2 eexists. split; [vm_compute; reflexivity|]. repeat split. Qed.

(** ** Scalar construction *)

(** C6 as stated fails: a scalar given a [serialize] function and exactly
    one of the pair, a callable object that tests false passed as
    [parse_value] with [parse_literal] left [None], is accepted.  The
    constructor asks for both functions only when [parse_value or
    parse_literal] is truthy. *)
Lemma falsy_parse_value_alone_is_accepted :
  callable (PyCallable id : capability (pyvalue -> pyvalue)) = true
  /\ callable (PyFalsyCallable id : capability (pyvalue -> pyvalue)) = true
  /\ callable (PyNone : capability (ast_node -> pyvalue)) = false
  /\ GraphQLScalarType_init "Odd" None (PyCallable id) (PyFalsyCallable id) PyNone
     = Ok (mkScalarType "Odd" None (PyCallable id) (PyFalsyCallable id) PyNone).
Proof. repeat split. Qed.

(** C6, amended: constructing a scalar raises when [serialize] is not
    callable; it raises when [serialize] is callable, exactly one of
    [parse_value], [parse_literal] is callable and at least one of the two
    arguments is truthy (as every function is); with a valid name and a
    callable [serialize] it succeeds when both of the pair are callable, when
    neither is supplied, and whenever both arguments of the pair are
    falsy. *)
Theorem scalar_construction name description serialize parse_value parse_literal :
  (callable serialize = false ->
   succeeded (GraphQLScalarType_init name description serialize parse_value
                parse_literal) = false)
  /\ (callable serialize = true ->
      callable parse_value ≠ callable parse_literal ->
      truthy parse_value || truthy parse_literal = true ->
      succeeded (GraphQLScalarType_init name description serialize parse_value
                   parse_literal) = false)
  /\ (assert_named name = Ok tt ->
      callable serialize = true ->
      (callable parse_value = true /\ callable parse_literal = true)
      \/ (parse_value = PyNone /\ parse_literal = PyNone) ->
      GraphQLScalarType_init name description serialize parse_value parse_literal
      = Ok (mkScalarType name description serialize parse_value parse_literal))
  /\ (assert_named name = Ok tt ->
      callable serialize = true ->
      truthy parse_value = false ->
      truthy parse_literal = false ->
      GraphQLScalarType_init name description serialize parse_value parse_literal
      = Ok (mkScalarType name description serialize parse_value parse_literal)).
Proof.
  unfold GraphQLScalarType_init. split; [|split; [|split]].
  - intros Hs. destruct (assert_named name); [|done]. by rewrite Hs.
  - intros Hs Hne Ht. destruct (assert_named name); [|done]. rewrite Hs, Ht.
    cbn [negb andb]. by destruct (callable parse_value), (callable parse_literal).
  - intros -> -> [[Hv Hl]|[-> ->]]; simpl; [|done].
    rewrite Hv, Hl. simpl. by rewrite andb_false_r.
  - by intros -> -> -> ->.
Qed.

Lemma scalar_construction_witness :
  succeeded (GraphQLScalarType_init "Odd" None PyNone PyNone PyNone) = false
  /\ succeeded (GraphQLScalarType_init "Odd" None (PyCallable id) (PyCallable id)
                  PyNone) = false
  /\ succeeded (GraphQLScalarType_init "Odd" None (PyCallable id) (PyFalsyCallable id)
                  (PyOther true)) = false
  /\ succeeded (GraphQLScalarType_init "Odd" None (PyCallable id) PyNone PyNone) = true
  /\ succeeded (GraphQLScalarType_init "Odd" None (PyCallable id) (PyCallable id)
                  (PyCallable (fun _ => VNone))) = true
  /\ succeeded (GraphQLScalarType_init "Odd" None (PyCallable id) PyNone
                  (PyFalsyCallable (fun _ => VNone))) = true.
Proof.
  split; [|split; [|split; [|split; [|split]]]].
  - apply (proj1 (scalar_construction "Odd" None PyNone PyNone PyNone)). reflexivity.
  - apply (proj1 (proj2 (scalar_construction "Odd" None (PyCallable id) (PyCallable id)
                           PyNone))).
    + reflexivity.
    + simpl. discriminate.
    + reflexivity.
  - apply (proj1 (proj2 (scalar_construction "Odd" None (PyCallable id)
                           (PyFalsyCallable id) (PyOther true)))).
    + reflexivity.
    + simpl. discriminate.
    + reflexivity.
  - rewrite (proj1 (proj2 (proj2 (scalar_construction "Odd" None (PyCallable id) PyNone
                                    PyNone)))
               eq_refl eq_refl (or_intror (conj eq_refl eq_refl))).
    reflexivity.
  - rewrite (proj1 (proj2 (proj2 (scalar_construction "Odd" None (PyCallable id)
                                    (PyCallable id) (PyCallable (fun _ => VNone)))))
               eq_refl eq_refl (or_introl (conj eq_refl eq_refl))).
    reflexivity.
  - rewrite (proj2 (proj2 (proj2 (scalar_construction "Odd" None (PyCallable id) PyNone
                                    (PyFalsyCallable (fun _ => VNone)))))
               eq_refl eq_refl eq_refl eq_refl).
    reflexivity.
Defined.

(** ** Resolving abstract types *)

Lemma get_type_of_loop_Some value possible_types t :
  get_type_of_loop value possible_types = Some t
  <-> exists i, possible_types !! i = Some t
                /\ accepts t value = true
                /\ forall j t', j < i -> possible_types !! j = Some t' ->
                                accepts t' value = false.
Proof.
  induction possible_types as [|t0 rest IH]; simpl.
  - split; [done|]. by intros (i & Hi & _).
  - destruct (accepts t0 value) eqn:E.
    + split.
      * intros [= <-]. exists 0. split; [done|]. split; [done|]. intros; lia.
      * intros ([|i] & Hi & Hacc & Hfirst).
        -- simpl in Hi. by injection Hi as <-.
        -- specialize (Hfirst 0 t0 ltac:(lia) eq_refl). congruence.
    + rewrite IH. split.
      * intros (i & Hi & Hacc & Hfirst). exists (S i). split; [done|].
        split; [done|]. intros [|j] t' Hlt Hj.
        -- simpl in Hj. by injection Hj as <-.
        -- eapply (Hfirst j); [lia|done].
      * intros ([|i] & Hi & Hacc & Hfirst).
        -- simpl in Hi. injection Hi as <-. congruence.
        -- exists i. split; [done|]. split; [done|].
           intros j t' Hlt Hj. apply (Hfirst (S j)); [lia|done].
Qed.

Lemma get_type_of_loop_None value possible_types :
  get_type_of_loop value possible_types = None
  <-> forall t, t ∈ possible_types -> accepts t value = false.
Proof.
  induction possible_types as [|t0 rest IH]; simpl.
  - split; [|done]. intros _ t Ht. by apply elem_of_nil in Ht.
  - destruct (accepts t0 value) eqn:E.
    + split; [done|]. intros H. specialize (H t0 ltac:(left)). congruence.
    + rewrite IH. split.
      * intros H t [->|Ht]%elem_of_cons; auto.
      * intros H t Ht. apply H. by right.
Qed.





(** ** Membership tests required at construction *)

Lemma union_types_loop_ok name resolve_type types :
  callable resolve_type = true
  \/ (forall o, o ∈ types -> callable (o_is_type_of o) = true) ->
  union_types_loop name resolve_type (MemberObject <$> types) = Ok types.
Proof.
  intros H. induction types as [|o rest IH]; [done|].
  rewrite fmap_cons. cbn [union_types_loop]. rewrite IH.
  - destruct H as [->|H]; [done|]. rewrite (H o) by left. by rewrite andb_false_r.
  - destruct H as [H|H]; [by left|]. right. intros o' Ho'. apply H. by right.
Qed.

Lemma union_types_loop_fail name resolve_type types :
  callable resolve_type = false ->
  (exists o, o ∈ types /\ callable (o_is_type_of o) = false) ->
  exists i o,
    types !! i = Some o
    /\ callable (o_is_type_of o) = false
    /\ (forall j o', j < i -> types !! j = Some o' -> callable (o_is_type_of o') = true)
    /\ union_types_loop name resolve_type (MemberObject <$> types)
       = Raise (union_unresolvable_message name (o_name o)).
Proof.
  intros Hr. induction types as [|o0 rest IH]; intros (o & Ho & Hlack).
  - by apply elem_of_nil in Ho.
  - rewrite fmap_cons. cbn [union_types_loop]. rewrite Hr.
    destruct (callable (o_is_type_of o0)) eqn:E0; cbn [negb andb].
    + apply elem_of_cons in Ho as [->|Ho]; [congruence|].
      destruct IH as (i & o1 & Hi & Hl1 & Hfirst & ->); [eauto|].
      exists (S i), o1. split; [done|]. split; [done|]. split; [|done].
      intros [|j] o' Hlt Hj.
      * simpl in Hj. by injection Hj as <-.
      * apply (Hfirst j); [lia|done].
    + exists 0, o0. split; [done|]. split; [done|]. split; [|done]. intros; lia.
Qed.

Lemma get_interface_Some l w iface :
  w_interfaces w !! l = Some iface -> get_interface l w = (Ok iface, w).
Proof. unfold get_interface. by intros ->. Qed.

Lemma define_interfaces_loop_ok type ls w :
  (forall l, l ∈ ls ->
     exists iface, w_interfaces w !! l = Some iface
                   /\ (callable (i_type_resolver iface) = true
                       \/ callable (o_is_type_of type) = true)) ->
  define_interfaces_loop type (IfaceRef <$> ls) w = (Ok tt, w).
Proof.
  induction ls as [|l rest IH]; intros H; [done|].
  rewrite fmap_cons. cbn [define_interfaces_loop].
  destruct (H l) as (iface & Hl & Hcap); [by left|].
  rewrite (bind_Ok _ _ _ _ _ (get_interface_Some _ _ _ Hl)).
  assert ((if negb (callable (i_type_resolver iface))
           then py_assert (callable (o_is_type_of type))
                  (interface_unresolvable_message (i_name iface) (o_name type))
           else ret tt) w = (Ok tt, w)) as Hcheck.
  { destruct Hcap as [->| ->]; simpl; [done|].
    by destruct (negb (callable (i_type_resolver iface))). }
  rewrite (bind_Ok _ _ _ _ _ Hcheck). apply IH.
  intros l' Hl'. apply H. by right.
Qed.

Lemma define_interfaces_loop_fail type ls w :
  callable (o_is_type_of type) = false ->
  (forall l, l ∈ ls -> is_Some (w_interfaces w !! l)) ->
  (exists l iface, l ∈ ls /\ w_interfaces w !! l = Some iface
                   /\ callable (i_type_resolver iface) = false) ->
  exists i l iface,
    ls !! i = Some l /\ w_interfaces w !! l = Some iface
    /\ callable (i_type_resolver iface) = false
    /\ (forall j l' iface', j < i -> ls !! j = Some l' ->
          w_interfaces w !! l' = Some iface' ->
          callable (i_type_resolver iface') = true)
    /\ define_interfaces_loop type (IfaceRef <$> ls) w
       = (Raise (interface_unresolvable_message (i_name iface) (o_name type)), w).
Proof.
  intros Htest. induction ls as [|l0 rest IH]; intros Hlive (l & iface & Hl & Hw & Hno).
  - by apply elem_of_nil in Hl.
  - rewrite fmap_cons. cbn [define_interfaces_loop].
    destruct (Hlive l0) as [iface0 H0]; [by left|].
    rewrite (bind_Ok _ _ _ _ _ (get_interface_Some _ _ _ H0)).
    destruct (callable (i_type_resolver iface0)) eqn:E0; cbn [negb].
    + rewrite (bind_Ok _ _ w tt w) by done.
      apply elem_of_cons in Hl as [->|Hl]; [congruence|].
      destruct IH as (i & l1 & iface1 & Hl1 & Hw1 & Hno1 & Hfirst & ->).
      * intros l' Hl'. apply Hlive. by right.
      * eauto.
      * exists (S i), l1, iface1. do 3 (split; [done|]). split; [|done].
        intros [|j] l' iface' Hlt Hj Hw'.
        -- simpl in Hj. injection Hj as <-. congruence.
        -- apply (Hfirst j l'); [lia|done|done].
    + exists 0, l0, iface0. do 3 (split; [done|]). split; [intros; lia|].
      rewrite Htest. reflexivity.
Qed.

(** C5 as stated fails: an abstract type that supplies a resolver, or whose
    every member supplies a membership test, can still fail construction.
    A union with a resolver and an empty member list raises; so does a union
    with a resolver, a member with a test and an invalid name; and so does a
    union whose members all have a test when its [resolve_type] argument is
    a truthy object that is not callable. *)
Lemma union_with_resolver_can_fail :
  callable (PyCallable (fun _ : pyvalue => @None ObjectTypeObj)) = true
  /\ GraphQLUnionType_init "SomeUnion" [] (PyCallable (fun _ => None)) None
     = Raise "Must provide types for Union SomeUnion."
  /\ callable (o_is_type_of DogType) = true
  /\ succeeded (GraphQLUnionType_init "bad-name" [MemberObject DogType]
                  (PyCallable (fun _ => None)) None) = false
  /\ GraphQLUnionType_init "SomeUnion" [MemberObject DogType] (PyOther true) None
     = Raise (must_be_function_message "SomeUnion" "resolve_type").
Proof. repeat split. Qed.

(** C5, amended: for a union with a valid name whose members are all
    object types, and for an interface list whose entries are all interface
    objects, given directly or returned by a producer.
    - A union whose [resolve_type] argument is falsy and not callable, with
      a member whose [is_type_of] is not callable, raises the diagnostic that
      names the first such member.
    - A union with a non-empty member list is constructed when its
      [resolve_type] is callable, and when it is falsy and the [is_type_of]
      of every member is callable.
    - Resolution of the interface list of an object whose [is_type_of] is
      not callable, with an interface whose resolver is not callable, raises
      the diagnostic that names the first such interface and the object.
    - Resolution of the interface list succeeds, and returns the list, when
      for every interface its resolver or the [is_type_of] of the object is
      callable. *)
Theorem member_tests_required_at_construction :
  (forall name types resolve_type description,
     assert_named name = Ok tt ->
     truthy resolve_type = false ->
     callable resolve_type = false ->
     (exists o, o ∈ types /\ callable (o_is_type_of o) = false) ->
     exists i o,
       types !! i = Some o
       /\ callable (o_is_type_of o) = false
       /\ (forall j o', j < i -> types !! j = Some o' ->
                        callable (o_is_type_of o') = true)
       /\ GraphQLUnionType_init name (MemberObject <$> types) resolve_type description
          = Raise (union_unresolvable_message name (o_name o)))
  /\ (forall name types resolve_type description,
        assert_named name = Ok tt ->
        types ≠ [] ->
        callable resolve_type = true
        \/ (truthy resolve_type = false
            /\ forall o, o ∈ types -> callable (o_is_type_of o) = true) ->
        GraphQLUnionType_init name (MemberObject <$> types) resolve_type description
        = Ok (mkUnionType name description resolve_type types None))
  /\ (forall type interfaces ls w w0,
        force_interfaces interfaces w = (Ok (InterfacesList (IfaceRef <$> ls)), w0) ->
        callable (o_is_type_of type) = false ->
        (forall l, l ∈ ls -> is_Some (w_interfaces w0 !! l)) ->
        (exists l iface, l ∈ ls /\ w_interfaces w0 !! l = Some iface
                         /\ callable (i_type_resolver iface) = false) ->
        exists i l iface,
          ls !! i = Some l /\ w_interfaces w0 !! l = Some iface
          /\ callable (i_type_resolver iface) = false
          /\ (forall j l' iface', j < i -> ls !! j = Some l' ->
                w_interfaces w0 !! l' = Some iface' ->
                callable (i_type_resolver iface') = true)
          /\ define_interfaces type interfaces w
             = (Raise (interface_unresolvable_message (i_name iface) (o_name type)), w0))
  /\ (forall type interfaces ls w w0,
        force_interfaces interfaces w = (Ok (InterfacesList (IfaceRef <$> ls)), w0) ->
        (forall l, l ∈ ls ->
           exists iface, w_interfaces w0 !! l = Some iface
                         /\ (callable (i_type_resolver iface) = true
                             \/ callable (o_is_type_of type) = true)) ->
        define_interfaces type interfaces w = (Ok (IfaceRef <$> ls), w0)).
Proof.
  split; [|split; [|split]].
  - intros name types r d Hname Hr Hc Hlack.
    destruct (union_types_loop_fail name r types Hc Hlack)
      as (i & o & Hi & Hl & Hfirst & Hloop).
    exists i, o. do 3 (split; [done|]).
    unfold GraphQLUnionType_init. rewrite Hname, Hr. cbn [andb].
    destruct types as [|o0 rest]; [done|]. rewrite fmap_cons in *. by rewrite Hloop.
  - intros name types r d Hname Hne Hcap.
    unfold GraphQLUnionType_init. rewrite Hname.
    assert (truthy r && negb (callable r) = false) as ->.
    { destruct Hcap as [->|[-> _]]; [by rewrite andb_false_r|done]. }
    rewrite union_types_loop_ok by (destruct Hcap as [?|[_ ?]]; auto).
    by destruct types.
  - intros type interfaces ls w w0 Hforce Htest Hlive Hex.
    destruct (define_interfaces_loop_fail type ls w0 Htest Hlive Hex)
      as (i & l & iface & Hl & Hw & Hno & Hfirst & Hloop).
    exists i, l, iface. do 4 (split; [done|]).
    unfold define_interfaces. rewrite (bind_Ok _ _ _ _ _ Hforce).
    cbv beta iota. by rewrite (bind_Raise _ _ _ _ _ Hloop).
  - intros type interfaces ls w w0 Hforce H. unfold define_interfaces.
    rewrite (bind_Ok _ _ _ _ _ Hforce). cbv beta iota.
    by rewrite (bind_Ok _ _ _ _ _ (define_interfaces_loop_ok type ls w0 H)).
Qed.

Lemma member_tests_required_at_construction_witness :
  (exists o, GraphQLUnionType_init "SomeUnion" [MemberObject DogType;
                                               MemberObject SomeObjectType] PyNone None
             = Raise (union_unresolvable_message "SomeUnion" (o_name o)))
  /\ GraphQLUnionType_init "Pet" [MemberObject DogType; MemberObject CatType] PyNone None
     = Ok PetType
  /\ (exists iface,
        define_interfaces SomeObjectType
          (InterfacesValue (InterfacesList [IfaceRef 7])) world_with_interface
        = (Raise (interface_unresolvable_message (i_name iface) "SomeObject"),
           world_with_interface))
  /\ (exists w0,
        define_interfaces DogType (InterfacesProducer interfaces_producer)
          world_with_interface
        = (Ok [IfaceRef 7], w0)).
Proof.
  destruct member_tests_required_at_construction as (Hfail & Hok & Hifail & Hiok).
  split; [|split; [|split]].
  - destruct (Hfail "SomeUnion" [DogType; SomeObjectType] PyNone None eq_refl eq_refl
                eq_refl)
      as (i & o & _ & _ & _ & Hinit).
    + exists SomeObjectType. split; [|reflexivity]. right. left.
    + by exists o.
  - apply (Hok "Pet" [DogType; CatType] PyNone None eq_refl).
    + discriminate.
    + right. split; [reflexivity|]. intros o Ho.
      apply elem_of_cons in Ho as [->|Ho]; [reflexivity|].
      apply elem_of_cons in Ho as [->|Ho]; [reflexivity|].
      by apply elem_of_nil in Ho.
  - destruct (Hifail SomeObjectType (InterfacesValue (InterfacesList [IfaceRef 7])) [7]
                world_with_interface world_with_interface eq_refl eq_refl)
      as (i & l & iface & _ & _ & _ & _ & Hdef).
    + intros l ->%list_elem_of_singleton. by eexists.
    + exists 7, SomeInterfaceType. split; [left|]. split; reflexivity.
    + by exists iface.
  - eexists.
    apply (Hiok DogType (InterfacesProducer interfaces_producer) [7]
             world_with_interface _ eq_refl).
    intros l ->%list_elem_of_singleton. exists SomeInterfaceType.
    split; [reflexivity|]. by right.
Defined.

(** Object construction is where the interface list is resolved: with a
    valid name and no [is_type_of], what [define_interfaces] raises is what
    the constructor raises. *)
Lemma object_construction_resolves_interfaces name fields interfaces description w msg w' :
  assert_named name = Ok tt ->
  define_interfaces (mkObjectType name description PyNone fields interfaces None None)
    interfaces w = (Raise msg, w') ->
  GraphQLObjectType_init name fields interfaces PyNone description w = (Raise msg, w').
Proof.
  intros Hname Hdef. unfold GraphQLObjectType_init.
  rewrite (bind_Ok _ _ w tt w) by (unfold lift_result; by rewrite Hname).
  rewrite (bind_Ok _ _ w tt w) by done.
  unfold add_impl_to_interfaces, get_interfaces. simpl.
  apply bind_Raise. by apply bind_Raise.
Qed.

(** ** Field-map resolution copies *)

Lemma py_assert_Ok_inv {S} cond msg (s : S) u s' :
  py_assert cond msg s = (Ok u, s') -> cond = true /\ s' = s.
Proof. unfold py_assert. destruct cond; [by intros [= <- <-]|discriminate]. Qed.

Lemma set_obj_name_named_copy k o :
  is_Some (obj_type o) -> named_copy k o (set_obj_name k o).
Proof. destruct o; simpl; intros [t Ht]; done. Qed.

Lemma named_copy_name k o o' : named_copy k o o' -> obj_name o' = Some k.
Proof. destruct o, o'; simpl; try done; by intros ->. Qed.

Lemma define_arg_spec type fn an arg h l' h' :
  define_arg type fn an arg h = (Ok l', h') ->
  exists o, objs h !! arg = Some o
            /\ is_Some (obj_type o)
            /\ l' = next_id h
            /\ h' = mkHeap (<[next_id h := set_obj_name an o]> (objs h)) (S (next_id h)).
Proof.
  unfold define_arg. intros Hrun.
  apply bind_Ok_inv in Hrun as ([] & h0 & Hname & Hrun).
  apply lift_result_Ok_inv in Hname as [_ ->].
  apply bind_Ok_inv in Hrun as (o & h0 & Ho & Hrun).
  apply deref_Ok_inv in Ho as [Ho ->].
  destruct (obj_type o) as [t|] eqn:Ht; [|discriminate].
  apply bind_Ok_inv in Hrun as ([] & h0 & Hassert & Hrun).
  apply py_assert_Ok_inv in Hassert as [_ ->].
  unfold copy_copy, bind, deref, alloc, store, ret in Hrun. rewrite Ho in Hrun.
  simpl in Hrun. rewrite lookup_insert_eq in Hrun. simpl in Hrun.
  injection Hrun as <- <-. exists o. split; [done|]. split; [by rewrite Ht|].
  split; [done|]. by rewrite insert_insert_eq.
Qed.

Lemma define_args_loop_spec type fn items :
  forall args h res h',
    define_args_loop type fn items args h = (Ok res, h') ->
    res = args ++ seq (next_id h) (length items)
    /\ next_id h' = next_id h + length items
    /\ (forall l, l < next_id h -> objs h' !! l = objs h !! l)
    /\ (forall i ak al,
          items !! i = Some (ak, al) -> al < next_id h ->
          exists a a', objs h !! al = Some a
                       /\ objs h' !! (next_id h + i) = Some a'
                       /\ named_copy ak a a').
Proof.
  induction items as [|[ak0 al0] rest IH]; intros args h res h' Hrun.
  - injection Hrun as <- <-. simpl. rewrite app_nil_r.
    split; [done|]. split; [lia|]. split; [done|]. intros i ak al Hi. done.
  - cbn [define_args_loop] in Hrun.
    apply bind_Ok_inv in Hrun as (l0 & h1 & Harg & Hrun).
    apply define_arg_spec in Harg as (o0 & Ho0 & Ht0 & -> & ->).
    apply IH in Hrun as (-> & Hnext & Hframe & Hargs). simpl in *.
    split; [by rewrite <- app_assoc|]. split; [lia|]. split.
    + intros l Hl. rewrite Hframe by lia. apply lookup_insert_ne. lia.
    + intros [|i] ak al Hi Hal; simpl in Hi.
      * injection Hi as <- <-. exists o0, (set_obj_name ak0 o0). split; [done|].
        split; [|by apply set_obj_name_named_copy].
        rewrite Nat.add_0_r, Hframe by lia. apply lookup_insert_eq.
      * destruct (Hargs i ak al Hi ltac:(lia)) as (a & a' & Ha & Ha' & Hnamed).
        rewrite lookup_insert_ne in Ha by lia.
        exists a, a'. split; [done|]. split; [|done]. by rewrite Nat.add_succ_r.
Qed.

Lemma define_field_spec type k l h l' h' :
  define_field type k l h = (Ok l', h') ->
  (forall o r, objs h !! l = Some o -> r ∈ obj_refs o -> r < next_id h) ->
  exists f,
    objs h !! l = Some (FieldObj f)
    /\ l' = next_id h
    /\ next_id h' = S (next_id h) + length (arg_items f)
    /\ (forall x, x < next_id h -> objs h' !! x = objs h !! x)
    /\ resolved_field h h' k f l'.
Proof.
  unfold define_field. intros Hrun Hrefs.
  apply bind_Ok_inv in Hrun as ([] & h0 & Hname & Hrun).
  apply lift_result_Ok_inv in Hname as [_ ->].
  apply bind_Ok_inv in Hrun as (n & h1 & Hcopy & Hrun).
  unfold copy_copy in Hcopy.
  apply bind_Ok_inv in Hcopy as (o & h0 & Ho & Hcopy).
  apply deref_Ok_inv in Ho as [Ho ->].
  injection Hcopy as <- <-.
  apply bind_Ok_inv in Hrun as (o1 & h0 & Ho1 & Hrun).
  apply deref_Ok_inv in Ho1 as [Ho1 ->]. simpl in Ho1.
  rewrite lookup_insert_eq in Ho1. injection Ho1 as <-.
  apply bind_Ok_inv in Hrun as ([] & h2 & Hstore & Hrun).
  injection Hstore as <-. simpl in Hrun.
  apply bind_Ok_inv in Hrun as (o2 & h0 & Ho2 & Hrun).
  apply deref_Ok_inv in Ho2 as [Ho2 ->]. simpl in Ho2.
  rewrite lookup_insert_eq in Ho2. injection Ho2 as <-.
  destruct (obj_type (set_obj_name k o)) as [t|]; [|discriminate].
  apply bind_Ok_inv in Hrun as ([] & h0 & Hassert & Hrun).
  apply py_assert_Ok_inv in Hassert as [_ ->].
  destruct o as [|f| | |]; try discriminate. simpl in Hrun.
  exists f. split; [done|].
  apply bind_Ok_inv in Hrun as ([] & h3 & Hargs & Hrun).
  injection Hrun as <- <-. split; [done|].
  pose proof (fun r => Hrefs _ r Ho) as Hrefs'. clear Hrefs.
  destruct (args_truthy (field_args f)) eqn:Htruthy; simpl in Hargs.
  - destruct (field_args f) as [|items|args|b] eqn:Hfa; try discriminate.
    apply bind_Ok_inv in Hargs as (args & h4 & Hloop & Hstore).
    apply define_args_loop_spec in Hloop as (-> & Hnext & Hframe & Hcopies).
    injection Hstore as <-. simpl in *.
    unfold resolved_field, arg_items. rewrite Hfa. simpl.
    split; [lia|]. split; [|split].
    + intros x Hx. rewrite lookup_insert_ne by lia.
      rewrite Hframe by lia. rewrite !lookup_insert_ne by lia. done.
    + rewrite lookup_insert_eq. unfold set_field_args. simpl. done.
    + intros i ak al Hi.
      assert (al < next_id h) as Hal.
      { apply Hrefs'. unfold obj_refs. simpl. rewrite Hfa.
        apply list_elem_of_fmap. exists (ak, al). split; [done|].
        by eapply list_elem_of_lookup_2. }
      destruct (Hcopies i ak al Hi ltac:(lia)) as (a & a' & Ha & Ha' & Hnamed).
      rewrite !lookup_insert_ne in Ha by lia.
      exists a, a'. split; [done|]. split; [|done].
      rewrite lookup_insert_ne by lia. done.
  - injection Hargs as <-. simpl.
    assert (arg_items f = []) as Hnil.
    { unfold arg_items. destruct (field_args f) as [|items| |]; try done.
      simpl in Htruthy. destruct items; [done|discriminate]. }
    unfold resolved_field. rewrite Hnil. simpl.
    split; [lia|]. split; [|split].
    + intros x Hx. rewrite !lookup_insert_ne by lia. done.
    + by rewrite lookup_insert_eq.
    + intros i ak al Hi. done.
Qed.

Lemma arg_items_refs f i ak al :
  arg_items f !! i = Some (ak, al) -> al ∈ obj_refs (FieldObj f).
Proof.
  unfold arg_items, obj_refs. destruct (field_args f) as [|items| |]; try done.
  intros Hi. apply list_elem_of_fmap. exists (ak, al). split; [done|].
  by eapply list_elem_of_lookup_2.
Qed.

Lemma define_field_map_loop_spec type items :
  forall b acc h fm h',
    b <= next_id h ->
    closed_below b h ->
    (forall k l, (k, l) ∈ items -> l < b) ->
    NoDup items.*1 ->
    define_field_map_loop type items acc h = (Ok fm, h') ->
    next_id h <= next_id h'
    /\ (forall x, x < next_id h -> objs h' !! x = objs h !! x)
    /\ (forall k, k ∉ items.*1 -> fm !! k = acc !! k)
    /\ (forall k l, (k, l) ∈ items ->
          exists l' f, fm !! k = Some l'
                       /\ next_id h <= l'
                       /\ objs h !! l = Some (FieldObj f)
                       /\ resolved_field h h' k f l').
Proof.
  induction items as [|[k0 l0] rest IH]; intros b acc h fm h' Hb Hclosed Hlive Hnodup Hrun.
  - injection Hrun as <- <-. split; [done|]. split; [done|]. split; [done|].
    intros k l Hin. by apply elem_of_nil in Hin.
  - cbn [define_field_map_loop] in Hrun.
    apply bind_Ok_inv in Hrun as (n & h1 & Hfield & Hrun).
    assert (l0 < b) as Hl0 by (apply (Hlive k0); left).
    apply define_field_spec in Hfield as (f0 & Hf0 & -> & Hnext1 & Hframe1 & Hres0 & Hargs0).
    2:{ intros o r Ho Hr. pose proof (Hclosed l0 o r Hl0 Ho Hr). lia. }
    rewrite fmap_cons in Hnodup. apply NoDup_cons in Hnodup as [Hk0 Hnodup].
    apply (IH b) in Hrun as (Hnext & Hframe & Hother & Hentries); try done.
    2:{ lia. }
    2:{ intros l o r Hl Ho Hr. rewrite Hframe1 in Ho by lia. eauto. }
    2:{ intros k l Hin. apply (Hlive k). by right. }
    split; [lia|]. split; [|split].
    + intros x Hx. rewrite Hframe by lia. by apply Hframe1.
    + intros k [Hne Hk]%not_elem_of_cons. rewrite Hother by done.
      by rewrite lookup_insert_ne.
    + intros k l [[= -> ->]|Hin]%elem_of_cons.
      * exists (next_id h), f0. rewrite Hother by done. rewrite lookup_insert_eq.
        split; [done|]. split; [done|]. split; [done|]. split.
        -- rewrite Hframe by lia. done.
        -- intros i ak al Hi. destruct (Hargs0 i ak al Hi) as (a & a' & Ha & Ha' & Hnamed).
           exists a, a'. split; [done|]. split; [|done]. rewrite Hframe; [done|].
           apply lookup_lt_Some in Hi. lia.
      * destruct (Hentries k l Hin) as (l' & f & Hfm & Hl' & Hf & Hres & Hargs).
        pose proof (Hlive k l ltac:(by right)) as Hl.
        rewrite Hframe1 in Hf by lia.
        exists l', f. split; [done|]. split; [lia|]. split; [done|]. split; [done|].
        intros i ak al Hi. destruct (Hargs i ak al Hi) as (a & a' & Ha & Ha' & Hnamed).
        exists a, a'. split; [|done]. rewrite <- Ha. symmetry. apply Hframe1.
        pose proof (Hclosed l _ al Hl Hf (arg_items_refs _ _ _ _ Hi)). lia.
Qed.

(** Resolution of the dict that [fields] is, or that calling it returned,
    is the outer loop run on the heap as the call left it. *)
Lemma define_field_map_forced type fields items w w0 fm w' :
  force_fields fields w = (Ok (PyDict items), w0) ->
  define_field_map type fields w = (Ok fm, w') ->
  define_field_map_loop type items ∅ (w_heap w0) = (Ok fm, w_heap w')
  /\ w_calls w' = w_calls w0.
Proof.
  unfold define_field_map. intros Hforce. rewrite (bind_Ok _ _ _ _ _ Hforce).
  cbv beta iota. intros Hrun.
  apply bind_Ok_inv in Hrun as ([] & w1 & Hlen & Hrun).
  apply py_assert_Ok_inv in Hlen as [_ ->].
  unfold on_heap in Hrun.
  destruct (define_field_map_loop type items ∅ (w_heap w0)) as [r h'].
  by injection Hrun as -> <-.
Qed.

Lemma define_field_map_direct type items w fm w' :
  define_field_map type (FieldsValue (PyDict items)) w = (Ok fm, w') ->
  define_field_map_loop type items ∅ (w_heap w) = (Ok fm, w_heap w')
  /\ w_calls w' = w_calls w.
Proof. by apply define_field_map_forced. Qed.

Lemma heap_wf_fresh h l : heap_wf h -> next_id h <= l -> objs h !! l = None.
Proof.
  intros Hwf Hl. destruct (objs h !! l) eqn:E; [|done].
  pose proof (Hwf l ltac:(by eexists)). lia.
Qed.

(** C8: resolving a field map copies every field and every argument before
    naming it, whether the dict of fields is given directly or returned by
    the function given as [fields]; [w0] is the world in which the dict
    exists (after the call, in the second case).  Every object that existed
    then is left as it was; the entry under each key is a new object, a copy
    of the caller's field whose [name] is the key and whose arguments are new
    objects too; one field object given under two keys yields two distinct
    entries, each with its own key as [name]; and one argument object given
    under two argument keys of a field yields two distinct new argument
    objects, each with its own key as [name] and with the other attributes
    of the caller's argument, which is unchanged. *)
Theorem field_and_argument_values_are_copied type fields items w w0 field_map w' :
  force_fields fields w = (Ok (PyDict items), w0) ->
  heap_closed (w_heap w0) ->
  (forall k l, (k, l) ∈ items -> l < next_id (w_heap w0)) ->
  NoDup items.*1 ->
  define_field_map type fields w = (Ok field_map, w') ->
  (forall x o, objs (w_heap w0) !! x = Some o -> objs (w_heap w') !! x = Some o)
  /\ (forall k l, (k, l) ∈ items ->
        exists l' f,
          field_map !! k = Some l'
          /\ objs (w_heap w0) !! l' = None
          /\ objs (w_heap w0) !! l = Some (FieldObj f)
          /\ resolved_field (w_heap w0) (w_heap w') k f l')
  /\ (forall k1 k2 l,
        k1 ≠ k2 -> (k1, l) ∈ items -> (k2, l) ∈ items ->
        exists l1 l2 f1 f2,
          field_map !! k1 = Some l1 /\ field_map !! k2 = Some l2
          /\ l1 ≠ l2 /\ l1 ≠ l /\ l2 ≠ l
          /\ objs (w_heap w') !! l1 = Some (FieldObj f1) /\ field_name f1 = Some k1
          /\ objs (w_heap w') !! l2 = Some (FieldObj f2) /\ field_name f2 = Some k2)
  /\ (forall k l f i j ak1 ak2 al,
        (k, l) ∈ items ->
        objs (w_heap w0) !! l = Some (FieldObj f) ->
        ak1 ≠ ak2 ->
        arg_items f !! i = Some (ak1, al) ->
        arg_items f !! j = Some (ak2, al) ->
        exists l' fr args a1 a2 a o1 o2,
          field_map !! k = Some l'
          /\ objs (w_heap w') !! l' = Some (FieldObj fr)
          /\ field_args fr = ArgsList args
          /\ args !! i = Some a1 /\ args !! j = Some a2
          /\ a1 ≠ a2 /\ a1 ≠ al /\ a2 ≠ al
          /\ objs (w_heap w0) !! al = Some a
          /\ objs (w_heap w') !! al = Some a
          /\ objs (w_heap w0) !! a1 = None /\ objs (w_heap w0) !! a2 = None
          /\ objs (w_heap w') !! a1 = Some o1 /\ obj_name o1 = Some ak1
          /\ objs (w_heap w') !! a2 = Some o2 /\ obj_name o2 = Some ak2
          /\ named_copy ak1 a o1 /\ named_copy ak2 a o2).
Proof.
  intros Hforce [Hwf Hclosed] Hlive Hnodup Hrun.
  apply (define_field_map_forced _ _ _ _ _ _ _ Hforce) in Hrun as [Hrun _].
  set (h := w_heap w0) in *. set (h' := w_heap w') in *.
  apply (define_field_map_loop_spec _ _ (next_id h)) in Hrun
    as (Hnext & Hframe & _ & Hentries); try done.
  assert (forall x o, objs h !! x = Some o -> objs h' !! x = Some o) as Hkeep.
  { intros x o Hx. rewrite Hframe; [done|]. apply Hwf. by eexists. }
  split; [done|]. split; [|split].
  - intros k l Hin. destruct (Hentries k l Hin) as (l' & f & Hfm & Hl' & Hf & Hres).
    exists l', f. split; [done|]. split; [by apply heap_wf_fresh|]. done.
  - intros k1 k2 l Hne H1 H2.
    destruct (Hentries k1 l H1) as (l1 & f1 & Hfm1 & Hl1 & Hf1 & Hres1 & _).
    destruct (Hentries k2 l H2) as (l2 & f2 & Hfm2 & Hl2 & Hf2 & Hres2 & _).
    pose proof (Hlive k1 l H1) as Hl.
    eexists l1, l2, _, _. split; [done|]. split; [done|].
    split; [|split; [lia|split; [lia|]]].
    + intros ->. rewrite Hres1 in Hres2. by injection Hres2.
    + split; [exact Hres1|]. split; [done|]. split; [exact Hres2|done].
  - intros k l f i j ak1 ak2 al Hin Hf Hne Hi Hj.
    destruct (Hentries k l Hin) as (l' & f' & Hfm & Hl' & Hf' & Hres & Hargs).
    rewrite Hf in Hf'. injection Hf' as <-.
    destruct (Hargs i ak1 al Hi) as (a & o1 & Ha & Ho1 & Hnamed1).
    destruct (Hargs j ak2 al Hj) as (a' & o2 & Ha' & Ho2 & Hnamed2).
    rewrite Ha in Ha'. injection Ha' as <-.
    assert (al < next_id h) as Hal by (apply Hwf; by eexists).
    assert (i ≠ j) as Hij by (intros ->; congruence).
    pose proof (lookup_lt_Some _ _ _ Hi) as Hilt.
    pose proof (lookup_lt_Some _ _ _ Hj) as Hjlt.
    eexists l', _, _, (S l' + i), (S l' + j), a, o1, o2.
    split; [done|]. split; [exact Hres|]. split; [reflexivity|].
    split; [by apply lookup_seq|]. split; [by apply lookup_seq|].
    split; [lia|]. split; [lia|]. split; [lia|]. split; [done|].
    split; [by apply Hkeep|].
    split; [apply heap_wf_fresh; [done|lia]|].
    split; [apply heap_wf_fresh; [done|lia]|].
    split; [done|]. split; [by eapply named_copy_name|].
    split; [done|]. split; [by eapply named_copy_name|]. done.
Qed.

Lemma shared_field_heap_built :
  (A <- GraphQLArgument_init (Some GraphQLString) VNone None ;;
   GraphQLField_init (Some GraphQLString) (ArgsMapping [("a", A); ("b", A)])
     None None None) empty_heap
  = (Ok 1, shared_field_heap).
Proof. reflexivity. Qed.

Lemma shared_field_heap_closed : heap_closed shared_field_heap.
Proof.
  split.
  - intros l [o Ho]. simpl in *.
    apply lookup_insert_Some in Ho as [[<- _]|[_ Ho]]; [lia|].
    apply lookup_insert_Some in Ho as [[<- _]|[_ Ho]]; [lia|].
    by rewrite lookup_empty in Ho.
  - intros l o r _ Ho Hr. simpl in *.
    apply lookup_insert_Some in Ho as [[_ <-]|[_ Ho]].
    + simpl in Hr. apply elem_of_cons in Hr as [->|Hr]; [lia|].
      apply elem_of_cons in Hr as [->|Hr]; [lia|]. by apply elem_of_nil in Hr.
    + apply lookup_insert_Some in Ho as [[_ <-]|[_ Ho]].
      * by apply elem_of_nil in Hr.
      * by rewrite lookup_empty in Ho.
Qed.

Lemma shared_field_items_live k l :
  (k, l) ∈ shared_field_items -> l < next_id shared_field_heap.
Proof.
  intros Hin. simpl.
  apply elem_of_cons in Hin as [[= _ ->]|Hin]; [lia|].
  apply elem_of_cons in Hin as [[= _ ->]|Hin]; [lia|]. by apply elem_of_nil in Hin.
Qed.

Lemma field_and_argument_values_are_copied_witness :
  (exists field_map w' l1 l2 f1 f2,
     define_field_map "T" (FieldsValue (PyDict shared_field_items)) shared_field_world
     = (Ok field_map, w')
     /\ field_map !! "x" = Some l1 /\ field_map !! "y" = Some l2
     /\ l1 ≠ l2 /\ l1 ≠ 1 /\ l2 ≠ 1
     /\ objs (w_heap w') !! l1 = Some (FieldObj f1) /\ field_name f1 = Some "x"
     /\ objs (w_heap w') !! l2 = Some (FieldObj f2) /\ field_name f2 = Some "y"
     /\ objs (w_heap w') !! 1 = objs shared_field_heap !! 1)
  /\ (exists field_map w' l' fr a1 a2 o1 o2,
        define_field_map "T" (FieldsProducer shared_field_producer) empty_world
        = (Ok field_map, w')
        /\ field_map !! "x" = Some l'
        /\ objs (w_heap w') !! l' = Some (FieldObj fr)
        /\ field_args fr = ArgsList [a1; a2]
        /\ a1 ≠ a2 /\ a1 ≠ 0 /\ a2 ≠ 0
        /\ objs (w_heap w') !! a1 = Some o1 /\ obj_name o1 = Some "a"
        /\ objs (w_heap w') !! a2 = Some o2 /\ obj_name o2 = Some "b"
        /\ objs (w_heap w') !! 0 = objs shared_field_heap !! 0).
Proof.
  split.
  - assert (exists field_map w',
              define_field_map "T" (FieldsValue (PyDict shared_field_items))
                shared_field_world = (Ok field_map, w')) as (field_map & w' & Hrun).
    { do 2 eexists. vm_compute. reflexivity. }
    destruct (field_and_argument_values_are_copied "T"
                (FieldsValue (PyDict shared_field_items)) shared_field_items
                shared_field_world shared_field_world field_map w' eq_refl
                shared_field_heap_closed shared_field_items_live)
      as (Hkeep & _ & Hshared & _).
    + apply (bool_decide_unpack _). reflexivity.
    + exact Hrun.
    + destruct (Hshared "x" "y" 1)
        as (l1 & l2 & f1 & f2 & H1 & H2 & Hne & Hn1 & Hn2 & Hf1 & Hk1 & Hf2 & Hk2).
      * discriminate.
      * left.
      * right. left.
      * exists field_map, w', l1, l2, f1, f2. do 10 (split; [done|]).
        apply (Hkeep 1). reflexivity.
  - assert (exists field_map w',
              define_field_map "T" (FieldsProducer shared_field_producer) empty_world
              = (Ok field_map, w')) as (field_map & w' & Hrun).
    { do 2 eexists. vm_compute. reflexivity. }
    destruct (field_and_argument_values_are_copied "T"
                (FieldsProducer shared_field_producer) shared_field_items
                empty_world (mkWorld shared_field_heap [3] ∅) field_map w' eq_refl
                shared_field_heap_closed shared_field_items_live)
      as (Hkeep & _ & _ & Hargs).
    + apply (bool_decide_unpack _). reflexivity.
    + exact Hrun.
    + destruct (Hargs "x" 1 _ 0 1 "a" "b" 0 ltac:(left) eq_refl ltac:(discriminate)
                  eq_refl eq_refl)
        as (l' & fr & args & a1 & a2 & a & o1 & o2 & Hfm & Hfr & Hfa & Hi & Hj
            & Hne & Hn1 & Hn2 & Ha & Ha' & _ & _ & Ho1 & Hk1 & Ho2 & Hk2 & _).
      assert (args = [a1; a2]) as ->.
      { vm_compute in Hrun. injection Hrun as <- <-. vm_compute in Hfm.
        injection Hfm as <-. vm_compute in Hfr. injection Hfr as <-.
        simpl in Hfa. injection Hfa as <-. simpl in Hi, Hj.
        by injection Hi as <-; injection Hj as <-. }
      exists field_map, w', l', fr, a1, a2, o1, o2. do 11 (split; [done|]).
      exact (eq_trans Ha' (eq_sym Ha)).
Defined.

(** ** Memoized field maps *)

Lemma on_heap_calls {A} (m : M heap A) w r w' :
  on_heap m w = (r, w') -> w_calls w' = w_calls w.
Proof. unfold on_heap. destruct (m (w_heap w)). by intros [= _ <-]. Qed.

Lemma call_calls {A} (p : producer A) w r w' :
  call p w = (r, w') -> w_calls w' = producer_id p :: w_calls w.
Proof. unfold call. intros H. by apply on_heap_calls in H. Qed.



Lemma calls_of_cons id w w' :
  w_calls w' = id :: w_calls w -> calls_of id w' = S (calls_of id w).
Proof.
  unfold calls_of. intros ->. rewrite filter_cons_True by done. reflexivity.
Qed.

(** Once a method answers from its cache, it does so at every call, and
    touches nothing. *)
Lemma call_times_cached {T A} (method : T -> M world (A * T)) self a :
  (forall w, method self w = (Ok (a, self), w)) ->
  forall n w, call_times method n self w = (replicate n (Ok a), self, w).
Proof.
  intros Hcached. induction n as [|n IH]; intros w; simpl; [done|].
  by rewrite Hcached, IH.
Qed.





(** ** The asyncio bridge *)

Lemma get_future_Some f s fs : futures s !! f = Some fs -> get_future f s = (Ok fs, s).
Proof. unfold get_future. by intros ->. Qed.

Lemma handle_future_result_done d f s fs o st :
  futures s !! f = Some fs -> f_outcome fs = Some o -> settlement_of o = Some st ->
  handle_future_result d f s = settle d st s.
Proof.
  intros Hf Ho Hst. unfold handle_future_result, Future_exception, Future_result.
  destruct o as [v|e|]; simpl in Hst; [| |discriminate].
  - injection Hst as <-. rewrite (bind_Ok _ _ s None s).
    + cbv zeta. rewrite (bind_Ok _ _ s v s); [done|].
      rewrite (bind_Ok _ _ _ _ _ (get_future_Some _ _ _ Hf)). by rewrite Ho.
    + rewrite (bind_Ok _ _ _ _ _ (get_future_Some _ _ _ Hf)). by rewrite Ho.
  - destruct (exn_truthy e) eqn:He; [|discriminate]. injection Hst as <-.
    rewrite (bind_Ok _ _ s (Some e) s); [by rewrite He|].
    rewrite (bind_Ok _ _ _ _ _ (get_future_Some _ _ _ Hf)). by rewrite Ho.
Qed.

(** The callback forwards nothing, and changes nothing, when its future is
    missing or pending, was cancelled, or raised a falsy exception: it raises
    at [future.exception()] or at [future.result()]. *)
Lemma handle_future_result_unforwarded d f s :
  (forall fs o, futures s !! f = Some fs -> f_outcome fs = Some o ->
                settlement_of o = None) ->
  snd (handle_future_result d f s) = s.
Proof.
  intros Hnone. unfold handle_future_result, Future_exception, Future_result.
  destruct (futures s !! f) as [fs|] eqn:Hf.
  - destruct (f_outcome fs) as [o|] eqn:Ho.
    + specialize (Hnone fs o eq_refl Ho). destruct o as [v|e|]; simpl in Hnone.
      * discriminate.
      * destruct (exn_truthy e) eqn:He; [discriminate|].
        rewrite (bind_Ok _ _ s (Some e) s).
        2:{ rewrite (bind_Ok _ _ _ _ _ (get_future_Some _ _ _ Hf)). by rewrite Ho. }
        rewrite He. cbv zeta. rewrite (bind_Raise _ _ s (exn_name e) s); [done|].
        rewrite (bind_Ok _ _ _ _ _ (get_future_Some _ _ _ Hf)). by rewrite Ho.
      * rewrite (bind_Raise _ _ s "CancelledError" s); [done|].
        rewrite (bind_Ok _ _ _ _ _ (get_future_Some _ _ _ Hf)). by rewrite Ho.
    + rewrite (bind_Raise _ _ s "InvalidStateError" s); [done|].
      rewrite (bind_Ok _ _ _ _ _ (get_future_Some _ _ _ Hf)). by rewrite Ho.
  - rewrite (bind_Raise _ _ s "dangling reference" s); [done|].
    apply bind_Raise. unfold get_future. by rewrite Hf.
Qed.

Lemma settle_effect d st s r s' :
  settle d st s = (r, s') ->
  s' = s
  \/ (deferreds s !! d = Some Pending
      /\ s' = mkBridge (futures s) (<[d := Settled st]> (deferreds s)) (ready s)
                (next_obj s)).
Proof.
  unfold settle. destruct (deferreds s !! d) as [[|?]|]; intros [= _ <-]; auto.
Qed.

(** A callback either changes nothing or settles its own pending
    deferred. *)
Lemma run_callback_effect fn f s :
  snd (run_callback fn f s) = s
  \/ exists d st, fn = HandleFutureResult d
                  /\ deferreds s !! d = Some Pending
                  /\ snd (run_callback fn f s)
                     = mkBridge (futures s) (<[d := Settled st]> (deferreds s)) (ready s)
                         (next_obj s).
Proof.
  destruct fn as [d]. simpl.
  destruct (futures s !! f) as [fs|] eqn:Hf.
  - destruct (f_outcome fs) as [o|] eqn:Ho.
    + destruct (settlement_of o) as [st|] eqn:Hst.
      * rewrite (handle_future_result_done d f s fs o st) by done.
        destruct (settle d st s) as [r s'] eqn:E.
        apply settle_effect in E as [->|[Hp ->]]; [by left|right; eauto].
      * left. apply handle_future_result_unforwarded. intros fs' o' Hf' Ho'.
        rewrite Hf in Hf'. injection Hf' as <-. congruence.
    + left. apply handle_future_result_unforwarded. intros fs' o' Hf' Ho'.
      rewrite Hf in Hf'. injection Hf' as <-. congruence.
  - left. apply handle_future_result_unforwarded. intros fs' o' Hf'. congruence.
Qed.

Lemma run_callbacks_keeps_settled cbs :
  forall s d st,
    deferreds s !! d = Some (Settled st) ->
    deferreds (run_callbacks cbs s) !! d = Some (Settled st).
Proof.
  induction cbs as [|[fn f'] rest IH]; intros s d st Hd; simpl; [done|].
  apply IH. destruct (run_callback_effect fn f' s) as [->|(d' & st' & _ & Hp & ->)];
    [done|]. simpl. rewrite lookup_insert_ne; [done|]. congruence.
Qed.

Lemma run_callbacks_settles cbs :
  forall s f d fs o st,
    futures s !! f = Some fs -> f_outcome fs = Some o -> settlement_of o = Some st ->
    deferreds s !! d = Some Pending ->
    (forall f', (HandleFutureResult d, f') ∈ cbs -> f' = f) ->
    (HandleFutureResult d, f) ∈ cbs ->
    deferreds (run_callbacks cbs s) !! d = Some (Settled st).
Proof.
  induction cbs as [|[fn f'] rest IH]; intros s f d fs o st Hf Ho Hst Hd Honly Hin.
  - by apply elem_of_nil in Hin.
  - simpl. destruct (decide (fn = HandleFutureResult d)) as [->|Hne].
    + assert (f' = f) as -> by (apply Honly; left).
      simpl. rewrite (handle_future_result_done d f s fs o st) by done.
      unfold settle. rewrite Hd. simpl.
      apply run_callbacks_keeps_settled. simpl. apply lookup_insert_eq.
    + apply elem_of_cons in Hin as [[= <- _]|Hin]; [done|].
      destruct (run_callback_effect fn f' s) as [->|(d' & st' & -> & Hp & ->)].
      * eapply IH; eauto. intros f'' Hf''. apply Honly. by right.
      * eapply IH; simpl; eauto.
        -- rewrite lookup_insert_ne; [done|]. congruence.
        -- intros f'' Hf''. apply Honly. by right.
Qed.

Lemma finish_Ok_inv f o s s' :
  finish f o s = (Ok tt, s') ->
  exists fs, futures s !! f = Some fs /\ f_outcome fs = None
             /\ s' = mkBridge (<[f := mkFuture (Some o) [] (f_coroutine fs)]> (futures s))
                       (deferreds s)
                       (ready s ++ ((fun fn => (fn, f)) <$> f_callbacks fs))
                       (next_obj s).
Proof.
  unfold finish. intros Hrun.
  apply bind_Ok_inv in Hrun as (fs & s0 & Hget & Hrun).
  unfold get_future in Hget. destruct (futures s !! f) as [fs'|] eqn:Hf; [|discriminate].
  injection Hget as -> <-.
  destruct (f_outcome fs) eqn:Ho; [discriminate|].
  exists fs. split; [done|]. split; [done|].
  unfold bind, put_future, call_soon in Hrun. simpl in Hrun. by injection Hrun as <-.
Qed.


Lemma linked_settles_on_finish f d s o st s' :
  linked f d s ->
  settlement_of o = Some st ->
  finish f o s = (Ok tt, s') ->
  deferreds (run_ready s') !! d = Some (Settled st).
Proof.
  intros (Hd & _ & Hready & Hwhere) Hst (fs & Hf & Ho & ->)%finish_Ok_inv.
  unfold run_ready. simpl.
  eapply (run_callbacks_settles _ _ f d); simpl; eauto.
  - apply lookup_insert_eq.
  - done.
  - intros f' [Hin|Hin]%elem_of_app; [by apply Hready|].
    apply list_elem_of_fmap in Hin as (fn & [= _ ->] & _). done.
  - apply elem_of_app. right.
    destruct Hwhere as [(fs' & Hf' & _ & Hin)|(fs' & o' & Hf' & Ho' & _)]; [|congruence].
    rewrite Hf in Hf'. injection Hf' as <-.
    apply list_elem_of_fmap. by exists (HandleFutureResult d).
Qed.

Lemma run_callbacks_frame cbs :
  forall s, futures (run_callbacks cbs s) = futures s
            /\ ready (run_callbacks cbs s) = ready s
            /\ next_obj (run_callbacks cbs s) = next_obj s.
Proof.
  induction cbs as [|[fn f'] rest IH]; intros s; simpl; [done|].
  destruct (IH (snd (run_callback fn f' s))) as (-> & -> & ->).
  by destruct (run_callback_effect fn f' s) as [->|(d' & st' & _ & _ & ->)].
Qed.

(** While the future that a deferred waits for has nothing to forward,
    running callbacks leaves the deferred pending. *)
Lemma run_callbacks_keeps_waiting cbs :
  forall s f d,
    (forall fs o, futures s !! f = Some fs -> f_outcome fs = Some o ->
                  settlement_of o = None) ->
    deferreds s !! d = Some Pending ->
    (forall f', (HandleFutureResult d, f') ∈ cbs -> f' = f) ->
    deferreds (run_callbacks cbs s) !! d = Some Pending.
Proof.
  induction cbs as [|[fn f'] rest IH]; intros s f d Hnone Hd Honly; simpl; [done|].
  assert (forall f'', (HandleFutureResult d, f'') ∈ rest -> f'' = f) as Hrest
    by (intros f'' Hin; apply Honly; by right).
  destruct (decide (fn = HandleFutureResult d)) as [->|Hne].
  - assert (f' = f) as -> by (apply Honly; left).
    assert (snd (run_callback (HandleFutureResult d) f s) = s) as ->; [|by eapply IH].
    by apply handle_future_result_unforwarded.
  - destruct (run_callback_effect fn f' s) as [->|(d' & st' & -> & Hp & ->)].
    + by eapply IH.
    + eapply IH; simpl; eauto. rewrite lookup_insert_ne; [done|]. congruence.
Qed.


Lemma add_done_callback_links f s fs :
  bridge_wf s ->
  futures s !! f = Some fs ->
  exists s2,
    (d0 <- Deferred_init ;;
     add_done_callback f (process_future_result d0) ;;; ret (DeferredRef d0)) s
    = (Ok (DeferredRef (next_obj s)), s2)
    /\ deferreds s !! next_obj s = None
    /\ linked f (next_obj s) s2.
Proof.
  intros (Hwd & Hwf & Hwc & Hwr) Hf.
  assert (deferreds s !! next_obj s = None) as Hfresh.
  { destruct (deferreds s !! next_obj s) eqn:E; [|done].
    pose proof (Hwd (next_obj s) ltac:(by eexists)). lia. }
  unfold bind, Deferred_init, add_done_callback, bind, get_future, ret. simpl.
  rewrite Hf. destruct (f_outcome fs) as [o|] eqn:Ho; simpl.
  - eexists. split; [reflexivity|]. split; [done|].
    split; [apply lookup_insert_eq|]. simpl. split; [|split].
    + intros f' fs' Hf' Hin. pose proof (Hwc _ _ _ Hf' Hin). lia.
    + intros f' [Hin|Hin]%elem_of_app.
      * pose proof (Hwr _ _ Hin). lia.
      * apply list_elem_of_singleton in Hin. by injection Hin.
    + right. exists fs, o. do 2 (split; [done|]).
      apply elem_of_app. right. by apply list_elem_of_singleton.
  - eexists. split; [reflexivity|]. split; [done|].
    split; [apply lookup_insert_eq|]. simpl. split; [|split].
    + intros f' fs' Hf' Hin. destruct (decide (f' = f)) as [|Hne]; [done|].
      rewrite lookup_insert_ne in Hf' by done.
      pose proof (Hwc _ _ _ Hf' Hin). lia.
    + intros f' Hin. pose proof (Hwr _ _ Hin). lia.
    + left. eexists. split; [apply lookup_insert_eq|]. split; [done|]. simpl.
      apply elem_of_app. right. by apply list_elem_of_singleton.
Qed.





(** A deferred keeps waiting for its future while other futures complete
    and while the loop turns before the future is done. *)
Lemma linked_finish_other f d s f' o s' :
  linked f d s -> f' ≠ f -> finish f' o s = (Ok tt, s') -> linked f d s'.
Proof.
  intros (Hd & Hcbs & Hready & Hwhere) Hne (fs' & Hf' & Ho' & ->)%finish_Ok_inv.
  split; [done|]. simpl. split; [|split].
  - intros f'' fs'' Hf'' Hin. apply lookup_insert_Some in Hf'' as [[_ <-]|[_ Hf'']].
    + by apply elem_of_nil in Hin.
    + by eapply Hcbs.
  - intros f'' [Hin|Hin]%elem_of_app; [by apply Hready|].
    apply list_elem_of_fmap in Hin as (fn & [= <- ->] & Hin). by eapply Hcbs.
  - destruct Hwhere as [(fs & Hf & Ho & Hin)|(fs & o0 & Hf & Ho & Hin)].
    + left. exists fs. by rewrite lookup_insert_ne.
    + right. exists fs, o0. rewrite lookup_insert_ne by done.
      do 2 (split; [done|]). apply elem_of_app. by left.
Qed.

Lemma run_callbacks_keeps_pending cbs :
  forall s f d fs,
    futures s !! f = Some fs -> f_outcome fs = None ->
    deferreds s !! d = Some Pending ->
    (forall f', (HandleFutureResult d, f') ∈ cbs -> f' = f) ->
    deferreds (run_callbacks cbs s) !! d = Some Pending.
Proof.
  intros s f d fs Hf Ho. apply (run_callbacks_keeps_waiting cbs s f d).
  intros fs' o Hf' Ho'. congruence.
Qed.

Lemma linked_run_ready_pending f d s fs :
  linked f d s -> futures s !! f = Some fs -> f_outcome fs = None ->
  linked f d (run_ready s).
Proof.
  intros (Hd & Hcbs & Hready & Hwhere) Hf Ho. unfold run_ready.
  destruct (run_callbacks_frame (ready s)
              (mkBridge (futures s) (deferreds s) [] (next_obj s))) as (Hfut & Hrdy & _).
  split; [|split; [|split]].
  - by eapply run_callbacks_keeps_pending.
  - rewrite Hfut. exact Hcbs.
  - rewrite Hrdy. intros f' Hin. by apply elem_of_nil in Hin.
  - rewrite Hfut. simpl.
    destruct Hwhere as [(fs' & Hf' & Ho' & Hin)|(fs' & o & Hf' & Ho' & _)].
    + left. eauto.
    + congruence.
Qed.

(** * Further properties *)

(** ** Names *)

Lemma name_tail_matches_spec s :
  name_tail_matches s = true
  <-> exists w, all_name_continue w = true /\ (s = w \/ s = w +:+ newline).
Proof.
  induction s as [|c rest IH]; simpl.
  - split; [|done]. intros _. exists EmptyString. auto.
  - rewrite orb_true_iff, !andb_true_iff, IH. split.
    + intros [[Hc (w & Hw & Hs)]|[Hnl Hrest]].
      * exists (String c w). simpl. rewrite Hc, Hw. split; [done|].
        destruct Hs as [->| ->]; auto.
      * destruct rest; [|discriminate]. apply Nat.eqb_eq in Hnl.
        exists EmptyString. split; [done|]. right. simpl. unfold newline.
        by rewrite <- Hnl, ascii_nat_embedding.
    + intros (w & Hw & Hs). destruct w as [|c' w']; simpl in *.
      * destruct Hs as [Hs|Hs]; [discriminate|]. injection Hs as -> ->.
        right. done.
      * apply andb_true_iff in Hw as [Hc' Hw']. left.
        destruct Hs as [Hs|Hs]; injection Hs as -> ->; (split; [done|]);
          exists w'; auto.
Qed.

(** X1: [NAME_PATTERN.match] accepts exactly the strings made of a first
    character in [[_a-zA-Z]] followed by characters in [[_a-zA-Z0-9]], and
    those strings followed by one final newline (Python's [$] also matches
    just before a trailing newline).  In particular the empty string is
    rejected. *)
Theorem NAME_PATTERN_match_spec s :
  NAME_PATTERN_match s = true
  <-> exists c w, is_name_start c = true /\ all_name_continue w = true
                  /\ (s = String c w \/ s = String c (w +:+ newline)).
Proof.
  destruct s as [|c rest]; simpl.
  - split; [done|]. by intros (c & w & _ & _ & [?|?]).
  - rewrite andb_true_iff, name_tail_matches_spec. split.
    + intros (Hc & w & Hw & Hs). exists c, w. do 2 (split; [done|]).
      destruct Hs as [->| ->]; auto.
    + intros (c' & w & Hc & Hw & Hs).
      destruct Hs as [Hs|Hs]; injection Hs as -> ->; (split; [done|]);
        exists w; auto.
Qed.

(** ** Classification of types *)

Lemma classification_of_named t :
  is_output_type t = is_leaf_type t || is_composite_type t
  /\ is_leaf_type t && is_composite_type t = false
  /\ is_input_type t && is_output_type t = is_leaf_type t
  /\ is_input_type t || is_output_type t = true.
Proof.
  unfold is_output_type, is_leaf_type, is_composite_type, is_input_type.
  pose proof (get_named_type_is_named t) as Hnamed.
  destruct (get_named_type t); try discriminate Hnamed; repeat split.
Qed.

(** X2: the four classification predicates are tied together: a type is an
    output type exactly when it is a leaf or a composite type, never both;
    it is both an input and an output type exactly when it is a leaf type;
    every type is an input type or an output type; and none of the predicates
    changes under List and NonNull modifiers. *)
Theorem classification_predicates_agree t ms :
  is_output_type t = is_leaf_type t || is_composite_type t
  /\ is_leaf_type t && is_composite_type t = false
  /\ is_input_type t && is_output_type t = is_leaf_type t
  /\ is_input_type t || is_output_type t = true
  /\ is_input_type (wrap ms t) = is_input_type t
  /\ is_output_type (wrap ms t) = is_output_type t
  /\ is_leaf_type (wrap ms t) = is_leaf_type t
  /\ is_composite_type (wrap ms t) = is_composite_type t.
Proof.
  destruct (classification_of_named t) as (H1 & H2 & H3 & H4).
  do 4 (split; [done|]).
  unfold is_output_type, is_leaf_type, is_composite_type, is_input_type.
  by rewrite !get_named_type_wrap.
Qed.

Lemma get_named_type_idem t : get_named_type (get_named_type t) = get_named_type t.
Proof. apply get_named_type_named, get_named_type_is_named. Qed.

(** X3: [get_nullable_type] undoes the [NonNull] constructor.  The
    constructor accepts exactly the types that are not [NonNull] themselves;
    on what it builds, [get_nullable_type] gives back the wrapped type, which
    is nullable, so a second [get_nullable_type] changes nothing; and
    [get_nullable_type] never changes the named type underneath. *)
Theorem get_nullable_type_undoes_non_null t t' :
  new_GraphQLNonNull t = Ok t' ->
  t' = GraphQLNonNull t
  /\ class_of t ≠ C_NonNull
  /\ get_nullable_type t' = t
  /\ get_nullable_type (get_nullable_type t') = get_nullable_type t'
  /\ get_named_type (get_nullable_type t') = get_named_type t'
  /\ succeeded (new_GraphQLNonNull t') = false.
Proof.
  unfold new_GraphQLNonNull. destruct t; simpl; try discriminate;
    intros [= <-]; repeat split; discriminate.
Qed.

Lemma get_nullable_type_undoes_non_null_witness :
  get_nullable_type (GraphQLNonNull (GraphQLList GraphQLString)) = GraphQLList GraphQLString
  /\ succeeded (new_GraphQLNonNull (GraphQLNonNull (GraphQLList GraphQLString))) = false.
Proof.
  destruct (get_nullable_type_undoes_non_null (GraphQLList GraphQLString)
              (GraphQLNonNull (GraphQLList GraphQLString)) eq_refl)
    as (_ & _ & Hback & _ & _ & Hreject).
  split; [exact Hback|exact Hreject].
Defined.

(** ** Structural equality is an equivalence *)

Lemma is_same_type_refl t : is_same_type t t = true.
Proof.
  induction t; simpl; auto; unfold base_is_same_type; simpl;
    by rewrite !bool_decide_eq_true_2.
Qed.

Lemma is_same_type_data a b :
  is_same_type a b = true ->
  class_of a = class_of b /\ type_str a = type_str b
  /\ class_of (get_named_type a) = class_of (get_named_type b).
Proof.
  revert b. induction a as [| | | | | |a IH|a IH]; intros b H;
    try (apply is_same_type_named in H as [Hc Hn]; [|done];
         destruct b; simpl in *; try discriminate; by injection Hn as ->).
  - destruct b; simpl in H; try discriminate.
    destruct (IH _ H) as (_ & Hs & Hn). simpl. by rewrite Hs, Hn.
  - destruct b; simpl in H; try discriminate.
    destruct (IH _ H) as (_ & Hs & Hn). simpl. by rewrite Hs, Hn.
Qed.

Lemma is_same_type_sym a b : is_same_type a b = true -> is_same_type b a = true.
Proof.
  revert b. induction a as [| | | | | |a IH|a IH]; intros b H;
    try (apply is_same_type_named in H as [Hc Hn]; [|done];
         destruct b; simpl in *; try discriminate; injection Hn as ->;
         unfold base_is_same_type; simpl; by rewrite !bool_decide_eq_true_2).
  - destruct b; simpl in *; try discriminate. by apply IH.
  - destruct b; simpl in *; try discriminate. by apply IH.
Qed.

Lemma is_same_type_trans a b c :
  is_same_type a b = true -> is_same_type b c = true -> is_same_type a c = true.
Proof.
  revert b c. induction a as [| | | | | |a IH|a IH]; intros b c Hab Hbc;
    try (apply is_same_type_named in Hab as [Hc Hn]; [|done];
         destruct b; try discriminate Hc; simpl in Hn; injection Hn as ->;
         apply is_same_type_named in Hbc as [Hc' Hn']; [|done];
         apply is_same_type_named; [done|]; by rewrite <- Hc', <- Hn').
  - destruct b; simpl in Hab; try discriminate.
    destruct c; simpl in Hbc; try discriminate. simpl. by eapply IH.
  - destruct b; simpl in Hab; try discriminate.
    destruct c; simpl in Hbc; try discriminate. simpl. by eapply IH.
Qed.

(** X4: [is_same_type] is an equivalence on types (reflexive, symmetric
    although it dispatches on its first argument, transitive), and types it
    equates render to the same string and are classified alike as input and
    as output types. *)
Theorem is_same_type_equivalence :
  (forall t, is_same_type t t = true)
  /\ (forall a b, is_same_type a b = true -> is_same_type b a = true)
  /\ (forall a b c, is_same_type a b = true -> is_same_type b c = true ->
                    is_same_type a c = true)
  /\ (forall a b, is_same_type a b = true ->
                  type_str a = type_str b
                  /\ is_input_type a = is_input_type b
                  /\ is_output_type a = is_output_type b).
Proof.
  split; [apply is_same_type_refl|]. split; [apply is_same_type_sym|].
  split; [apply is_same_type_trans|].
  intros a b (_ & Hstr & Hcls)%is_same_type_data. split; [done|].
  unfold is_input_type, is_output_type, isinstance. by rewrite Hcls.
Qed.

Lemma is_same_type_equivalence_witness :
  is_same_type (GraphQLList (GraphQLScalarType 2 "String"))
    (GraphQLList (GraphQLScalarType 1 "String")) = true.
Proof.
  apply (proj1 (proj2 is_same_type_equivalence)). reflexivity.
Defined.

(** ** Scalar methods *)

(** X5: on a scalar that construction accepted, no method raises.
    [serialize] applies the callable that was supplied.  [parse_value] and
    [parse_literal] each apply what was supplied when it is a function, and
    return [None] when it is [None] or another object that tests false, even
    a callable one; a truthy object that is not callable cannot be there,
    since when either of the pair is truthy the constructor has checked that
    both are callable. *)
Theorem constructed_scalar_methods name description serialize parse_value parse_literal self :
  GraphQLScalarType_init name description serialize parse_value parse_literal = Ok self ->
  (exists f, (serialize = PyCallable f \/ serialize = PyFalsyCallable f)
             /\ forall value, scalar_serialize self value = Ok (f value))
  /\ (forall value,
        scalar_parse_value self value
        = Ok (match parse_value with PyCallable g => g value | _ => VNone end))
  /\ (forall value_ast,
        scalar_parse_literal self value_ast
        = Ok (match parse_literal with PyCallable h => h value_ast | _ => VNone end))
  /\ (truthy parse_value || truthy parse_literal = true ->
      callable parse_value = true /\ callable parse_literal = true).
Proof.
  unfold GraphQLScalarType_init. destruct (assert_named name); [|discriminate].
  destruct (callable serialize) eqn:Hs; [|discriminate]. cbn [negb].
  destruct ((truthy parse_value || truthy parse_literal)
            && negb (callable parse_value && callable parse_literal)) eqn:Hpair;
    [discriminate|].
  intros [= <-]. unfold scalar_serialize, scalar_parse_value, scalar_parse_literal.
  cbn [s_serialize s_parse_value s_parse_literal]. split; [|split; [|split]].
  - destruct serialize as [|f|f|b]; try discriminate; exists f; eauto.
  - intros value. destruct parse_value as [|g|g|[]]; try done;
      simpl in Hpair; discriminate.
  - intros value_ast. destruct parse_literal as [|g|g|[]]; try done;
      rewrite orb_true_r in Hpair; simpl in Hpair;
      by rewrite andb_false_r in Hpair.
  - intros Ht. rewrite Ht in Hpair. simpl in Hpair.
    by destruct (callable parse_value), (callable parse_literal).
Qed.

Lemma constructed_scalar_methods_witness :
  (exists self,
     GraphQLScalarType_init "Odd" None (PyCallable id) PyNone PyNone = Ok self
     /\ scalar_serialize self (VInt 3) = Ok (VInt 3)
     /\ scalar_parse_value self (VInt 3) = Ok VNone)
  /\ (exists self,
        GraphQLScalarType_init "Odd" None (PyCallable id) (PyFalsyCallable id)
          (PyCallable (fun _ => VInt 1)) = Ok self
        /\ scalar_parse_value self (VInt 3) = Ok VNone
        /\ scalar_parse_literal self AstOther = Ok (VInt 1)).
Proof.
  split.
  - eexists. split; [reflexivity|].
    destruct (constructed_scalar_methods "Odd" None (PyCallable id) PyNone PyNone _ eq_refl)
      as ((f & Hf & Hser) & Hpv & _).
    split; [|apply Hpv]. rewrite Hser. by destruct Hf as [[= <-]|[=]].
  - eexists. split; [reflexivity|].
    destruct (constructed_scalar_methods "Odd" None (PyCallable id) (PyFalsyCallable id)
                (PyCallable (fun _ => VInt 1)) _ eq_refl) as (_ & Hpv & Hpl & _).
    split; [apply Hpv|apply Hpl].
Defined.

(** ** Union construction *)

Lemma union_types_loop_Ok name resolve_type types checked :
  union_types_loop name resolve_type types = Ok checked
  <-> types = MemberObject <$> checked
      /\ (callable resolve_type = true
          \/ forall o, o ∈ checked -> callable (o_is_type_of o) = true).
Proof.
  split.
  - revert checked. induction types as [|[o|r] rest IH]; intros checked; simpl.
    + intros [= <-]. split; [done|]. right. intros o Ho. by apply elem_of_nil in Ho.
    + destruct (negb (callable resolve_type) && negb (callable (o_is_type_of o))) eqn:E;
        [discriminate|].
      destruct (union_types_loop name resolve_type rest) as [checked'|]; [|discriminate].
      intros [= <-]. destruct (IH checked' eq_refl) as [-> Hcap]. split; [done|].
      destruct (callable resolve_type); [by left|]. right.
      intros o' [->|Ho']%elem_of_cons.
      * simpl in E. by destruct (callable (o_is_type_of o)).
      * destruct Hcap as [?|Hcap]; [done|]. by apply Hcap.
    + discriminate.
  - intros [-> Hcap]. by apply union_types_loop_ok.
Qed.

(** X6: the union constructor succeeds exactly when the name is valid, the
    resolver is a function or falsy, the member list is non-empty and holds
    only object types, and either the resolver is a function or every member
    has an [is_type_of] function; the union then keeps the name, the resolver
    and the members in the order given. *)
Theorem union_construction_spec name types resolve_type description self :
  GraphQLUnionType_init name types resolve_type description = Ok self
  <-> assert_named name = Ok tt
      /\ (truthy resolve_type = true -> callable resolve_type = true)
      /\ types ≠ []
      /\ types = MemberObject <$> u_types self
      /\ (callable resolve_type = true
          \/ forall o, o ∈ u_types self -> callable (o_is_type_of o) = true)
      /\ self = mkUnionType name description resolve_type (u_types self) None.
Proof.
  unfold GraphQLUnionType_init. split.
  - destruct (assert_named name) as [[]|]; [|discriminate].
    destruct (truthy resolve_type && negb (callable resolve_type)) eqn:E; [discriminate|].
    destruct types as [|m rest]; [discriminate|].
    destruct (union_types_loop name resolve_type (m :: rest)) as [checked|] eqn:Hloop;
      [|discriminate].
    intros [= <-]. apply union_types_loop_Ok in Hloop as [Heq Hcap]. simpl.
    split; [done|]. split.
    { intros Ht. rewrite Ht in E. by destruct (callable resolve_type). }
    split; [done|]. done.
  - intros (-> & Hr & Hne & Htypes & Hcap & Hself).
    assert (truthy resolve_type && negb (callable resolve_type) = false) as ->.
    { destruct (truthy resolve_type); [|done]. by rewrite Hr. }
    assert (union_types_loop name resolve_type types = Ok (u_types self)) as Hloop
      by (by apply union_types_loop_Ok).
    destruct types; [done|]. rewrite Hloop. by rewrite Hself at 2.
Qed.

Lemma union_construction_spec_witness :
  GraphQLUnionType_init "Pet" [MemberObject DogType; MemberObject CatType] PyNone None
  = Ok PetType.
Proof.
  apply union_construction_spec. split; [reflexivity|]. split; [discriminate|].
  split; [discriminate|]. split; [reflexivity|]. split; [|reflexivity].
  right. intros o Ho.
  apply elem_of_cons in Ho as [->|Ho]; [reflexivity|].
  apply elem_of_cons in Ho as [->|Ho]; [reflexivity|]. by apply elem_of_nil in Ho.
Defined.

(** ** Enum construction *)

Lemma assert_valid_name_Ok name : assert_valid_name name = Ok tt <-> NAME_PATTERN_match name = true.
Proof. unfold assert_valid_name. by destruct (NAME_PATTERN_match name). Qed.

Lemma define_enum_values_loop_names type items :
  forall values h vs h',
    define_enum_values_loop type items values h = (Ok vs, h') ->
    forall k l, (k, l) ∈ items -> NAME_PATTERN_match k = true.
Proof.
  induction items as [|[k0 l0] rest IH]; intros values h vs h' Hrun k l Hin.
  - by apply elem_of_nil in Hin.
  - cbn [define_enum_values_loop] in Hrun.
    apply bind_Ok_inv in Hrun as ([] & h0 & Hname & Hrun).
    apply lift_result_Ok_inv in Hname as [Hname ->].
    apply bind_Ok_inv in Hrun as (o & h0 & Hderef & Hrun).
    apply deref_Ok_inv in Hderef as [Hl0 ->].
    destruct o as [v0| | | |]; try discriminate.
    apply bind_Ok_inv in Hrun as ([] & h1 & Hstore & Hrun).
    apply elem_of_cons in Hin as [[= -> ->]|Hin].
    + by apply assert_valid_name_Ok.
    + by eapply IH.
Qed.

Lemma define_enum_values_loop_succeeds type items :
  forall values h,
    (forall k l, (k, l) ∈ items ->
       NAME_PATTERN_match k = true /\ exists v, objs h !! l = Some (EnumValueObj v)) ->
    exists vs h', define_enum_values_loop type items values h = (Ok vs, h').
Proof.
  induction items as [|[k0 l0] rest IH]; intros values h Hok.
  - by eexists _, _.
  - cbn [define_enum_values_loop].
    destruct (Hok k0 l0 ltac:(left)) as [Hname [v0 Hl0]].
    apply assert_valid_name_Ok in Hname.
    rewrite (bind_Ok _ _ h tt h) by (unfold lift_result; by rewrite Hname).
    rewrite (bind_Ok _ _ h (EnumValueObj v0) h) by (unfold deref; by rewrite Hl0).
    cbv beta iota.
    rewrite (bind_Ok _ _ h tt
               (mkHeap (<[l0 := EnumValueObj (set_ev_name k0 v0)]> (objs h)) (next_id h)))
      by done.
    apply IH. intros k l Hin. destruct (Hok k l ltac:(by right)) as [Hk [v Hl]].
    split; [done|]. simpl. destruct (decide (l0 = l)) as [->|Hne].
    + rewrite lookup_insert_eq. eauto.
    + rewrite lookup_insert_ne by done. eauto.
Qed.

(** X7: construction of an enum type from a dict of values succeeds exactly
    when the enum's name is valid, the dict is not empty, every key is a valid
    name and every value is a [GraphQLEnumValue] object. *)
Theorem enum_construction_spec name items description h :
  (exists self h', GraphQLEnumType_init name (PyDict items) description h = (Ok self, h'))
  <-> NAME_PATTERN_match name = true
      /\ items ≠ []
      /\ forall k l, (k, l) ∈ items ->
           NAME_PATTERN_match k = true /\ exists v, objs h !! l = Some (EnumValueObj v).
Proof.
  split.
  - intros (self & h' & Hinit). pose proof Hinit as Hrun.
    unfold GraphQLEnumType_init in Hrun.
    apply bind_Ok_inv in Hrun as ([] & h0 & Hname & Hrun).
    apply lift_result_Ok_inv in Hname as [Hname ->].
    apply assert_valid_name_Ok in Hname. split; [done|].
    apply GraphQLEnumType_init_Ok_inv in Hinit.
    pose proof Hinit as (_ & _ & _ & Hobjs)%define_enum_values_spec.
    unfold define_enum_values in Hinit.
    apply bind_Ok_inv in Hinit as ([] & h1 & Hlen & Hloop).
    apply py_assert_Ok_inv in Hlen as [Hlen ->].
    split; [by destruct items|].
    intros k l Hin. split; [by eapply define_enum_values_loop_names|].
    destruct (Hobjs l) as (v & _ & Hv & _); [|eauto].
    apply list_elem_of_fmap. by exists (k, l).
  - intros (Hname & Hne & Hok).
    destruct (define_enum_values_loop_succeeds name items [] h Hok) as (vs & h' & Hloop).
    exists (mkEnumType name description vs None), h'.
    unfold GraphQLEnumType_init. apply assert_valid_name_Ok in Hname.
    rewrite (bind_Ok _ _ h tt h) by (unfold lift_result; by rewrite Hname).
    assert (define_enum_values name (PyDict items) h = (Ok vs, h')) as Hdef.
    { unfold define_enum_values. destruct items; [done|].
      by rewrite (bind_Ok _ _ h tt h). }
    by rewrite (bind_Ok _ _ _ _ _ Hdef).
Qed.

Lemma enum_construction_spec_witness :
  exists self h',
    GraphQLEnumType_init "RGB" (PyDict [("RED", 0)]) None
      (snd (GraphQLEnumValue_init VNone None None empty_heap))
    = (Ok self, h').
Proof.
  apply enum_construction_spec. split; [reflexivity|]. split; [discriminate|].
  intros k l Hin. apply list_elem_of_singleton in Hin. injection Hin as -> ->.
  split; [reflexivity|]. by eexists.
Defined.

(** ** Enum values: serialising and parsing *)

(** Induction on a value with the hypothesis for every item of a list or
    tuple. *)
Lemma pyvalue_nested_ind (P : pyvalue -> Prop) :
  P VNone ->
  (forall b, P (VBool b)) ->
  (forall n, P (VInt n)) ->
  (forall s, P (VStr s)) ->
  (forall items, Forall P items -> P (VList items)) ->
  (forall items, Forall P items -> P (VTuple items)) ->
  forall v, P v.
Proof.
  intros HN HB HI HS HL HT. fix go 1. intros [|b|n|s|items|items].
  - exact HN.
  - apply HB.
  - apply HI.
  - apply HS.
  - apply HL. induction items as [|x xs IH]; constructor; [apply go|exact IH].
  - apply HT. induction items as [|x xs IH]; constructor; [apply go|exact IH].
Qed.

Lemma all2_refl {A} (f : A -> A -> bool) xs :
  Forall (fun x => f x x = true) xs -> all2 f xs xs = true.
Proof. induction 1 as [|x xs Hx _ IH]; simpl; [done|]. by rewrite Hx, IH. Qed.

Lemma all2_cong {A} (f : A -> A -> bool) xs :
  Forall (fun x => forall b c, f x b = true -> f x c = f b c) xs ->
  forall ys zs, all2 f xs ys = true -> all2 f xs zs = all2 f ys zs.
Proof.
  induction 1 as [|x xs Hx _ IH]; intros [|y ys] zs; simpl; try discriminate; [done|].
  intros [Hxy Hrest]%andb_true_iff. destruct zs as [|z zs]; [done|].
  by rewrite (Hx y z Hxy), (IH ys zs Hrest).
Qed.

Lemma py_eqb_refl a : py_eqb a a = true.
Proof.
  induction a as [|[]|n|s|items IH|items IH] using pyvalue_nested_ind; simpl; auto.
  - apply Z.eqb_refl.
  - by apply bool_decide_eq_true_2.
  - by apply all2_refl.
  - by apply all2_refl.
Qed.

Lemma py_eqb_cong a b c : py_eqb a b = true -> py_eqb a c = py_eqb b c.
Proof.
  revert b c.
  induction a as [|x|x|x|xs IH|xs IH] using pyvalue_nested_ind;
    intros [|y|y|y|ys|ys] c; simpl; try discriminate; intros H;
    destruct c as [|z|z|z|zs|zs]; simpl; try done;
    try (by apply all2_cong);
    repeat match goal with b : bool |- _ => destruct b end; simpl in *;
    try discriminate;
    try (apply Z.eqb_eq in H; subst);
    try (apply bool_decide_eq_true in H; subst);
    try done; try apply Z.eqb_sym; try (symmetry; apply Z.eqb_sym).
Qed.

Lemma hash_ok_is_hashable v : hash_ok v = true -> is_hashable v = true.
Proof. by destruct v. Qed.

Lemma dict_get_set k k' v d :
  dict_get k (dict_set k' v d) = if py_eqb k' k then Some v else dict_get k d.
Proof.
  induction d as [|[k0 v0] rest IH]; simpl; [done|].
  destruct (py_eqb k0 k') eqn:E; simpl.
  - rewrite (py_eqb_cong _ _ k E). by destruct (py_eqb k' k).
  - rewrite IH. destruct (py_eqb k0 k) eqn:E0; [|done].
    destruct (py_eqb k' k) eqn:E1; [|done].
    rewrite (py_eqb_cong _ _ k' E0) in E. 
    assert (py_eqb k k' = true) as Hsym.
    { rewrite <- (py_eqb_cong _ _ k' E1). apply py_eqb_refl. }
    congruence.
Qed.

Lemma name_lookup_loop_spec items :
  forall acc h,
    (forall k l, (k, l) ∈ items ->
       exists v, objs h !! l = Some (EnumValueObj v) /\ ev_name v = Some k) ->
    name_lookup_loop items.*2 acc h
    = (Ok (foldl (fun m p => <[p.1 := p.2]> m) acc items), h).
Proof.
  induction items as [|[k0 l0] rest IH]; intros acc h Hnamed; [done|].
  rewrite fmap_cons. cbn [name_lookup_loop foldl fst snd].
  destruct (Hnamed k0 l0 ltac:(left)) as (v0 & Hl0 & Hn0).
  rewrite (bind_Ok _ _ h (EnumValueObj v0) h) by (unfold deref; by rewrite Hl0).
  cbv beta iota. rewrite Hn0. apply IH. intros k l Hin. apply Hnamed. by right.
Qed.

Lemma foldl_insert_notin (items : list (string * oid)) :
  forall (acc : gmap string oid) k,
    k ∉ items.*1 -> foldl (fun m p => <[p.1 := p.2]> m) acc items !! k = acc !! k.
Proof.
  induction items as [|[k0 l0] rest IH]; intros acc k Hk; [done|].
  rewrite fmap_cons in Hk. apply not_elem_of_cons in Hk as [Hne Hk].
  cbn [foldl]. rewrite IH by done. simpl. by rewrite lookup_insert_ne.
Qed.

Lemma foldl_insert_lookup (items : list (string * oid)) :
  forall (acc : gmap string oid) k l,
    NoDup items.*1 -> (k, l) ∈ items ->
    foldl (fun m p => <[p.1 := p.2]> m) acc items !! k = Some l.
Proof.
  induction items as [|[k0 l0] rest IH]; intros acc k l Hnodup Hin.
  - by apply elem_of_nil in Hin.
  - rewrite fmap_cons in Hnodup. apply NoDup_cons in Hnodup as [Hk0 Hnodup].
    cbn [foldl]. apply elem_of_cons in Hin as [[= -> ->]|Hin].
    + rewrite foldl_insert_notin by done. simpl. apply lookup_insert_eq.
    + by apply IH.
Qed.

(** The lookup is built when the hash of every internal value can be
    taken. *)
Lemma value_lookup_loop_spec ls :
  forall acc h,
    (forall l, l ∈ ls -> exists v, objs h !! l = Some (EnumValueObj v)) ->
    (forall l, l ∈ ls -> hash_ok (enum_value_at h l) = true) ->
    value_lookup_loop ls acc h
    = (Ok (foldl (fun d l => dict_set (enum_value_at h l) l d) acc ls), h).
Proof.
  induction ls as [|l0 rest IH]; intros acc h Hobjs Hhash; [done|].
  cbn [value_lookup_loop foldl].
  destruct (Hobjs l0 ltac:(left)) as (v0 & Hl0).
  pose proof (Hhash l0 ltac:(left)) as Hh0.
  rewrite (bind_Ok _ _ h (EnumValueObj v0) h) by (unfold deref; by rewrite Hl0).
  cbv beta iota. unfold enum_value_at in Hh0 |- * at 2. rewrite Hl0 in Hh0 |- *.
  rewrite (bind_Ok _ _ h (dict_set (ev_value v0) l0 acc) h)
    by (unfold lift_result, dict_setitem; by rewrite Hh0).
  apply IH; intros l Hin; [apply Hobjs|apply Hhash]; by right.
Qed.

(** Building the lookup raises [TypeError] at the first internal value
    whose hash cannot be taken. *)
Lemma value_lookup_loop_unhashable ls :
  forall acc h,
    (forall l, l ∈ ls -> exists v, objs h !! l = Some (EnumValueObj v)) ->
    (exists l, l ∈ ls /\ hash_ok (enum_value_at h l) = false) ->
    value_lookup_loop ls acc h = (Raise unhashable_message, h).
Proof.
  induction ls as [|l0 rest IH]; intros acc h Hobjs (l & Hl & Hbad).
  - by apply elem_of_nil in Hl.
  - cbn [value_lookup_loop].
    destruct (Hobjs l0 ltac:(left)) as (v0 & Hl0).
    rewrite (bind_Ok _ _ h (EnumValueObj v0) h) by (unfold deref; by rewrite Hl0).
    cbv beta iota. unfold lift_result at 1, dict_setitem.
    destruct (hash_ok (ev_value v0)) eqn:Hh0.
    + unfold bind at 1. apply IH; [intros l' Hl'; apply Hobjs; by right|].
      apply elem_of_cons in Hl as [->|Hl]; [|eauto].
      unfold enum_value_at in Hbad. rewrite Hl0 in Hbad. congruence.
    + reflexivity.
Qed.

Lemma dict_get_foldl_notin h ls :
  forall acc k,
    (forall l, l ∈ ls -> py_eqb (enum_value_at h l) k = false) ->
    dict_get k (foldl (fun d l => dict_set (enum_value_at h l) l d) acc ls)
    = dict_get k acc.
Proof.
  induction ls as [|l0 rest IH]; intros acc k Hne; [done|].
  cbn [foldl]. rewrite IH by (intros l Hl; apply Hne; by right).
  rewrite dict_get_set. by rewrite (Hne l0 ltac:(left)).
Qed.

Lemma dict_get_foldl h ls :
  forall acc i l,
    ls !! i = Some l ->
    (forall j l', ls !! j = Some l' -> j ≠ i ->
                  py_eqb (enum_value_at h l') (enum_value_at h l) = false) ->
    dict_get (enum_value_at h l)
      (foldl (fun d l => dict_set (enum_value_at h l) l d) acc ls)
    = Some l.
Proof.
  induction ls as [|l0 rest IH]; intros acc i l Hi Hne; [done|].
  cbn [foldl]. destruct i as [|i]; simpl in Hi.
  - injection Hi as ->. rewrite dict_get_foldl_notin.
    + rewrite dict_get_set. by rewrite py_eqb_refl.
    + intros l' Hl'. apply list_elem_of_lookup in Hl' as [j Hj].
      apply (Hne (S j)); [done|lia].
  - apply (IH _ i); [done|]. intros j l' Hj Hji. apply (Hne (S j)); [done|lia].
Qed.

Lemma GraphQLEnumType_init_shape name items description h self h' :
  GraphQLEnumType_init name (PyDict items) description h = (Ok self, h') ->
  self = mkEnumType name description items.*2 None.
Proof.
  intros Hinit. pose proof Hinit as Hrun. unfold GraphQLEnumType_init in Hrun.
  apply bind_Ok_inv in Hrun as ([] & h0 & Hname & Hrun).
  apply lift_result_Ok_inv in Hname as [_ ->].
  apply bind_Ok_inv in Hrun as (vs & h1 & Hdef & Hret).
  injection Hret as <- <-.
  by apply define_enum_values_spec in Hdef as (-> & _).
Qed.

(** After construction every listed object is an enum value that bears
    one of the keys and keeps its internal value. *)
Lemma enum_constructed_objects name items description h self h' l :
  GraphQLEnumType_init name (PyDict items) description h = (Ok self, h') ->
  l ∈ items.*2 ->
  exists e k, objs h' !! l = Some (EnumValueObj e)
              /\ ev_name e = Some k /\ k ∈ items.*1
              /\ (NoDup items.*2 -> (k, l) ∈ items)
              /\ enum_value_at h' l = enum_value_at h l.
Proof.
  intros Hinit%GraphQLEnumType_init_Ok_inv Hl.
  apply define_enum_values_spec in Hinit as (_ & _ & _ & Hnames).
  destruct (Hnames l Hl) as (v & k & Hv & Hk & Hv').
  apply last_key_Some in Hk as (n & Hn & _).
  exists (set_ev_name k v), k. split; [done|]. split; [done|].
  assert ((k, l) ∈ items) as Hin by (by eapply list_elem_of_lookup_2).
  split; [apply list_elem_of_fmap; by exists (k, l)|]. split; [done|].
  unfold enum_value_at. by rewrite Hv, Hv'.
Qed.

(** On a constructed enum whose internal values can all be hashed,
    [_get_value_lookup] builds the lookup, entry after entry, and stores it
    in the attribute. *)
Lemma enum_value_lookup_built name items description h self h' :
  GraphQLEnumType_init name (PyDict items) description h = (Ok self, h') ->
  (forall l, l ∈ items.*2 -> hash_ok (enum_value_at h l) = true) ->
  _get_value_lookup self (h', None)
  = (Ok (value_lookup_of h' items.*2), (h', Some (value_lookup_of h' items.*2))).
Proof.
  intros Hinit Hhash.
  pose proof (fun l => enum_constructed_objects _ _ _ _ _ _ l Hinit) as Hobjs.
  pose proof (GraphQLEnumType_init_shape _ _ _ _ _ _ Hinit) as ->.
  unfold _get_value_lookup, get_values, bind, get_value_lookup_attr, with_heap,
    set_value_lookup_attr, ret. simpl.
  rewrite value_lookup_loop_spec; [done| |].
  - intros l' Hl'. destruct (Hobjs l' Hl') as (e' & k' & He' & _). eauto.
  - intros l' Hl'. destruct (Hobjs l' Hl') as (_ & _ & _ & _ & _ & _ & ->).
    by apply Hhash.
Qed.

(** On a constructed enum with an internal value whose hash cannot be
    taken, [_get_value_lookup] raises [TypeError] and the attribute stays
    [None]. *)
Lemma enum_value_lookup_fails name items description h self h' :
  GraphQLEnumType_init name (PyDict items) description h = (Ok self, h') ->
  (exists l, l ∈ items.*2 /\ hash_ok (enum_value_at h l) = false) ->
  _get_value_lookup self (h', None) = (Raise unhashable_message, (h', None)).
Proof.
  intros Hinit (l & Hl & Hbad).
  pose proof (fun l => enum_constructed_objects _ _ _ _ _ _ l Hinit) as Hobjs.
  pose proof (GraphQLEnumType_init_shape _ _ _ _ _ _ Hinit) as ->.
  unfold _get_value_lookup, get_values, bind, get_value_lookup_attr, with_heap,
    set_value_lookup_attr, ret. simpl.
  rewrite value_lookup_loop_unhashable; [done| |].
  - intros l' Hl'. destruct (Hobjs l' Hl') as (e' & k' & He' & _). eauto.
  - exists l. split; [done|].
    destruct (Hobjs l Hl) as (_ & _ & _ & _ & _ & _ & ->). done.
Qed.

(** Once the attribute holds the lookup, [_get_value_lookup] returns it. *)
Lemma enum_value_lookup_cached self h lookup :
  _get_value_lookup self (h, Some lookup) = (Ok lookup, (h, Some lookup)).
Proof. reflexivity. Qed.

(** [serialize] of a value that the lookup maps to a named entry. *)
Lemma enum_serialize_found self value s lookup h l e k :
  hash_ok value = true ->
  _get_value_lookup self s = (Ok lookup, (h, Some lookup)) ->
  dict_get value lookup = Some l ->
  objs h !! l = Some (EnumValueObj e) ->
  ev_name e = Some k ->
  enum_serialize self value s = (Ok (VStr k), (h, Some lookup)).
Proof.
  intros Hhash Hvl Hget He Hname. unfold enum_serialize.
  rewrite (hash_ok_is_hashable _ Hhash). rewrite (bind_Ok _ _ _ _ _ Hvl).
  unfold dict_get_method. rewrite Hhash, Hget.
  rewrite (bind_Ok _ _ _ (Some l) (h, Some lookup)) by done. cbv beta iota.
  rewrite (bind_Ok _ _ _ (EnumValueObj e) (h, Some lookup))
    by (unfold with_heap, deref; simpl; by rewrite He).
  simpl. by rewrite Hname.
Qed.

(** [serialize] of a value that the lookup does not hold. *)
Lemma enum_serialize_missing self value s lookup s' :
  hash_ok value = true ->
  _get_value_lookup self s = (Ok lookup, s') ->
  dict_get value lookup = None ->
  enum_serialize self value s = (Ok VNone, s').
Proof.
  intros Hhash Hvl Hget. unfold enum_serialize.
  rewrite (hash_ok_is_hashable _ Hhash). rewrite (bind_Ok _ _ _ _ _ Hvl).
  unfold dict_get_method. rewrite Hhash, Hget.
  by rewrite (bind_Ok _ _ _ None s').
Qed.

(** After construction from entries with pairwise different internal
    values, every entry bears its own key and keeps its value. *)
Lemma enum_constructed_entries name items description h self h' :
  GraphQLEnumType_init name (PyDict items) description h = (Ok self, h') ->
  (forall i j ki li kj lj,
     items !! i = Some (ki, li) -> items !! j = Some (kj, lj) -> i ≠ j ->
     py_eqb (enum_value_at h li) (enum_value_at h lj) = false) ->
  forall k l, (k, l) ∈ items ->
    exists e, objs h' !! l = Some (EnumValueObj e)
              /\ ev_name e = Some k
              /\ ev_value e = enum_value_at h l
              /\ enum_value_at h' l = enum_value_at h l.
Proof.
  intros Hinit%GraphQLEnumType_init_Ok_inv Hdistinct k l Hin.
  apply define_enum_values_spec in Hinit as (_ & _ & _ & Hnames).
  destruct (Hnames l) as (v & k' & Hv & Hk' & Hv').
  { apply list_elem_of_fmap. by exists (k, l). }
  apply last_key_Some in Hk' as (n & Hn & _).
  apply list_elem_of_lookup in Hin as [m Hm].
  assert (n = m) as ->.
  { destruct (decide (n = m)) as [|Hne]; [done|].
    pose proof (Hdistinct n m _ _ _ _ Hn Hm Hne) as Hfalse.
    by rewrite py_eqb_refl in Hfalse. }
  rewrite Hn in Hm. injection Hm as ->.
  exists (set_ev_name k v). split; [done|]. split; [done|].
  unfold enum_value_at. by rewrite Hv, Hv'.
Qed.

(** X9: serialising and parsing are inverse on an enum whose entries have
    internal values that can be hashed and are pairwise different (under
    Python's [==]).  For every entry, [serialize] and [parse_value] of its
    internal value return its name, building the lookup at the first call
    and answering from it afterwards, and [parse_literal] of its name returns
    its internal value; the heap is only read. *)
Theorem enum_serialize_parse_round_trip name items description h self h' :
  GraphQLEnumType_init name (PyDict items) description h = (Ok self, h') ->
  NoDup items.*1 ->
  (forall l, l ∈ items.*2 -> hash_ok (enum_value_at h l) = true) ->
  (forall i j ki li kj lj,
     items !! i = Some (ki, li) -> items !! j = Some (kj, lj) -> i ≠ j ->
     py_eqb (enum_value_at h li) (enum_value_at h lj) = false) ->
  forall k l, (k, l) ∈ items ->
    (exists lookup,
       enum_serialize self (enum_value_at h l) (h', None)
       = (Ok (VStr k), (h', Some lookup))
       /\ enum_parse_value self (enum_value_at h l) (h', None)
          = (Ok (VStr k), (h', Some lookup))
       /\ enum_serialize self (enum_value_at h l) (h', Some lookup)
          = (Ok (VStr k), (h', Some lookup)))
    /\ (exists self',
          parse_literal self (AstEnumValue k) h' = (Ok (enum_value_at h l, self'), h')).
Proof.
  intros Hinit Hnodup Hhash Hdistinct k l Hin.
  pose proof (enum_constructed_entries _ _ _ _ _ _ Hinit Hdistinct) as Hentries.
  pose proof (enum_value_lookup_built _ _ _ _ _ _ Hinit Hhash) as Hvl.
  pose proof (GraphQLEnumType_init_shape _ _ _ _ _ _ Hinit) as ->.
  destruct (Hentries k l Hin) as (e & He & Hname & Hvalue & Hsame).
  set (self := mkEnumType name description items.*2 None) in *.
  set (lookup := value_lookup_of h' items.*2) in *.
  assert (hash_ok (enum_value_at h l) = true) as Hl.
  { apply Hhash, list_elem_of_fmap. by exists (k, l). }
  assert (dict_get (enum_value_at h l) lookup = Some l) as Hget.
  { rewrite <- Hsame. apply list_elem_of_lookup in Hin as [i Hi].
    apply (dict_get_foldl h' items.*2 [] i l).
    - by rewrite list_lookup_fmap, Hi.
    - intros j l' Hj Hji. rewrite list_lookup_fmap in Hj.
      destruct (items !! j) as [[kj lj]|] eqn:Hjj; [|done]. injection Hj as <-.
      destruct (Hentries kj lj) as (_ & _ & _ & _ & ->).
      { by eapply list_elem_of_lookup_2. }
      rewrite Hsame. by eapply Hdistinct. }
  split.
  { exists lookup. split; [|split].
    - by eapply enum_serialize_found.
    - by eapply enum_serialize_found.
    - by eapply enum_serialize_found. }
  set (names := foldl (fun m p => <[p.1 := p.2]> m) (∅ : gmap string oid) items).
  assert (_get_name_lookup self h'
          = (Ok (names, mkEnumType name description items.*2 (Some names)), h')) as Hnl.
  { unfold _get_name_lookup, get_values. simpl.
    rewrite (bind_Ok _ _ h' names h'); [done|].
    apply name_lookup_loop_spec.
    intros k' l' Hp. destruct (Hentries k' l' Hp) as (e' & He' & Hn' & _). eauto. }
  eexists. unfold parse_literal. rewrite (bind_Ok _ _ _ _ _ Hnl). cbv beta iota.
  unfold names. rewrite foldl_insert_lookup with (l := l) by done.
  rewrite (bind_Ok _ _ h' (EnumValueObj e) h') by (unfold deref; by rewrite He).
  simpl. by rewrite Hvalue.
Qed.

Lemma rgb_values_hashable l :
  l ∈ rgb_items.*2 -> hash_ok (enum_value_at rgb_values_heap l) = true.
Proof.
  intros Hl.
  apply elem_of_cons in Hl as [->|Hl]; [reflexivity|].
  apply elem_of_cons in Hl as [->|Hl]; [reflexivity|].
  apply elem_of_cons in Hl as [->|Hl]; [reflexivity|]. by apply elem_of_nil in Hl.
Qed.

Lemma enum_serialize_parse_round_trip_witness :
  exists self h' lookup self',
    GraphQLEnumType_init "RGB" (PyDict rgb_items) None rgb_values_heap = (Ok self, h')
    /\ enum_serialize self (VInt 1) (h', None) = (Ok (VStr "GREEN"), (h', Some lookup))
    /\ parse_literal self (AstEnumValue "GREEN") h' = (Ok (VInt 1, self'), h').
Proof.
  assert (exists self h',
            GraphQLEnumType_init "RGB" (PyDict rgb_items) None rgb_values_heap
            = (Ok self, h')) as (self & h' & Hinit)
    by (do 2 eexists; vm_compute; reflexivity).
  destruct (enum_serialize_parse_round_trip "RGB" rgb_items None rgb_values_heap
              self h' Hinit) with (k := "GREEN") (l := 1)
    as [(lookup & Hser & _) (self' & Hparse)].
  - apply (bool_decide_unpack _). reflexivity.
  - exact rgb_values_hashable.
  - intros i j ki li kj lj Hi Hj Hne.
    destruct i as [|[|[|i]]]; simpl in Hi; try discriminate; injection Hi as <- <-;
      destruct j as [|[|[|j]]]; simpl in Hj; try discriminate; injection Hj as <- <-;
      try done.
  - right. left.
  - exists self, h', lookup, self'. split; [done|]. split; [exact Hser|exact Hparse].
Defined.

(** ** Registration of implementations *)

Lemma append_impls_0 impl iface : append_impls impl 0 iface = iface.
Proof. destruct iface. unfold append_impls. simpl. by rewrite app_nil_r. Qed.

Lemma append_impls_S impl n iface :
  append_impls impl n (append_impl impl iface) = append_impls impl (S n) iface.
Proof. unfold append_impls, append_impl. simpl. by rewrite <- app_assoc. Qed.

Lemma register_impl_Ok_inv l impl w w' :
  register_impl l impl w = (Ok tt, w') ->
  exists iface, w_interfaces w !! l = Some iface
                /\ w' = mkWorld (w_heap w) (w_calls w)
                          (<[l := append_impl impl iface]> (w_interfaces w)).
Proof.
  unfold register_impl. intros Hrun.
  apply bind_Ok_inv in Hrun as (iface & w0 & Hget & Hrun).
  unfold get_interface in Hget. destruct (w_interfaces w !! l) eqn:E; [|discriminate].
  injection Hget as -> <-. injection Hrun as <-. eauto.
Qed.

Lemma add_impl_loop_spec impl ls :
  forall w w',
    add_impl_loop impl (IfaceRef <$> ls) w = (Ok tt, w') ->
    w_heap w' = w_heap w
    /\ w_calls w' = w_calls w
    /\ forall l, w_interfaces w' !! l
                 = append_impls impl (occurrences l ls) <$> (w_interfaces w !! l).
Proof.
  induction ls as [|l0 rest IH]; intros w w' Hrun.
  - injection Hrun as <-. do 2 (split; [done|]). intros l.
    destruct (w_interfaces w !! l) as [iface|]; [|done]. simpl.
    by rewrite append_impls_0.
  - rewrite fmap_cons in Hrun. cbn [add_impl_loop] in Hrun.
    apply bind_Ok_inv in Hrun as ([] & w1 & Hreg & Hrun).
    apply register_impl_Ok_inv in Hreg as (iface0 & Hl0 & ->).
    apply IH in Hrun as (-> & -> & Hifaces). simpl in *.
    do 2 (split; [done|]). intros l. rewrite Hifaces. unfold occurrences.
    destruct (decide (l0 = l)) as [->|Hne].
    + rewrite lookup_insert_eq, Hl0, filter_cons_True by done. simpl.
      by rewrite append_impls_S.
    + rewrite lookup_insert_ne by done. by rewrite filter_cons_False.
Qed.

Lemma define_interfaces_loop_Ok_inv type refs w w' :
  define_interfaces_loop type refs w = (Ok tt, w') ->
  w' = w /\ exists ls, refs = IfaceRef <$> ls.
Proof.
  revert w. induction refs as [|[l|r] rest IH]; intros w Hrun.
  - injection Hrun as <-. split; [done|]. by exists [].
  - cbn [define_interfaces_loop] in Hrun.
    apply bind_Ok_inv in Hrun as (iface & w0 & Hget & Hrun).
    unfold get_interface in Hget. destruct (w_interfaces w !! l); [|discriminate].
    injection Hget as -> <-.
    apply bind_Ok_inv in Hrun as ([] & w1 & Hcheck & Hrun).
    assert (w1 = w) as ->.
    { destruct (negb (callable (i_type_resolver iface))).
      - by apply py_assert_Ok_inv in Hcheck as [_ ->].
      - by injection Hcheck as <-. }
    apply IH in Hrun as [-> [ls ->]]. split; [done|]. by exists (l :: ls).
  - discriminate.
Qed.

Lemma GraphQLObjectType_init_Ok_inv name fields interfaces is_type_of description w self w' :
  GraphQLObjectType_init name fields interfaces is_type_of description w = (Ok self, w') ->
  exists refs w1,
    define_interfaces
      (mkObjectType name description is_type_of fields interfaces None None)
      interfaces w = (Ok refs, w1)
    /\ self = mkObjectType name description is_type_of fields interfaces None (Some refs)
    /\ add_impl_loop self refs w1 = (Ok tt, w')
    /\ assert_named name = Ok tt
    /\ (truthy is_type_of = true -> callable is_type_of = true).
Proof.
  unfold GraphQLObjectType_init. intros Hrun.
  apply bind_Ok_inv in Hrun as ([] & w0 & Hname & Hrun).
  apply lift_result_Ok_inv in Hname as [Hname ->].
  apply bind_Ok_inv in Hrun as ([] & w0 & Hito & Hrun).
  assert (w0 = w /\ (truthy is_type_of = true -> callable is_type_of = true)) as [-> Hcap].
  { destruct (truthy is_type_of).
    - apply py_assert_Ok_inv in Hito as [-> ->]. done.
    - injection Hito as <-. done. }
  unfold add_impl_to_interfaces, get_interfaces in Hrun. simpl in Hrun.
  apply bind_Ok_inv in Hrun as ([refs impl] & w1 & Hget & Hrun).
  apply bind_Ok_inv in Hget as (refs' & w2 & Hdef & Hret).
  injection Hret as <- <- <-.
  apply bind_Ok_inv in Hrun as ([] & w3 & Hloop & Hret).
  injection Hret as <- <-.
  exists refs', w2. done.
Qed.

(** X10: constructing an object type with a list of interfaces appends the
    new object to the [_impls] of each listed interface, once per occurrence
    in the list and after the implementations already there; it changes
    nothing else: the other attributes of the interfaces, the interfaces not
    listed, the heap and the log of calls stay as they were. *)
Theorem object_construction_registers_impls
    name fields refs is_type_of description w self w' :
  GraphQLObjectType_init name fields (InterfacesValue (InterfacesList refs)) is_type_of
    description w = (Ok self, w') ->
  exists ls,
    refs = IfaceRef <$> ls
    /\ o_interfaces self = Some refs
    /\ w_heap w' = w_heap w
    /\ w_calls w' = w_calls w
    /\ forall l, w_interfaces w' !! l
                 = append_impls self (occurrences l ls) <$> (w_interfaces w !! l).
Proof.
  intros (refs' & w1 & Hdef & -> & Hloop & _)%GraphQLObjectType_init_Ok_inv.
  unfold define_interfaces in Hdef. rewrite (bind_Ok _ _ w _ w) in Hdef by done.
  cbv beta iota in Hdef.
  apply bind_Ok_inv in Hdef as ([] & w2 & Hcheck & Hret). injection Hret as <- <-.
  apply define_interfaces_loop_Ok_inv in Hcheck as [-> [ls ->]].
  apply add_impl_loop_spec in Hloop as (Hheap & Hcalls & Hifaces).
  exists ls. done.
Qed.

Lemma object_construction_registers_impls_witness :
  exists self w' iface',
    GraphQLObjectType_init "Dog" (FieldsValue (PyDict []))
      (InterfacesValue (InterfacesList [IfaceRef 7]))
      (PyCallable (fun v => bool_decide (v = VStr "dog"))) None world_with_interface
    = (Ok self, w')
    /\ w_interfaces w' !! 7 = Some iface'
    /\ i_impls iface' = [self].
Proof.
  assert (exists self w',
            GraphQLObjectType_init "Dog" (FieldsValue (PyDict []))
              (InterfacesValue (InterfacesList [IfaceRef 7]))
              (PyCallable (fun v => bool_decide (v = VStr "dog"))) None
              world_with_interface = (Ok self, w')) as (self & w' & Hinit)
    by (do 2 eexists; vm_compute; reflexivity).
  destruct (object_construction_registers_impls _ _ _ _ _ _ _ _ Hinit)
    as (ls & Hls & _ & _ & _ & Hifaces).
  destruct ls as [|x [|y ls]]; try discriminate. injection Hls as <-.
  exists self, w', (append_impls self 1 SomeInterfaceType).
  split; [done|]. split; [|reflexivity]. rewrite Hifaces. reflexivity.
Defined.

Lemma get_type_of_loop_app value a b :
  (forall t, t ∈ a -> accepts t value = false) ->
  get_type_of_loop value (a ++ b) = get_type_of_loop value b.
Proof.
  induction a as [|t0 rest IH]; intros Hno; simpl; [done|].
  rewrite (Hno t0) by left. apply IH. intros t Ht. apply Hno. by right.
Qed.

Lemma occurrences_pos l ls : l ∈ ls -> exists n, occurrences l ls = S n.
Proof.
  unfold occurrences. induction ls as [|x rest IH]; intros Hin.
  - by apply elem_of_nil in Hin.
  - destruct (decide (x = l)) as [->|Hne].
    + rewrite filter_cons_True by done. simpl. eauto.
    + rewrite filter_cons_False by done. apply IH.
      apply elem_of_cons in Hin as [->|Hin]; done.
Qed.

Lemma IfaceRef_fmap_inj (a b : list oid) : IfaceRef <$> a = IfaceRef <$> b -> a = b.
Proof.
  revert b. induction a as [|x a IH]; intros [|y b]; simpl; try discriminate; [done|].
  intros [= -> H]. f_equal. by apply IH.
Qed.

(** X11: registration and resolution compose.  Once an object type has
    been constructed with an interface that has no resolver in its list, the
    interface resolves a value to that object exactly when its [is_type_of]
    accepts the value, provided none of the implementations registered
    earlier accepts it. *)
Theorem registered_object_is_resolved
    name fields ls is_type_of description w self w' l iface value :
  GraphQLObjectType_init name fields (InterfacesValue (InterfacesList (IfaceRef <$> ls)))
    is_type_of description w = (Ok self, w') ->
  l ∈ ls ->
  w_interfaces w !! l = Some iface ->
  truthy (i_type_resolver iface) = false ->
  (forall t, t ∈ i_impls iface -> accepts t value = false) ->
  exists iface',
    w_interfaces w' !! l = Some iface'
    /\ interface_resolve_type iface' value
       = Ok (if accepts self value then Some self else None).
Proof.
  intros Hinit Hin Hl Hno Hearlier.
  apply GraphQLObjectType_init_Ok_inv in Hinit as (refs & w1 & Hdef & _ & Hloop & _).
  unfold define_interfaces in Hdef. rewrite (bind_Ok _ _ w _ w) in Hdef by done.
  cbv beta iota in Hdef.
  apply bind_Ok_inv in Hdef as ([] & w2 & Hcheck & Hret). injection Hret as <- <-.
  apply define_interfaces_loop_Ok_inv in Hcheck as [-> _].
  apply add_impl_loop_spec in Hloop as (_ & _ & Hifaces).
  destruct (occurrences_pos l ls Hin) as [n Hn].
  exists (append_impls self (S n) iface). split.
  - by rewrite Hifaces, Hl, Hn.
  - unfold interface_resolve_type. simpl. rewrite Hno.
    unfold get_type_of. simpl. rewrite get_type_of_loop_app by done. simpl.
    destruct (accepts self value) eqn:E; [done|].
    f_equal. apply get_type_of_loop_None.
    intros t Ht. apply elem_of_replicate in Ht as [-> _]. done.
Qed.

Lemma registered_object_is_resolved_witness :
  exists self w' iface',
    GraphQLObjectType_init "Dog" (FieldsValue (PyDict []))
      (InterfacesValue (InterfacesList (IfaceRef <$> [7])))
      (PyCallable (fun v => bool_decide (v = VStr "dog"))) None world_with_interface
    = (Ok self, w')
    /\ w_interfaces w' !! 7 = Some iface'
    /\ interface_resolve_type iface' (VStr "dog") = Ok (Some self).
Proof.
  assert (exists self w',
            GraphQLObjectType_init "Dog" (FieldsValue (PyDict []))
              (InterfacesValue (InterfacesList (IfaceRef <$> [7])))
              (PyCallable (fun v => bool_decide (v = VStr "dog"))) None
              world_with_interface = (Ok self, w')) as (self & w' & Hinit)
    by (do 2 eexists; vm_compute; reflexivity).
  destruct (registered_object_is_resolved _ _ _ _ _ _ _ _ 7 SomeInterfaceType
              (VStr "dog") Hinit) as (iface' & Hl & Hres).
  - left.
  - reflexivity.
  - reflexivity.
  - intros t Ht. by apply elem_of_nil in Ht.
  - exists self, w', iface'. split; [done|]. split; [done|]. rewrite Hres.
    apply GraphQLObjectType_init_Ok_inv in Hinit as (refs & w1 & _ & -> & _).
    reflexivity.
Defined.

(** ** The interface list is resolved once *)

Lemma define_interfaces_producer_Ok_inv type p w refs w1 :
  define_interfaces type (InterfacesProducer p) w = (Ok refs, w1) ->
  w_calls w1 = producer_id p :: w_calls w
  /\ (refs = [] \/ exists ls, refs = IfaceRef <$> ls).
Proof.
  unfold define_interfaces. intros Hrun.
  apply bind_Ok_inv in Hrun as (v & w0 & Hcall & Hrun).
  apply call_calls in Hcall. destruct v as [|l|].
  - injection Hrun as <- <-. split; [done|]. by left.
  - apply bind_Ok_inv in Hrun as ([] & w2 & Hloop & Hret). injection Hret as <- <-.
    apply define_interfaces_loop_Ok_inv in Hloop as [-> Hls]. split; [done|]. by right.
  - discriminate.
Qed.

(** X12: the interface list of an object type is resolved at construction
    and never again.  When the list is given as a producer and construction
    succeeds, the producer has been called exactly once, and every later
    [get_interfaces()] returns the same list without calling anything or
    changing the instance or the world. *)
Theorem interfaces_resolved_once name fields p is_type_of description w self w' :
  GraphQLObjectType_init name fields (InterfacesProducer p) is_type_of description w
  = (Ok self, w') ->
  calls_of (producer_id p) w' = S (calls_of (producer_id p) w)
  /\ exists refs,
       o_interfaces self = Some refs
       /\ forall n w2,
            call_times get_interfaces n self w2 = (replicate n (Ok refs), self, w2).
Proof.
  intros (refs & w1 & Hdef & -> & Hloop & _)%GraphQLObjectType_init_Ok_inv.
  apply define_interfaces_producer_Ok_inv in Hdef as [Hcalls Hrefs].
  split.
  - apply calls_of_cons. rewrite <- Hcalls.
    destruct Hrefs as [->|[ls ->]].
    + by injection Hloop as <-.
    + by apply add_impl_loop_spec in Hloop as (_ & -> & _).
  - exists refs. split; [done|]. intros n w2.
    by apply call_times_cached.
Qed.

Lemma interfaces_resolved_once_witness :
  exists self w',
    GraphQLObjectType_init "Dog" (FieldsValue (PyDict [])) (InterfacesProducer interfaces_producer)
      (PyCallable (fun v => bool_decide (v = VStr "dog"))) None world_with_interface
    = (Ok self, w')
    /\ calls_of 5 w' = 1
    /\ call_times get_interfaces 2 self w' = ([Ok [IfaceRef 7]; Ok [IfaceRef 7]], self, w').
Proof.
  assert (exists self w',
            GraphQLObjectType_init "Dog" (FieldsValue (PyDict []))
              (InterfacesProducer interfaces_producer)
              (PyCallable (fun v => bool_decide (v = VStr "dog"))) None
              world_with_interface = (Ok self, w')) as (self & w' & Hinit)
    by (do 2 eexists; vm_compute; reflexivity).
  destruct (interfaces_resolved_once _ _ _ _ _ _ _ _ Hinit)
    as (Hcalls & refs & Hrefs & Hmemo).
  exists self, w'. split; [done|]. split; [exact Hcalls|].
  rewrite (Hmemo 2 w').
  apply GraphQLObjectType_init_Ok_inv in Hinit as (refs' & w1 & Hdef & -> & _).
  simpl in Hrefs. injection Hrefs as ->.
  vm_compute in Hdef. by injection Hdef as <- _.
Defined.

(** ** Possible types by name *)

Lemma elem_of_possible_type_names n ts :
  n ∈ possible_type_names ts <-> exists m, m ∈ ts /\ o_name m = n.
Proof.
  unfold possible_type_names. rewrite elem_of_list_to_set, list_elem_of_fmap.
  split; intros (m & H1 & H2); exists m; auto.
Qed.

(** X13: a union answers [is_possible_type] by name: a type is possible
    exactly when some member has its name, whichever object it is.  The set
    of names is computed at the first question and the same answers are given
    afterwards; and whatever a union without a resolver resolves a value to
    is a possible type. *)
Theorem union_is_possible_type_by_name self type :
  u_possible_type_names self = None ->
  ((union_is_possible_type self type).1 = true
   <-> exists m, m ∈ u_types self /\ o_name m = o_name type)
  /\ (forall type',
        (union_is_possible_type (union_is_possible_type self type).2 type').2
        = (union_is_possible_type self type).2
        /\ (union_is_possible_type (union_is_possible_type self type).2 type').1
           = (union_is_possible_type self type').1)
  /\ (forall value t,
        truthy (u_resolve_type self) = false ->
        union_resolve_type self value = Ok (Some t) ->
        (union_is_possible_type self t).1 = true).
Proof.
  intros Hnone. unfold union_is_possible_type. rewrite Hnone. simpl.
  split; [|split].
  - rewrite bool_decide_eq_true. apply elem_of_possible_type_names.
  - done.
  - intros value t Hno Hres. unfold union_resolve_type in Hres. rewrite Hno in Hres.
    injection Hres as Hres. apply get_type_of_loop_Some in Hres as (i & Hi & _).
    apply bool_decide_eq_true, elem_of_possible_type_names. exists t.
    split; [|done]. by eapply list_elem_of_lookup_2.
Qed.

Lemma union_is_possible_type_by_name_witness :
  (union_is_possible_type PetType SomeObjectType).1 = false
  /\ (union_is_possible_type PetType
        (mkObjectType "Dog" None PyNone (FieldsValue (PyDict []))
           (InterfacesValue InterfacesNone) None None)).1 = true.
Proof.
  split.
  - reflexivity.
  - apply (union_is_possible_type_by_name PetType); [reflexivity|].
    exists DogType. split; [left|reflexivity].
Defined.

Lemma interface_is_possible_type_memo l type w iface names :
  w_interfaces w !! l = Some iface ->
  i_possible_type_names iface = Some names ->
  interface_is_possible_type l type w = (Ok (bool_decide (o_name type ∈ names)), w).
Proof.
  intros Hl Hmemo. unfold interface_is_possible_type.
  rewrite (bind_Ok _ _ _ _ _ (get_interface_Some _ _ _ Hl)). by rewrite Hmemo.
Qed.

(** X14: the set of possible type names of an interface is frozen at the
    first [is_possible_type] question.  An implementation registered
    afterwards is listed by [get_possible_types], yet every later
    [is_possible_type] answer is what it would have been before the
    registration; in particular the new implementation is reported as not
    possible when no earlier implementation has its name. *)
Theorem interface_possible_type_names_frozen l type w b w1 impl w2 :
  interface_is_possible_type l type w = (Ok b, w1) ->
  register_impl l impl w1 = (Ok tt, w2) ->
  exists iface iface2,
    w_interfaces w !! l = Some iface
    /\ w_interfaces w2 !! l = Some iface2
    /\ impl ∈ get_possible_types (AbstractInterface iface2)
    /\ (forall type', exists b',
          interface_is_possible_type l type' w1 = (Ok b', w1)
          /\ interface_is_possible_type l type' w2 = (Ok b', w2))
    /\ (i_possible_type_names iface = None ->
        (forall m, m ∈ i_impls iface -> o_name m ≠ o_name impl) ->
        interface_is_possible_type l impl w2 = (Ok false, w2)).
Proof.
  intros Hask Hreg. unfold interface_is_possible_type in Hask.
  apply bind_Ok_inv in Hask as (iface & w0 & Hget & Hask).
  unfold get_interface in Hget. destruct (w_interfaces w !! l) as [iface0|] eqn:Hl;
    [|discriminate].
  injection Hget as -> <-.
  assert (exists names,
            w_interfaces w1 !! l = Some (set_i_possible_type_names iface names)
            /\ (i_possible_type_names iface = None ->
                names = possible_type_names (i_impls iface))) as (names & Hl1 & Hnames).
  { destruct (i_possible_type_names iface) as [names|] eqn:Hmemo.
    - injection Hask as _ <-. exists names. split; [|done].
      rewrite Hl. f_equal. destruct iface. simpl in *. by subst.
    - injection Hask as _ <-. eexists. simpl. rewrite lookup_insert_eq. done. }
  apply register_impl_Ok_inv in Hreg as (iface1 & Hl1' & ->).
  rewrite Hl1 in Hl1'. injection Hl1' as <-.
  eexists iface, _. split; [done|]. simpl. rewrite lookup_insert_eq.
  split; [done|]. split; [|split].
  - simpl. apply elem_of_app. right. by apply list_elem_of_singleton.
  - intros type'. exists (bool_decide (o_name type' ∈ names)). split.
    + by apply (interface_is_possible_type_memo _ _ _ _ _ Hl1).
    + apply (interface_is_possible_type_memo _ _ _
               (append_impl impl (set_i_possible_type_names iface names))); [|done].
      simpl. apply lookup_insert_eq.
  - intros Hnone Hfresh.
    rewrite (interface_is_possible_type_memo _ _ _
               (append_impl impl (set_i_possible_type_names iface names)) names);
      [|simpl; apply lookup_insert_eq|done].
    rewrite bool_decide_eq_false_2; [done|].
    rewrite (Hnames Hnone). intros (m & Hm & Heq)%elem_of_possible_type_names.
    by apply (Hfresh m).
Qed.

Lemma interface_possible_type_names_frozen_witness :
  exists w1 w2,
    interface_is_possible_type 7 SomeObjectType world_with_interface = (Ok false, w1)
    /\ register_impl 7 DogType w1 = (Ok tt, w2)
    /\ interface_is_possible_type 7 DogType w2 = (Ok false, w2).
Proof.
  assert (exists w1 w2,
            interface_is_possible_type 7 SomeObjectType world_with_interface
            = (Ok false, w1)
            /\ register_impl 7 DogType w1 = (Ok tt, w2)) as (w1 & w2 & Hask & Hreg)
    by (do 2 eexists; split; vm_compute; reflexivity).
  destruct (interface_possible_type_names_frozen _ _ _ _ _ _ _ Hask Hreg)
    as (iface & iface2 & Hl & _ & _ & _ & Hstale).
  exists w1, w2. split; [done|]. split; [done|].
  injection Hl as <-. apply Hstale; [reflexivity|].
  intros m Hm. by apply elem_of_nil in Hm.
Defined.

(** ** What field-map resolution accepts *)

Lemma valid_arg_frame h h' b ak al :
  (forall x, x < b -> objs h' !! x = objs h !! x) -> al < b ->
  valid_arg h ak al <-> valid_arg h' ak al.
Proof. intros Hframe Hal. unfold valid_arg. by rewrite Hframe. Qed.

Lemma define_arg_valid type fn ak al h l' h' :
  define_arg type fn ak al h = (Ok l', h') -> valid_arg h ak al.
Proof.
  unfold define_arg. intros Hrun.
  apply bind_Ok_inv in Hrun as ([] & h0 & Hname & Hrun).
  apply lift_result_Ok_inv in Hname as [Hname ->].
  apply bind_Ok_inv in Hrun as (o & h0 & Ho & Hrun).
  apply deref_Ok_inv in Ho as [Ho ->].
  destruct (obj_type o) as [t|] eqn:Ht; [|discriminate].
  apply bind_Ok_inv in Hrun as ([] & h0 & Hassert & Hrun).
  apply py_assert_Ok_inv in Hassert as [Hinput ->].
  split; [by apply assert_valid_name_Ok|]. eauto.
Qed.

Lemma define_arg_succeeds type fn ak al h :
  valid_arg h ak al -> exists l' h', define_arg type fn ak al h = (Ok l', h').
Proof.
  intros (Hname & o & t & Ho & Ht & Hinput). apply assert_valid_name_Ok in Hname.
  unfold define_arg.
  rewrite (bind_Ok _ _ h tt h) by (unfold lift_result; by rewrite Hname).
  rewrite (bind_Ok _ _ h o h) by (unfold deref; by rewrite Ho).
  rewrite Ht. rewrite (bind_Ok _ _ h tt h) by (unfold py_assert; by rewrite Hinput).
  unfold copy_copy, bind, deref, alloc, store, ret. rewrite Ho. simpl.
  rewrite lookup_insert_eq. simpl. eauto.
Qed.

Lemma define_args_loop_valid type fn items :
  forall args h res h',
    define_args_loop type fn items args h = (Ok res, h') ->
    forall i ak al, items !! i = Some (ak, al) -> al < next_id h -> valid_arg h ak al.
Proof.
  induction items as [|[ak0 al0] rest IH]; intros args h res h' Hrun i ak al Hi Hal;
    [done|].
  cbn [define_args_loop] in Hrun.
  apply bind_Ok_inv in Hrun as (l0 & h1 & Harg & Hrun).
  pose proof (define_arg_valid _ _ _ _ _ _ _ Harg) as Hvalid0.
  apply define_arg_spec in Harg as (o0 & Ho0 & _ & -> & ->).
  destruct i as [|i]; simpl in Hi.
  - by injection Hi as <- <-.
  - pose proof (IH _ _ _ _ Hrun i ak al Hi ltac:(simpl; lia)) as Hvalid.
    eapply (valid_arg_frame h _ (next_id h)); [|done|exact Hvalid].
    intros x Hx. simpl. apply lookup_insert_ne. lia.
Qed.

Lemma define_args_loop_succeeds type fn items :
  forall args h,
    (forall i ak al, items !! i = Some (ak, al) -> al < next_id h /\ valid_arg h ak al) ->
    exists res h', define_args_loop type fn items args h = (Ok res, h').
Proof.
  induction items as [|[ak0 al0] rest IH]; intros args h Hvalid; [by eexists _, _|].
  cbn [define_args_loop].
  destruct (Hvalid 0 ak0 al0 eq_refl) as [Hal0 Hv0].
  destruct (define_arg_succeeds type fn ak0 al0 h Hv0) as (l' & h1 & Harg).
  rewrite (bind_Ok _ _ _ _ _ Harg).
  apply define_arg_spec in Harg as (o0 & Ho0 & _ & -> & ->).
  apply IH. intros i ak al Hi. destruct (Hvalid (S i) ak al Hi) as [Hal Hv].
  split; [simpl; lia|].
  eapply (valid_arg_frame h _ (next_id h)); [|done|exact Hv].
  intros x Hx. simpl. apply lookup_insert_ne. lia.
Qed.

Lemma define_field_valid type k l h l' h' :
  define_field type k l h = (Ok l', h') ->
  (forall o r, objs h !! l = Some o -> r ∈ obj_refs o -> r < next_id h) ->
  valid_field h k l.
Proof.
  unfold define_field. intros Hrun Hrefs.
  apply bind_Ok_inv in Hrun as ([] & h0 & Hname & Hrun).
  apply lift_result_Ok_inv in Hname as [Hname ->].
  apply assert_valid_name_Ok in Hname.
  apply bind_Ok_inv in Hrun as (n & h1 & Hcopy & Hrun).
  unfold copy_copy in Hcopy.
  apply bind_Ok_inv in Hcopy as (o & h0 & Ho & Hcopy).
  apply deref_Ok_inv in Ho as [Ho ->].
  injection Hcopy as <- <-.
  apply bind_Ok_inv in Hrun as (o1 & h0 & Ho1 & Hrun).
  apply deref_Ok_inv in Ho1 as [Ho1 ->]. simpl in Ho1.
  rewrite lookup_insert_eq in Ho1. injection Ho1 as <-.
  apply bind_Ok_inv in Hrun as ([] & h2 & Hstore & Hrun).
  injection Hstore as <-. simpl in Hrun.
  apply bind_Ok_inv in Hrun as (o2 & h0 & Ho2 & Hrun).
  apply deref_Ok_inv in Ho2 as [Ho2 ->]. simpl in Ho2.
  rewrite lookup_insert_eq in Ho2. injection Ho2 as <-.
  destruct (obj_type (set_obj_name k o)) as [t|] eqn:Ht; [|discriminate].
  apply bind_Ok_inv in Hrun as ([] & h0 & Hassert & Hrun).
  apply py_assert_Ok_inv in Hassert as [Houtput ->].
  destruct o as [|f| | |]; try discriminate. simpl in Hrun, Ht.
  injection Ht as <-.
  apply bind_Ok_inv in Hrun as ([] & h3 & Hargs & Hrun).
  pose proof (fun r => Hrefs _ r Ho) as Hrefs'. clear Hrefs.
  split; [done|]. exists f. do 2 (split; [done|]).
  destruct (args_truthy (field_args f)) eqn:Htruthy; simpl in Hargs.
  - destruct (field_args f) as [|items|args|b] eqn:Hfa; try discriminate.
    split; [right; eauto|].
    apply bind_Ok_inv in Hargs as (args & h4 & Hloop & Hstore).
    intros i ak al Hi. unfold arg_items in Hi. rewrite Hfa in Hi.
    assert (al < next_id h) as Hal.
    { apply Hrefs'. unfold obj_refs. simpl. rewrite Hfa.
      apply list_elem_of_fmap. exists (ak, al). split; [done|].
      by eapply list_elem_of_lookup_2. }
    pose proof (define_args_loop_valid _ _ _ _ _ _ _ Hloop i ak al Hi
                  ltac:(simpl; lia)) as Hvalid.
    eapply (valid_arg_frame h _ (next_id h)); [|done|exact Hvalid].
    intros x Hx. simpl. rewrite !lookup_insert_ne by lia. done.
  - split; [by left|]. intros i ak al Hi.
    assert (arg_items f = []) as Hnil; [|by rewrite Hnil in Hi].
    unfold arg_items. destruct (field_args f) as [|items| |]; try done.
    simpl in Htruthy. destruct items; [done|discriminate].
Qed.

Lemma define_field_succeeds type k l h :
  valid_field h k l ->
  (forall o r, objs h !! l = Some o -> r ∈ obj_refs o -> r < next_id h) ->
  exists l' h', define_field type k l h = (Ok l', h').
Proof.
  intros (Hname & f & Hf & Houtput & Hshape & Hargs) Hrefs.
  apply assert_valid_name_Ok in Hname. unfold define_field.
  rewrite (bind_Ok _ _ h tt h) by (unfold lift_result; by rewrite Hname).
  set (h1 := mkHeap (<[next_id h := FieldObj f]> (objs h)) (S (next_id h))).
  rewrite (bind_Ok _ _ h (next_id h) h1)
    by (unfold copy_copy, bind, deref, alloc; by rewrite Hf).
  rewrite (bind_Ok _ _ h1 (FieldObj f) h1)
    by (unfold deref; simpl; by rewrite lookup_insert_eq).
  set (named := set_obj_name k (FieldObj f)).
  set (h2 := mkHeap (<[next_id h := named]> (objs h1)) (S (next_id h))).
  rewrite (bind_Ok _ _ h1 tt h2) by done.
  rewrite (bind_Ok _ _ h2 named h2)
    by (unfold deref; simpl; by rewrite lookup_insert_eq).
  simpl. rewrite (bind_Ok _ _ h2 tt h2) by (unfold py_assert; by rewrite Houtput).
  destruct (args_truthy (field_args f)) eqn:Htruthy; simpl.
  - destruct Hshape as [?|[items Hfa]]; [congruence|]. rewrite Hfa.
    destruct (define_args_loop_succeeds type k items [] h2) as (args & h3 & Hloop).
    { intros i ak al Hi.
      assert (al < next_id h) as Hal.
      { apply (Hrefs _ al Hf). unfold obj_refs. rewrite Hfa.
        apply list_elem_of_fmap. exists (ak, al). split; [done|].
        by eapply list_elem_of_lookup_2. }
      split; [simpl; lia|].
      eapply (valid_arg_frame h h2 (next_id h)); [|done|].
      - intros x Hx. simpl. rewrite !lookup_insert_ne by lia. done.
      - apply (Hargs i). unfold arg_items. by rewrite Hfa. }
    rewrite (bind_Ok _ _ h2 tt
               (mkHeap (<[next_id h := FieldObj (set_field_args (ArgsList args)
                            (mkField (Some k) (field_type f) (ArgsMapping items)
                               (field_resolver f) (field_deprecation_reason f)
                               (field_description f)))]> (objs h3)) (next_id h3))).
    + by eexists _, _.
    + by rewrite (bind_Ok _ _ _ _ _ Hloop).
  - by eexists _, _.
Qed.

Lemma valid_field_frame h h' b k l :
  (forall x, x < b -> objs h' !! x = objs h !! x) -> l < b -> closed_below b h ->
  valid_field h k l <-> valid_field h' k l.
Proof.
  intros Hframe Hl Hclosed. unfold valid_field. rewrite Hframe by done.
  split; intros (Hname & f & Hf & Hout & Hshape & Hargs); (split; [done|]);
    exists f; do 3 (split; [done|]); intros i ak al Hi;
    (eapply (valid_arg_frame h h' b); [done| |by eapply Hargs]);
    eapply Hclosed; eauto using arg_items_refs.
Qed.

Lemma closed_below_frame h h' b :
  (forall x, x < b -> objs h' !! x = objs h !! x) -> closed_below b h -> closed_below b h'.
Proof. intros Hframe Hclosed l o r Hl Ho Hr. rewrite Hframe in Ho by done. eauto. Qed.

Lemma define_field_map_loop_valid type items :
  forall b acc h fm h',
    b <= next_id h -> closed_below b h ->
    (forall k l, (k, l) ∈ items -> l < b) ->
    define_field_map_loop type items acc h = (Ok fm, h') ->
    forall k l, (k, l) ∈ items -> valid_field h k l.
Proof.
  induction items as [|[k0 l0] rest IH]; intros b acc h fm h' Hb Hclosed Hlive Hrun k l Hin.
  - by apply elem_of_nil in Hin.
  - cbn [define_field_map_loop] in Hrun.
    apply bind_Ok_inv in Hrun as (n & h1 & Hfield & Hrun).
    assert (forall o r, objs h !! l0 = Some o -> r ∈ obj_refs o -> r < next_id h) as Hrefs.
    { intros o r Ho Hr. pose proof (Hclosed l0 o r (Hlive k0 l0 ltac:(left)) Ho Hr). lia. }
    pose proof (define_field_valid _ _ _ _ _ _ Hfield Hrefs) as Hvalid0.
    apply define_field_spec in Hfield as (f0 & Hf0 & -> & Hnext1 & Hframe1 & _); [|done].
    apply elem_of_cons in Hin as [[= -> ->]|Hin]; [done|].
    assert (forall x, x < b -> objs h1 !! x = objs h !! x) as Hframe
      by (intros x Hx; apply Hframe1; lia).
    apply (valid_field_frame h h1 b); [done|by eapply Hlive; right|done|].
    eapply (IH b); [lia|by eapply closed_below_frame| |done|done].
    intros k' l' Hin'. apply (Hlive k'). by right.
Qed.

Lemma define_field_map_loop_succeeds type items :
  forall b acc h,
    b <= next_id h -> closed_below b h ->
    (forall k l, (k, l) ∈ items -> l < b /\ valid_field h k l) ->
    exists fm h', define_field_map_loop type items acc h = (Ok fm, h').
Proof.
  induction items as [|[k0 l0] rest IH]; intros b acc h Hb Hclosed Hvalid;
    [by eexists _, _|].
  cbn [define_field_map_loop].
  destruct (Hvalid k0 l0 ltac:(left)) as [Hl0 Hv0].
  assert (forall o r, objs h !! l0 = Some o -> r ∈ obj_refs o -> r < next_id h) as Hrefs.
  { intros o r Ho Hr. pose proof (Hclosed l0 o r Hl0 Ho Hr). lia. }
  destruct (define_field_succeeds type k0 l0 h Hv0 Hrefs) as (l' & h1 & Hfield).
  rewrite (bind_Ok _ _ _ _ _ Hfield).
  apply define_field_spec in Hfield as (f0 & Hf0 & -> & Hnext1 & Hframe1 & _); [|done].
  assert (forall x, x < b -> objs h1 !! x = objs h !! x) as Hframe
    by (intros x Hx; apply Hframe1; lia).
  apply (IH b); [lia|by eapply closed_below_frame|].
  intros k l Hin. destruct (Hvalid k l ltac:(by right)) as [Hl Hv].
  split; [done|]. by apply (valid_field_frame h h1 b).
Qed.

(** X15: resolution of a field dict succeeds exactly when the dict is not
    empty and every entry passes the checks: the key is a valid name, the
    value is a field whose type is an output type, and its arguments are
    absent or a dict of valid names to objects whose type is an input type.
    So a resolved field map never holds a field of an input-only type, an
    argument of an output-only type, or an invalid name. *)
Theorem field_map_resolution_accepts_exactly type items w :
  heap_closed (w_heap w) ->
  (forall k l, (k, l) ∈ items -> l < next_id (w_heap w)) ->
  (exists field_map w',
     define_field_map type (FieldsValue (PyDict items)) w = (Ok field_map, w'))
  <-> items ≠ [] /\ forall k l, (k, l) ∈ items -> valid_field (w_heap w) k l.
Proof.
  intros [Hwf Hclosed] Hlive. split.
  - intros (fm & w' & Hrun). split.
    + intros ->. unfold define_field_map, force_fields, bind, ret, py_assert, raise in Hrun.
      simpl in Hrun. discriminate.
    + apply define_field_map_direct in Hrun as [Hloop _].
      by eapply (define_field_map_loop_valid _ _ (next_id (w_heap w))).
  - intros [Hne Hvalid].
    destruct (define_field_map_loop_succeeds type items (next_id (w_heap w)) ∅ (w_heap w))
      as (fm & h' & Hloop); [done|done|intros k l Hin; split; eauto|].
    exists fm, (mkWorld h' (w_calls w) (w_interfaces w)).
    unfold define_field_map. rewrite (bind_Ok _ _ w (PyDict items) w) by done.
    cbv beta iota. destruct items; [done|].
    rewrite (bind_Ok _ _ w tt w) by done. unfold on_heap. by rewrite Hloop.
Qed.

Lemma field_map_resolution_accepts_exactly_witness :
  exists field_map w',
    define_field_map "T" (FieldsValue (PyDict shared_field_items)) shared_field_world
    = (Ok field_map, w').
Proof.
  apply field_map_resolution_accepts_exactly.
  - exact shared_field_heap_closed.
  - intros k l Hin. simpl.
    apply elem_of_cons in Hin as [[= _ ->]|Hin]; [lia|].
    apply elem_of_cons in Hin as [[= _ ->]|Hin]; [lia|]. by apply elem_of_nil in Hin.
  - split; [discriminate|]. intros k l Hin.
    assert (l = 1 /\ NAME_PATTERN_match k = true) as [-> Hname].
    { apply elem_of_cons in Hin as [[= -> ->]|Hin]; [done|].
      apply elem_of_cons in Hin as [[= -> ->]|Hin]; [done|].
      by apply elem_of_nil in Hin. }
    split; [done|]. eexists. split; [reflexivity|]. split; [reflexivity|].
    split; [right; by eexists|].
    intros i ak al Hi.
    destruct i as [|[|i]]; simpl in Hi; try discriminate; injection Hi as <- <-;
      (split; [reflexivity|]); eexists _, _; repeat split.
Defined.

(** ** Input object field maps *)

Lemma define_input_field_spec k l h l' h' :
  define_input_field k l h = (Ok l', h') ->
  NAME_PATTERN_match k = true
  /\ exists o t,
       objs h !! l = Some o /\ obj_type o = Some t /\ is_input_type_of t = true
       /\ l' = next_id h
       /\ h' = mkHeap (<[next_id h := set_obj_name k o]> (objs h)) (S (next_id h)).
Proof.
  unfold define_input_field. intros Hrun.
  apply bind_Ok_inv in Hrun as ([] & h0 & Hname & Hrun).
  apply lift_result_Ok_inv in Hname as [Hname ->].
  apply assert_valid_name_Ok in Hname. split; [done|].
  apply bind_Ok_inv in Hrun as (n & h1 & Hcopy & Hrun).
  unfold copy_copy in Hcopy.
  apply bind_Ok_inv in Hcopy as (o & h0 & Ho & Hcopy).
  apply deref_Ok_inv in Ho as [Ho ->].
  injection Hcopy as <- <-.
  apply bind_Ok_inv in Hrun as (o1 & h0 & Ho1 & Hrun).
  apply deref_Ok_inv in Ho1 as [Ho1 ->]. simpl in Ho1.
  rewrite lookup_insert_eq in Ho1. injection Ho1 as <-.
  apply bind_Ok_inv in Hrun as ([] & h2 & Hstore & Hrun).
  injection Hstore as <-. simpl in Hrun.
  apply bind_Ok_inv in Hrun as (o2 & h0 & Ho2 & Hrun).
  apply deref_Ok_inv in Ho2 as [Ho2 ->]. simpl in Ho2.
  rewrite lookup_insert_eq in Ho2. injection Ho2 as <-.
  destruct (obj_type (set_obj_name k o)) as [t|] eqn:Ht; [|discriminate].
  apply bind_Ok_inv in Hrun as ([] & h0 & Hassert & Hrun).
  apply py_assert_Ok_inv in Hassert as [Hinput ->].
  injection Hrun as <- <-. exists o, t. split; [done|].
  split; [by destruct o|]. split; [done|]. split; [done|].
  by rewrite insert_insert_eq.
Qed.

Lemma define_input_field_map_loop_spec items :
  forall acc h fm h',
    (forall k l, (k, l) ∈ items -> l < next_id h) ->
    NoDup items.*1 ->
    define_input_field_map_loop items acc h = (Ok fm, h') ->
    next_id h' = next_id h + length items
    /\ (forall x, x < next_id h -> objs h' !! x = objs h !! x)
    /\ (forall k, k ∉ items.*1 -> fm !! k = acc !! k)
    /\ (forall k l, (k, l) ∈ items ->
          NAME_PATTERN_match k = true
          /\ exists l' o t,
               fm !! k = Some l' /\ next_id h <= l'
               /\ objs h !! l = Some o /\ obj_type o = Some t
               /\ is_input_type_of t = true
               /\ objs h' !! l' = Some (set_obj_name k o)).
Proof.
  induction items as [|[k0 l0] rest IH]; intros acc h fm h' Hlive Hnodup Hrun.
  - injection Hrun as <- <-. split; [simpl; lia|]. split; [done|]. split; [done|].
    intros k l Hin. by apply elem_of_nil in Hin.
  - cbn [define_input_field_map_loop] in Hrun.
    apply bind_Ok_inv in Hrun as (n & h1 & Hfield & Hrun).
    apply define_input_field_spec in Hfield
      as (Hname0 & o0 & t0 & Ho0 & Ht0 & Hin0 & -> & ->).
    rewrite fmap_cons in Hnodup. apply NoDup_cons in Hnodup as [Hk0 Hnodup].
    apply IH in Hrun as (Hnext & Hframe & Hother & Hentries); [|simpl|done].
    2:{ intros k l Hin. pose proof (Hlive k l ltac:(by right)). lia. }
    simpl in *. split; [lia|]. split; [|split].
    + intros x Hx. rewrite Hframe by lia. apply lookup_insert_ne. lia.
    + intros k [Hne Hk]%not_elem_of_cons. rewrite Hother by done.
      by rewrite lookup_insert_ne.
    + intros k l [[= -> ->]|Hin]%elem_of_cons.
      * split; [done|]. exists (next_id h), o0, t0.
        rewrite Hother by done. rewrite lookup_insert_eq.
        do 5 (split; [done|]). rewrite Hframe by lia. apply lookup_insert_eq.
      * destruct (Hentries k l Hin) as (Hname & l' & o & t & Hfm & Hl' & Ho & Ht & Hi & Ho').
        pose proof (Hlive k l ltac:(by right)) as Hl.
        rewrite lookup_insert_ne in Ho by lia.
        split; [done|]. exists l', o, t. split; [done|]. split; [lia|]. done.
Qed.

Lemma obj_type_set_obj_name k o : obj_type (set_obj_name k o) = obj_type o.
Proof. by destruct o. Qed.

(** X16: [get_fields()] of an input object type whose fields are a dict,
    given directly or returned by the function given as [fields]; [w0] is
    the world in which the dict exists.  When it succeeds, every key is a
    valid name and maps to a new object, a copy of the caller's whose [name]
    is the key and whose type is an input type; the caller's objects are
    unchanged; the mapping is cached on the instance.  The check is on the
    [type] attribute alone, so any object that has one passes, whatever its
    class. *)
Theorem input_object_get_fields_copies self items w w0 field_map self1 w1 :
  force_fields (io_fields self) w = (Ok (PyDict items), w0) ->
  io_field_map self = None ->
  heap_wf (w_heap w0) ->
  (forall k l, (k, l) ∈ items -> l < next_id (w_heap w0)) ->
  NoDup items.*1 ->
  GraphQLInputObjectType_get_fields self w = (Ok (field_map, self1), w1) ->
  io_field_map self1 = Some field_map
  /\ (forall x o, objs (w_heap w0) !! x = Some o -> objs (w_heap w1) !! x = Some o)
  /\ (forall k l, (k, l) ∈ items ->
        NAME_PATTERN_match k = true
        /\ exists l' o o' t,
             field_map !! k = Some l'
             /\ objs (w_heap w0) !! l' = None
             /\ objs (w_heap w0) !! l = Some o
             /\ obj_type o = Some t /\ is_input_type_of t = true
             /\ objs (w_heap w1) !! l' = Some o'
             /\ obj_name o' = Some k
             /\ obj_type o' = Some t
             /\ named_copy k o o')
  /\ (forall k, k ∉ items.*1 -> field_map !! k = None).
Proof.
  intros Hforce Hnone Hwf Hlive Hnodup Hrun.
  unfold GraphQLInputObjectType_get_fields in Hrun. rewrite Hnone in Hrun.
  apply bind_Ok_inv in Hrun as (fm & w2 & Hdef & Hret). injection Hret as <- <- <-.
  split; [done|].
  unfold _define_field_map in Hdef. rewrite (bind_Ok _ _ _ _ _ Hforce) in Hdef.
  cbv beta iota in Hdef.
  apply bind_Ok_inv in Hdef as ([] & w3 & Hlen & Hdef).
  apply py_assert_Ok_inv in Hlen as [_ ->].
  unfold on_heap in Hdef.
  destruct (define_input_field_map_loop items ∅ (w_heap w0)) as [r h'] eqn:Hloop.
  injection Hdef as -> <-. simpl.
  apply define_input_field_map_loop_spec in Hloop
    as (Hnext & Hframe & Hother & Hentries); [|done|done].
  split; [|split].
  - intros x o Hx. rewrite Hframe; [done|]. apply Hwf. by eexists.
  - intros k l Hin.
    destruct (Hentries k l Hin) as (Hname & l' & o & t & Hfm & Hl' & Ho & Ht & Hi & Ho').
    split; [done|]. exists l', o, (set_obj_name k o), t. split; [done|].
    split; [by apply heap_wf_fresh|]. do 4 (split; [done|]).
    assert (named_copy k o (set_obj_name k o)) as Hnamed
      by (apply set_obj_name_named_copy; by rewrite Ht).
    split; [by eapply named_copy_name|].
    split; [by rewrite obj_type_set_obj_name|done].
  - intros k Hk. by rewrite Hother.
Qed.

Lemma input_object_get_fields_copies_witness :
  exists field_map self1 w1 l' o',
    GraphQLInputObjectType_get_fields SomeInputObjectType
      (mkWorld input_field_heap [] ∅) = (Ok (field_map, self1), w1)
    /\ field_map !! "val" = Some l'
    /\ l' ≠ 0
    /\ objs (w_heap w1) !! l' = Some o'
    /\ obj_name o' = Some "val"
    /\ objs (w_heap w1) !! 0 = objs input_field_heap !! 0.
Proof.
  assert (exists field_map self1 w1,
            GraphQLInputObjectType_get_fields SomeInputObjectType
              (mkWorld input_field_heap [] ∅) = (Ok (field_map, self1), w1))
    as (field_map & self1 & w1 & Hrun) by (do 3 eexists; vm_compute; reflexivity).
  destruct (input_object_get_fields_copies SomeInputObjectType [("val", 0)]
              (mkWorld input_field_heap [] ∅) (mkWorld input_field_heap [] ∅)
              field_map self1 w1)
    as (_ & Hkeep & Hentries & _).
  - reflexivity.
  - reflexivity.
  - intros l [o Ho]. simpl in *.
    apply lookup_insert_Some in Ho as [[<- _]|[_ Ho]]; [lia|].
    by rewrite lookup_empty in Ho.
  - intros k l Hin. apply list_elem_of_singleton in Hin. injection Hin as _ ->.
    simpl. lia.
  - apply (bool_decide_unpack _). reflexivity.
  - exact Hrun.
  - destruct (Hentries "val" 0)
      as (_ & l' & o & o' & t & Hfm & Hfresh & Ho & _ & _ & Ho' & Hname & _).
    { by apply list_elem_of_singleton. }
    exists field_map, self1, w1, l', o'. split; [done|]. split; [done|]. split.
    + intros ->. vm_compute in Hfresh. discriminate.
    + do 2 (split; [done|]). apply (Hkeep 0). reflexivity.
Defined.

(** ** The bridge: cancellation and other futures *)


(** X18: a deferred is settled by its own future only.  While the future
    it waits for is pending, completion of any other future followed by a
    turn of the loop leaves the deferred pending and waiting; when its own
    future then completes with a value, the next turn settles it to that
    value. *)
Theorem other_futures_do_not_settle f d s fs f' o s1 :
  linked f d s ->
  futures s !! f = Some fs -> f_outcome fs = None ->
  f' ≠ f ->
  finish f' o s = (Ok tt, s1) ->
  deferreds (run_ready s1) !! d = Some Pending
  /\ linked f d (run_ready s1)
  /\ forall v s2,
       Future_set_result f v (run_ready s1) = (Ok tt, s2) ->
       deferreds (run_ready s2) !! d = Some (Settled (Success v)).
Proof.
  intros Hlinked Hf Ho Hne Hfinish.
  pose proof (linked_finish_other _ _ _ _ _ _ Hlinked Hne Hfinish) as Hlinked1.
  assert (futures s1 !! f = Some fs) as Hf1.
  { apply finish_Ok_inv in Hfinish as (fs' & _ & _ & ->). simpl.
    by rewrite lookup_insert_ne. }
  pose proof (linked_run_ready_pending _ _ _ _ Hlinked1 Hf1 Ho) as Hlinked2.
  split; [by destruct Hlinked2|]. split; [done|].
  intros v s2 Hset.
  exact (linked_settles_on_finish f d _ (Returned v) _ s2 Hlinked2 eq_refl Hset).
Qed.

Lemma loop_with_two_futures_wf : bridge_wf loop_with_two_futures.
Proof.
  split; [|split; [|split]]; simpl.
  - intros d [x Hd]. by rewrite lookup_empty in Hd.
  - intros f [fs Hf]. apply lookup_insert_Some in Hf as [[<- _]|[_ Hf]]; [lia|].
    apply lookup_singleton_Some in Hf as [<- _]. lia.
  - intros f fs d Hf Hin. apply lookup_insert_Some in Hf as [[_ <-]|[_ Hf]].
    + by apply elem_of_nil in Hin.
    + apply lookup_singleton_Some in Hf as [_ <-]. by apply elem_of_nil in Hin.
  - intros d f Hin. by apply elem_of_nil in Hin.
Qed.


Lemma other_futures_do_not_settle_witness :
  exists d s s1,
    run_resolve_fn future_resolver loop_with_two_futures = (Ok (DeferredRef d), s)
    /\ Future_set_result 2 (VInt 5) s = (Ok tt, s1)
    /\ deferreds (run_ready s1) !! d = Some Pending.
Proof.
  destruct (add_done_callback_links 1 loop_with_two_futures (mkFuture None [] None)
              loop_with_two_futures_wf eq_refl) as (s & Hrun & _ & Hlinked).
  assert (exists fs s1,
            futures s !! 1 = Some fs /\ f_outcome fs = None
            /\ Future_set_result 2 (VInt 5) s = (Ok tt, s1)) as (fs & s1 & Hf & Ho & Hset).
  { vm_compute in Hrun. injection Hrun as <-. do 2 eexists.
    split; [reflexivity|]. split; [reflexivity|]. vm_compute. reflexivity. }
  exists 3, s, s1. split; [exact Hrun|]. split; [done|].
  destruct (other_futures_do_not_settle 1 3 s fs 2 (Returned (VInt 5)) s1
              Hlinked Hf Ho) as (Hpending & _); [lia|exact Hset|exact Hpending].
Defined.

(** ** Enum lookups: collisions and misses *)

Lemma dict_get_foldl_last h ls :
  forall acc i l,
    ls !! i = Some l ->
    (forall j l', ls !! j = Some l' -> i < j ->
                  py_eqb (enum_value_at h l') (enum_value_at h l) = false) ->
    dict_get (enum_value_at h l)
      (foldl (fun d l => dict_set (enum_value_at h l) l d) acc ls)
    = Some l.
Proof.
  induction ls as [|l0 rest IH]; intros acc i l Hi Hne; [done|].
  cbn [foldl]. destruct i as [|i]; simpl in Hi.
  - injection Hi as ->. rewrite dict_get_foldl_notin.
    + rewrite dict_get_set. by rewrite py_eqb_refl.
    + intros l' Hl'. apply list_elem_of_lookup in Hl' as [j Hj].
      apply (Hne (S j)); [done|lia].
  - apply (IH _ i); [done|]. intros j l' Hj Hji. apply (Hne (S j)); [done|lia].
Qed.

(** X20: when several entries of an enum have equal internal values (as
    all entries given no value do), [serialize] of that value returns the
    name of the last of them in map order: for an enum built from distinct
    objects whose internal values can all be hashed, [serialize] of the value
    of an entry returns that entry's name provided no later entry has an
    equal value. *)
Theorem enum_serialize_last_entry_wins name items description h self h' i k l :
  GraphQLEnumType_init name (PyDict items) description h = (Ok self, h') ->
  NoDup items.*1 ->
  NoDup items.*2 ->
  (forall l, l ∈ items.*2 -> hash_ok (enum_value_at h l) = true) ->
  items !! i = Some (k, l) ->
  (forall j kj lj, items !! j = Some (kj, lj) -> i < j ->
                   py_eqb (enum_value_at h lj) (enum_value_at h l) = false) ->
  exists lookup,
    enum_serialize self (enum_value_at h l) (h', None)
    = (Ok (VStr k), (h', Some lookup)).
Proof.
  intros Hinit Hkeys Hrefs Hhash Hi Hlater.
  pose proof (fun l => enum_constructed_objects _ _ _ _ _ _ l Hinit) as Hobjs.
  pose proof (enum_value_lookup_built _ _ _ _ _ _ Hinit Hhash) as Hvl.
  pose proof (GraphQLEnumType_init_shape _ _ _ _ _ _ Hinit) as ->.
  set (self := mkEnumType name description items.*2 None) in *.
  set (lookup := value_lookup_of h' items.*2) in *.
  assert (l ∈ items.*2) as Hl.
  { apply list_elem_of_fmap. exists (k, l). split; [done|].
    by eapply list_elem_of_lookup_2. }
  destruct (Hobjs l Hl) as (e & k' & He & Hname & _ & Hown & Hsame).
  assert (k' = k) as ->.
  { specialize (Hown Hrefs). apply list_elem_of_lookup in Hown as [m Hm].
    assert (m = i) as ->; [|congruence].
    eapply (NoDup_lookup items.*2 m i l); [done| |];
      rewrite list_lookup_fmap; [by rewrite Hm|by rewrite Hi]. }
  assert (dict_get (enum_value_at h l) lookup = Some l) as Hget.
  { rewrite <- Hsame. apply (dict_get_foldl_last h' items.*2 [] i l).
    - by rewrite list_lookup_fmap, Hi.
    - intros j l' Hj Hij. rewrite list_lookup_fmap in Hj.
      destruct (items !! j) as [[kj lj]|] eqn:Hjj; [|done]. injection Hj as <-.
      destruct (Hobjs lj) as (_ & _ & _ & _ & _ & _ & ->).
      { apply list_elem_of_fmap. exists (kj, lj). split; [done|].
        by eapply list_elem_of_lookup_2. }
      rewrite Hsame. by eapply Hlater. }
  exists lookup. eapply enum_serialize_found; eauto.
Qed.

Lemma enum_serialize_last_entry_wins_witness :
  exists self h' lookup,
    GraphQLEnumType_init "E" (PyDict two_unvalued_items) None two_unvalued_heap
    = (Ok self, h')
    /\ enum_serialize self VNone (h', None) = (Ok (VStr "B"), (h', Some lookup)).
Proof.
  assert (exists self h',
            GraphQLEnumType_init "E" (PyDict two_unvalued_items) None two_unvalued_heap
            = (Ok self, h')) as (self & h' & Hinit)
    by (do 2 eexists; vm_compute; reflexivity).
  destruct (enum_serialize_last_entry_wins "E" two_unvalued_items None two_unvalued_heap
              self h' 1 "B" 1 Hinit) as [lookup Hser].
  - apply (bool_decide_unpack _). reflexivity.
  - apply (bool_decide_unpack _). reflexivity.
  - intros l Hl.
    apply elem_of_cons in Hl as [->|Hl]; [reflexivity|].
    apply elem_of_cons in Hl as [->|Hl]; [reflexivity|]. by apply elem_of_nil in Hl.
  - reflexivity.
  - intros [|[|j]] kj lj Hj Hlt; try lia. discriminate.
  - exists self, h', lookup. split; [done|exact Hser].
Defined.

Lemma name_lookup_loop_miss ls :
  forall acc h k,
    (forall l, l ∈ ls ->
       exists e k', objs h !! l = Some (EnumValueObj e) /\ ev_name e = Some k' /\ k' ≠ k) ->
    exists m, name_lookup_loop ls acc h = (Ok m, h) /\ m !! k = acc !! k.
Proof.
  induction ls as [|l0 rest IH]; intros acc h k Hobjs; [by eexists|].
  cbn [name_lookup_loop].
  destruct (Hobjs l0 ltac:(left)) as (e0 & k0 & Hl0 & Hn0 & Hne).
  rewrite (bind_Ok _ _ h (EnumValueObj e0) h) by (unfold deref; by rewrite Hl0).
  cbv beta iota. rewrite Hn0.
  destruct (IH (<[k0 := l0]> acc) h k) as (m & Hrun & Hm).
  { intros l Hl. apply Hobjs. by right. }
  exists m. split; [done|]. by rewrite Hm, lookup_insert_ne.
Qed.

(** X21: what an enum does not know maps to [None], unless a hash cannot
    be taken.  [parse_literal] of a name that is not a key of the value map,
    or of a literal that is not an enum literal, returns [None].  [serialize]
    and [parse_value] of a value that is not an instance of [Hashable] (a
    list) return [None] and touch nothing.  Of a value that can be hashed
    and is equal to no entry's internal value they return [None] too,
    provided the internal value of every entry can be hashed.  They raise
    [TypeError] when building the lookup meets an internal value whose hash
    cannot be taken (the constructor accepts such entries), whatever the
    value asked for, and nothing is cached; and they raise it, after the
    lookup has been built and cached, for a value that is an instance of
    [Hashable] although its hash cannot be taken (a tuple holding a
    list). *)
Theorem enum_unknown_maps_to_None name items description h self h' :
  GraphQLEnumType_init name (PyDict items) description h = (Ok self, h') ->
  (forall k, k ∉ items.*1 ->
     exists self', parse_literal self (AstEnumValue k) h' = (Ok (VNone, self'), h'))
  /\ parse_literal self AstOther h' = (Ok (VNone, self), h')
  /\ (forall value s,
        is_hashable value = false ->
        enum_serialize self value s = (Ok VNone, s)
        /\ enum_parse_value self value s = (Ok VNone, s))
  /\ (forall value,
        hash_ok value = true ->
        (forall l, l ∈ items.*2 -> hash_ok (enum_value_at h l) = true) ->
        (forall l, l ∈ items.*2 -> py_eqb (enum_value_at h l) value = false) ->
        exists lookup,
          enum_serialize self value (h', None) = (Ok VNone, (h', Some lookup))
          /\ enum_parse_value self value (h', None) = (Ok VNone, (h', Some lookup)))
  /\ (forall value,
        is_hashable value = true ->
        (exists l, l ∈ items.*2 /\ hash_ok (enum_value_at h l) = false) ->
        enum_serialize self value (h', None) = (Raise unhashable_message, (h', None))
        /\ enum_parse_value self value (h', None)
           = (Raise unhashable_message, (h', None)))
  /\ (forall value,
        is_hashable value = true ->
        hash_ok value = false ->
        (forall l, l ∈ items.*2 -> hash_ok (enum_value_at h l) = true) ->
        exists lookup,
          enum_serialize self value (h', None)
          = (Raise unhashable_message, (h', Some lookup))
          /\ enum_parse_value self value (h', None)
             = (Raise unhashable_message, (h', Some lookup))).
Proof.
  intros Hinit.
  pose proof (fun l => enum_constructed_objects _ _ _ _ _ _ l Hinit) as Hobjs.
  pose proof (enum_value_lookup_built _ _ _ _ _ _ Hinit) as Hbuilt.
  pose proof (enum_value_lookup_fails _ _ _ _ _ _ Hinit) as Hfails.
  pose proof (GraphQLEnumType_init_shape _ _ _ _ _ _ Hinit) as ->.
  split; [|split; [done|split; [|split; [|split]]]].
  - intros k Hk.
    destruct (name_lookup_loop_miss items.*2 ∅ h' k) as (m & Hloop & Hm).
    { intros l Hl. destruct (Hobjs l Hl) as (e & k' & He & Hn & Hk' & _).
      exists e, k'. do 2 (split; [done|]). by intros ->. }
    eexists. unfold parse_literal, _get_name_lookup, get_values. simpl.
    rewrite (bind_Ok _ _ h' (m, mkEnumType name description items.*2 (Some m)) h')
      by (by rewrite (bind_Ok _ _ _ _ _ Hloop)).
    cbv beta iota. by rewrite Hm, lookup_empty.
  - intros value s Hvalue. unfold enum_parse_value, enum_serialize.
    by rewrite Hvalue.
  - intros value Hvalue Hhash Hmiss. specialize (Hbuilt Hhash).
    exists (value_lookup_of h' items.*2).
    assert (dict_get value (value_lookup_of h' items.*2) = None) as Hget.
    { unfold value_lookup_of. rewrite dict_get_foldl_notin; [done|].
      intros l Hl. destruct (Hobjs l Hl) as (_ & _ & _ & _ & _ & _ & ->).
      by apply Hmiss. }
    split; by eapply enum_serialize_missing.
  - intros value Hvalue Hbad. specialize (Hfails Hbad).
    unfold enum_parse_value, enum_serialize. rewrite Hvalue.
    by rewrite (bind_Raise _ _ _ _ _ Hfails).
  - intros value Hvalue Hbad Hhash. specialize (Hbuilt Hhash).
    exists (value_lookup_of h' items.*2).
    unfold enum_parse_value, enum_serialize. rewrite Hvalue.
    rewrite (bind_Ok _ _ _ _ _ Hbuilt). unfold dict_get_method. by rewrite Hbad.
Qed.

Lemma enum_unknown_maps_to_None_witness :
  (exists self h' self' lookup lookup',
     GraphQLEnumType_init "RGB" (PyDict rgb_items) None rgb_values_heap = (Ok self, h')
     /\ parse_literal self (AstEnumValue "PURPLE") h' = (Ok (VNone, self'), h')
     /\ enum_serialize self (VInt 9) (h', None) = (Ok VNone, (h', Some lookup))
     /\ enum_serialize self (VList [VInt 1]) (h', None) = (Ok VNone, (h', None))
     /\ enum_serialize self (VTuple [VList [VInt 1]]) (h', None)
        = (Raise unhashable_message, (h', Some lookup')))
  /\ (exists self h',
        GraphQLEnumType_init "E" (PyDict [("A", 0)]) None list_valued_heap = (Ok self, h')
        /\ enum_serialize self (VInt 1) (h', None)
           = (Raise unhashable_message, (h', None))
        /\ enum_serialize self (VList [VInt 1]) (h', None) = (Ok VNone, (h', None))).
Proof.
  split.
  - assert (exists self h',
              GraphQLEnumType_init "RGB" (PyDict rgb_items) None rgb_values_heap
              = (Ok self, h')) as (self & h' & Hinit)
      by (do 2 eexists; vm_compute; reflexivity).
    destruct (enum_unknown_maps_to_None _ _ _ _ _ _ Hinit)
      as (Hname & _ & Hlist & Hvalue & _ & Htuple).
    destruct (Hname "PURPLE") as [self' Hparse].
    { apply (bool_decide_unpack _). reflexivity. }
    destruct (Hvalue (VInt 9) eq_refl rgb_values_hashable) as (lookup & Hser & _).
    { intros l Hl.
      apply elem_of_cons in Hl as [->|Hl]; [reflexivity|].
      apply elem_of_cons in Hl as [->|Hl]; [reflexivity|].
      apply elem_of_cons in Hl as [->|Hl]; [reflexivity|]. by apply elem_of_nil in Hl. }
    destruct (Htuple (VTuple [VList [VInt 1]]) eq_refl eq_refl rgb_values_hashable)
      as (lookup' & Hraise & _).
    exists self, h', self', lookup, lookup'. split; [done|]. split; [exact Hparse|].
    split; [exact Hser|].
    split; [by destruct (Hlist (VList [VInt 1]) (h', None) eq_refl)|exact Hraise].
  - assert (exists self h',
              GraphQLEnumType_init "E" (PyDict [("A", 0)]) None list_valued_heap
              = (Ok self, h')) as (self & h' & Hinit)
      by (do 2 eexists; vm_compute; reflexivity).
    destruct (enum_unknown_maps_to_None _ _ _ _ _ _ Hinit)
      as (_ & _ & Hlist & _ & Hraise & _).
    exists self, h'. split; [done|]. split.
    + destruct (Hraise (VInt 1) eq_refl) as [Hser _]; [|exact Hser].
      exists 0. split; [left|reflexivity].
    + by destruct (Hlist (VList [VInt 1]) (h', None) eq_refl).
Defined.

(** ** Fields that are not a non-empty mapping *)




(** ** Resolution of the interface list *)

Lemma define_interfaces_loop_Ok_conditions type ls w w' :
  define_interfaces_loop type (IfaceRef <$> ls) w = (Ok tt, w') ->
  forall l, l ∈ ls ->
    exists iface, w_interfaces w !! l = Some iface
                  /\ (callable (i_type_resolver iface) = true
                      \/ callable (o_is_type_of type) = true).
Proof.
  revert w. induction ls as [|l0 rest IH]; intros w Hrun l Hin.
  - by apply elem_of_nil in Hin.
  - rewrite fmap_cons in Hrun. cbn [define_interfaces_loop] in Hrun.
    apply bind_Ok_inv in Hrun as (iface & w0 & Hget & Hrun).
    unfold get_interface in Hget.
    destruct (w_interfaces w !! l0) as [iface0|] eqn:Hl0; [|discriminate].
    injection Hget as -> <-.
    apply bind_Ok_inv in Hrun as ([] & w1 & Hcheck & Hrun).
    assert (w1 = w /\ (callable (i_type_resolver iface) = true
                       \/ callable (o_is_type_of type) = true)) as [-> Hcap].
    { destruct (callable (i_type_resolver iface)); simpl in Hcheck.
      - injection Hcheck as <-. auto.
      - apply py_assert_Ok_inv in Hcheck as [-> ->]. auto. }
    apply elem_of_cons in Hin as [->|Hin]; [eauto|]. by eapply IH.
Qed.

(** X8: resolution of an object's interface list.  [None] resolves to the
    empty list; a value that is neither a list nor a tuple is rejected with
    the message naming the object; a list is accepted, unchanged and without
    changing the world, exactly when every entry is an interface that has a
    resolver function or the object has an [is_type_of] function. *)
Theorem interface_list_resolution_spec type w :
  define_interfaces type (InterfacesValue InterfacesNone) w = (Ok [], w)
  /\ define_interfaces type (InterfacesValue InterfacesOther) w
     = (Raise (interfaces_shape_message (o_name type)), w)
  /\ forall refs,
       ((exists r w', define_interfaces type (InterfacesValue (InterfacesList refs)) w
                      = (Ok r, w'))
        <-> exists ls,
              refs = IfaceRef <$> ls
              /\ forall l, l ∈ ls ->
                   exists iface, w_interfaces w !! l = Some iface
                                 /\ (callable (i_type_resolver iface) = true
                                     \/ callable (o_is_type_of type) = true))
       /\ (forall r w', define_interfaces type (InterfacesValue (InterfacesList refs)) w
                        = (Ok r, w') -> r = refs /\ w' = w).
Proof.
  split; [done|]. split; [done|]. intros refs.
  assert (forall r w',
            define_interfaces type (InterfacesValue (InterfacesList refs)) w = (Ok r, w') ->
            r = refs /\ w' = w
            /\ define_interfaces_loop type refs w = (Ok tt, w)) as Hinv.
  { intros r w' Hrun. unfold define_interfaces in Hrun.
    rewrite (bind_Ok _ _ w _ w) in Hrun by done. cbv beta iota in Hrun.
    apply bind_Ok_inv in Hrun as ([] & w1 & Hloop & Hret). injection Hret as <- <-.
    pose proof Hloop as [-> _]%define_interfaces_loop_Ok_inv. done. }
  split; [split|].
  - intros (r & w' & Hrun). destruct (Hinv _ _ Hrun) as (_ & _ & Hloop).
    pose proof Hloop as [_ [ls ->]]%define_interfaces_loop_Ok_inv.
    exists ls. split; [done|]. by eapply define_interfaces_loop_Ok_conditions.
  - intros (ls & -> & Hok). exists (IfaceRef <$> ls), w.
    unfold define_interfaces. rewrite (bind_Ok _ _ w _ w) by done. cbv beta iota.
    by rewrite (bind_Ok _ _ _ _ _ (define_interfaces_loop_ok type ls w Hok)).
  - intros r w' Hrun. by destruct (Hinv _ _ Hrun) as (-> & -> & _).
Qed.

Lemma interface_list_resolution_spec_witness :
  exists r w',
    define_interfaces DogType (InterfacesValue (InterfacesList [IfaceRef 7]))
      world_with_interface = (Ok r, w').
Proof.
  apply (proj1 (proj2 (proj2 (interface_list_resolution_spec DogType world_with_interface))
                  [IfaceRef 7])).
  exists [7]. split; [reflexivity|].
  intros l ->%list_elem_of_singleton. exists SomeInterfaceType.
  split; [reflexivity|]. by right.
Defined.
